(** * claudegram: the per-session request queue and the bounded map

    A shallow embedding of two modules of the repository:

    - [src/utils/bounded-map.ts] (class [BoundedMap]), in [Module BoundedMap];
    - the request queue ([queueRequest], [processQueue], [cancelRequest],
      [resetRequest], [clearQueue] and the small registry accessors), in
      [Module RequestQueue].

    Maps keyed by session key are [gmap string _], the set of cancelled
    chats is a [gset string], and a JavaScript [Map] whose iteration order
    matters is an association list in insertion order.

    Further modules embed the code around them: the detection of image
    types ([ImageType]), the session history and the session manager
    ([SessionHistory], [SessionManager]), the user preferences and the
    provider router ([UserPreferences], [ProviderRouter]), session keys
    ([SessionKey]), the resolution of binaries ([ResolveBin]), the port and
    the model of the OpenCode provider ([OpenCode]), the atomic write and
    the terminal settings ([AtomicWrite], [TerminalSettings]) and the
    parsing of transcripts ([Transcribe]).  A string is the list of its
    code units, those below 256; what a function reads of the file system,
    of the clock or of another process is an argument of it. *)

From stdpp Require Import base decidable option list gmap strings pretty.
From Stdlib Require Import ZArith Lia.

Local Open Scope string_scope.
Local Open Scope Z_scope.
Local Open Scope list_scope.

(* ===================================================================== *)
(** * BoundedMap *)
(* ===================================================================== *)

Module BoundedMap.

Section js_map.
(** [K] is the key type the class is instantiated at (the repository uses
    [number]); it does not contain [undefined], so the iterator result
    [keys().next().value] is [undefined] exactly when the map is empty. *)
Context {K V : Type} `{EqDecision K}.

(** A JavaScript [Map] is the list of its entries in insertion order. *)
Abbreviation JsMap := (list (K * V)).

Definition js_has (key : K) (m : JsMap) : bool :=
  bool_decide (key ∈ m.*1).

Fixpoint js_get (key : K) (m : JsMap) : option V :=
  match m with
  | [] => None
  | (k, v) :: rest => if decide (k = key) then Some v else js_get key rest
  end.

(** [Map.prototype.delete]: removes the entry, the others keep their order. *)
Definition js_delete (key : K) (m : JsMap) : JsMap :=
  filter (λ e, e.1 ≠ key) m.

Fixpoint js_replace (key : K) (value : V) (m : JsMap) : JsMap :=
  match m with
  | [] => []
  | (k, v) :: rest =>
      if decide (k = key) then (k, value) :: rest
      else (k, v) :: js_replace key value rest
  end.

(** [Map.prototype.set]: an existing key keeps its position, a new key is
    appended. *)
Definition js_set (key : K) (value : V) (m : JsMap) : JsMap :=
  if js_has key m then js_replace key value m else m ++ [(key, value)].

(** [map.keys().next().value] *)
Definition js_first_key (m : JsMap) : option K := head (m.*1).

(** The two fields of the class; [maxSize] is any integer, the constructor
    checks nothing. *)
Record BoundedMap : Type := mkBoundedMap {
  map : JsMap;
  maxSize : Z
}.

(** [constructor(maxSize = 1000)] *)
Definition new (maxSize : Z) : BoundedMap :=
  {| map := []; maxSize := maxSize |}.

Definition size (b : BoundedMap) : Z := Z.of_nat (length (map b)).

Definition get (key : K) (b : BoundedMap) : option V := js_get key (map b).

Definition has (key : K) (b : BoundedMap) : bool := js_has key (map b).

Definition set (key : K) (value : V) (b : BoundedMap) : BoundedMap :=
  let m1 :=
    if js_has key (map b) then js_delete key (map b)
    else if bool_decide (size b >= maxSize b) then
      match js_first_key (map b) with
      | Some oldest => js_delete oldest (map b)
      | None => map b
      end
    else map b in
  {| map := js_set key value m1; maxSize := maxSize b |}.

(** [delete] returns whether the key was present. *)
Definition delete (key : K) (b : BoundedMap) : bool * BoundedMap :=
  (js_has key (map b), {| map := js_delete key (map b); maxSize := maxSize b |}).

Definition clear (b : BoundedMap) : BoundedMap :=
  {| map := []; maxSize := maxSize b |}.

Definition keys (b : BoundedMap) : list K := (map b).*1.

Definition entries (b : BoundedMap) : list (K * V) := map b.

(** The operations of the class that a client can issue. *)
Inductive Op : Type :=
| OpSet (key : K) (value : V)
| OpGet (key : K)
| OpDelete (key : K)
| OpClear.

Definition apply (b : BoundedMap) (o : Op) : BoundedMap :=
  match o with
  | OpSet k v => set k v b
  | OpGet _ => b
  | OpDelete k => (delete k b).2
  | OpClear => clear b
  end.

Definition run (ops : list Op) (b : BoundedMap) : BoundedMap :=
  foldl apply b ops.

End js_map.

Arguments BoundedMap : clear implicits.
Arguments Op : clear implicits.

Definition example_ops : list (Op Z string) :=
  [OpSet 1 "a"; OpSet 2 "b"; OpSet 1 "c"; OpGet 2; OpSet 3 "d"].


End BoundedMap.

(* ===================================================================== *)
(** * The request queue *)
(* ===================================================================== *)

Module RequestQueue.

(** ** Values *)

(** An [Error] object.  Object identity is not modelled: two errors are the
    same value when their name and message agree. *)
Record ErrorObj : Type := mkError {
  err_name : string;
  err_message : string
}.

(** The values a handler can return or throw. *)
Inductive JsValue : Type :=
| JUndefined
| JNull
| JBool (b : bool)
| JString (s : string)
| JError (e : ErrorObj).

#[global] Instance ErrorObj_eq_dec : EqDecision ErrorObj.
Proof. solve_decision. Defined.

#[global] Instance JsValue_eq_dec : EqDecision JsValue.
Proof. solve_decision. Defined.

(** [new Error(msg)] *)
Definition new_Error (msg : string) : ErrorObj :=
  {| err_name := "Error"; err_message := msg |}.

(** [v instanceof Error] *)
Definition instanceof_Error (v : JsValue) : bool :=
  match v with
  | JError _ => true
  | _ => false
  end.

(** [Error.prototype.toString] *)
Definition Error_toString (e : ErrorObj) : string :=
  if decide (err_name e = "") then err_message e
  else if decide (err_message e = "") then err_name e
  else err_name e +:+ ": " +:+ err_message e.

(** [String(v)] *)
Definition js_String (v : JsValue) : string :=
  match v with
  | JUndefined => "undefined"
  | JNull => "null"
  | JBool true => "true"
  | JBool false => "false"
  | JString s => s
  | JError e => Error_toString e
  end.

(** ** Requests *)

(** [QueuedRequest<T>].  The handler is an opaque operation, named by an
    identifier; [resolve] and [reject] belong to the promise that
    [queueRequest] created, named by [promise]. *)
Record QueuedRequest : Type := mkRequest {
  message : string;
  handler : nat;
  promise : nat
}.

#[global] Instance QueuedRequest_eq_dec : EqDecision QueuedRequest.
Proof. solve_decision. Defined.

(** How the promise returned by [request.handler()] settles. *)
Inductive Outcome : Type :=
| Fulfilled (result : JsValue)
| Threw (error : JsValue).

(** ** The history of the module *)

(** The statements of the module that the properties speak about.  The
    state below records them in program order in a history variable
    ([trace]); the code has no such variable, and nothing in the model reads
    it. *)
Inductive Effect : Type :=
| EPush (sessionKey : string) (request : QueuedRequest)
    (* queue.push(request) *)
| EInvoke (sessionKey : string) (request : QueuedRequest)
    (* request.handler() *)
| EResolve (promise : nat) (value : JsValue)
    (* request.resolve(result) *)
| EReject (promise : nat) (error : JsValue)
    (* request.reject(...) *)
| ECleanup (sessionKey : string) (request : QueuedRequest)
    (* the four clean-up statements of the finally block have run *)
| EMarkCancelled (sessionKey : string)
    (* cancelledChats.add(sessionKey) *)
| EInterrupt (sessionKey : string) (query : nat)
    (* q.interrupt() *)
| EAbort (sessionKey : string) (controller : nat)
    (* controller.abort() *)
| EDebug (text : string) (sessionKey : string).
    (* console.debug(text, sessionKey, err) *)

#[global] Instance Effect_eq_dec : EqDecision Effect.
Proof. solve_decision. Defined.

(** An activation of [cancelRequest] or [resetRequest] suspended at
    [await q.interrupt()]; [resetRequest] has already read [controller]. *)
Inductive Continuation : Type :=
| KCancel (sessionKey : string)
| KReset (sessionKey : string) (controller : option nat).

(** ** Module state *)

(** The five module-level collections, followed by what the JavaScript
    run time holds: the activations of [processQueue] suspended at
    [await request.handler()], the activations of [cancelRequest] and
    [resetRequest] suspended at [await q.interrupt()], and the supply of
    promise identities; and last the history.  A query and an abort
    controller are named by an identifier. *)
Record State : Type := mkState {
  activeAbortControllers : gmap string nat;
  activeQueries : gmap string nat;
  pendingQueues : gmap string (list QueuedRequest);
  processingFlags : gmap string bool;
  cancelledChats : gset string;
  awaiting : list (string * QueuedRequest);
  interrupting : list Continuation;
  nextPromise : nat;
  trace : list Effect
}.

Definition init : State :=
  {| activeAbortControllers := ∅; activeQueries := ∅; pendingQueues := ∅;
     processingFlags := ∅; cancelledChats := ∅; awaiting := [];
     interrupting := []; nextPromise := 0%nat; trace := [] |}.

Definition upd_activeAbortControllers
    (f : gmap string nat → gmap string nat) (st : State) : State :=
  mkState (f (activeAbortControllers st)) (activeQueries st) (pendingQueues st)
    (processingFlags st) (cancelledChats st) (awaiting st) (interrupting st)
    (nextPromise st) (trace st).

Definition upd_activeQueries
    (f : gmap string nat → gmap string nat) (st : State) : State :=
  mkState (activeAbortControllers st) (f (activeQueries st)) (pendingQueues st)
    (processingFlags st) (cancelledChats st) (awaiting st) (interrupting st)
    (nextPromise st) (trace st).

Definition upd_pendingQueues
    (f : gmap string (list QueuedRequest) → gmap string (list QueuedRequest))
    (st : State) : State :=
  mkState (activeAbortControllers st) (activeQueries st) (f (pendingQueues st))
    (processingFlags st) (cancelledChats st) (awaiting st) (interrupting st)
    (nextPromise st) (trace st).

Definition upd_processingFlags
    (f : gmap string bool → gmap string bool) (st : State) : State :=
  mkState (activeAbortControllers st) (activeQueries st) (pendingQueues st)
    (f (processingFlags st)) (cancelledChats st) (awaiting st) (interrupting st)
    (nextPromise st) (trace st).

Definition upd_cancelledChats
    (f : gset string → gset string) (st : State) : State :=
  mkState (activeAbortControllers st) (activeQueries st) (pendingQueues st)
    (processingFlags st) (f (cancelledChats st)) (awaiting st) (interrupting st)
    (nextPromise st) (trace st).

Definition upd_awaiting
    (f : list (string * QueuedRequest) → list (string * QueuedRequest))
    (st : State) : State :=
  mkState (activeAbortControllers st) (activeQueries st) (pendingQueues st)
    (processingFlags st) (cancelledChats st) (f (awaiting st)) (interrupting st)
    (nextPromise st) (trace st).

Definition upd_interrupting
    (f : list Continuation → list Continuation) (st : State) : State :=
  mkState (activeAbortControllers st) (activeQueries st) (pendingQueues st)
    (processingFlags st) (cancelledChats st) (awaiting st) (f (interrupting st))
    (nextPromise st) (trace st).

Definition upd_nextPromise (f : nat → nat) (st : State) : State :=
  mkState (activeAbortControllers st) (activeQueries st) (pendingQueues st)
    (processingFlags st) (cancelledChats st) (awaiting st) (interrupting st)
    (f (nextPromise st)) (trace st).

(** Append effects to the trace. *)
Definition emit (es : list Effect) (st : State) : State :=
  mkState (activeAbortControllers st) (activeQueries st) (pendingQueues st)
    (processingFlags st) (cancelledChats st) (awaiting st) (interrupting st)
    (nextPromise st) (trace st ++ es).

(** ** The registry accessors *)

Definition getAbortController (sessionKey : string) (st : State) : option nat :=
  activeAbortControllers st !! sessionKey.

Definition setAbortController (sessionKey : string) (controller : nat)
    (st : State) : State :=
  upd_activeAbortControllers (<[sessionKey := controller]>) st.

Definition clearAbortController (sessionKey : string) (st : State) : State :=
  upd_activeAbortControllers (base.delete sessionKey) st.

Definition setActiveQuery (sessionKey : string) (q : nat) (st : State) : State :=
  upd_activeQueries (<[sessionKey := q]>) st.

Definition clearActiveQuery (sessionKey : string) (st : State) : State :=
  upd_activeQueries (base.delete sessionKey) st.

Definition isCancelled (sessionKey : string) (st : State) : bool :=
  bool_decide (sessionKey ∈ cancelledChats st).

Definition clearCancelled (sessionKey : string) (st : State) : State :=
  upd_cancelledChats (λ s, s ∖ {[sessionKey]}) st.

(** [processingFlags.get(sessionKey) === true] *)
Definition isProcessing (sessionKey : string) (st : State) : bool :=
  bool_decide (processingFlags st !! sessionKey = Some true).

Definition getQueuePosition (sessionKey : string) (st : State) : nat :=
  match pendingQueues st !! sessionKey with
  | Some queue => length queue
  | None => 0%nat
  end.

(** ** The queue *)

(** The array stored under a key in [pendingQueues] is created once, by
    [queueRequest], and never replaced: [push], [shift] and [length = 0]
    mutate it in place.  Every reference to it that the code holds (the
    [queue] constants of [queueRequest], [processQueue] and [clearQueue])
    therefore aliases the map entry, and the model reads and writes the
    array through the map. *)

Definition processQueue (sessionKey : string) (st : State) : State :=
  if isProcessing sessionKey st then st
  else
    match pendingQueues st !! sessionKey with
    | None => st
    | Some [] => st
    | Some (request :: rest) =>
        (* processingFlags.set(sessionKey, true) *)
        let st := upd_processingFlags (<[sessionKey := true]>) st in
        (* queue.shift() *)
        let st := upd_pendingQueues (<[sessionKey := rest]>) st in
        (* request.handler(), then suspend at the await *)
        let st := emit [EInvoke sessionKey request] st in
        upd_awaiting (λ fs, fs ++ [(sessionKey, request)]) st
    end.

(** [queueRequest] returns the identity of the promise it creates. *)
Definition queueRequest (sessionKey : string) (message : string) (handler : nat)
    (st : State) : nat * State :=
  let request := mkRequest message handler (nextPromise st) in
  let st := upd_nextPromise S st in
  let st :=
    match pendingQueues st !! sessionKey with
    | Some _ => st
    | None => upd_pendingQueues (<[sessionKey := []]>) st
    end in
  let st := upd_pendingQueues (alter (λ queue, queue ++ [request]) sessionKey) st in
  let st := emit [EPush sessionKey request] st in
  (promise request, processQueue sessionKey st).

(** [error instanceof Error ? error : new Error(String(error))] *)
Definition as_Error (error : JsValue) : JsValue :=
  if instanceof_Error error then error
  else JError (new_Error (js_String error)).

(** The try/catch of [processQueue] once the awaited promise has settled:
    [request.resolve(result)], or [request.reject(...)] in the catch clause. *)
Definition settlement (request : QueuedRequest) (outcome : Outcome) : Effect :=
  match outcome with
  | Fulfilled result => EResolve (promise request) result
  | Threw error => EReject (promise request) (as_Error error)
  end.

Definition deliver (request : QueuedRequest) (outcome : Outcome)
    (st : State) : State :=
  emit [settlement request outcome] st.

(** The first four statements of the finally block. *)
Definition cleanup (sessionKey : string) (request : QueuedRequest)
    (st : State) : State :=
  let st := upd_processingFlags (<[sessionKey := false]>) st in
  let st := clearAbortController sessionKey st in
  let st := clearActiveQuery sessionKey st in
  let st := clearCancelled sessionKey st in
  emit [ECleanup sessionKey request] st.

(** [processQueue] from the point where [await request.handler()] returns
    or throws, to its end. *)
Definition processQueue_resume (sessionKey : string) (request : QueuedRequest)
    (outcome : Outcome) (st : State) : State :=
  let st := deliver request outcome st in
  let st := cleanup sessionKey request st in
  if bool_decide (0 < getQueuePosition sessionKey st)%nat
  then processQueue sessionKey st
  else st.

(** ** Cancellation *)

Definition cancelledChats_add (sessionKey : string) (st : State) : State :=
  emit [EMarkCancelled sessionKey] (upd_cancelledChats (λ s, {[sessionKey]} ∪ s) st).

(** [cancelRequest] up to its return or to [await q.interrupt()]:
    [inl b] is a return of [b], [inr k] a suspension. *)
Definition cancelRequest (sessionKey : string) (st : State)
    : (bool + Continuation) * State :=
  match activeQueries st !! sessionKey with
  | Some q =>
      let st := cancelledChats_add sessionKey st in
      let st := emit [EInterrupt sessionKey q] st in
      (inr (KCancel sessionKey), st)
  | None =>
      match activeAbortControllers st !! sessionKey with
      | Some controller =>
          let st := cancelledChats_add sessionKey st in
          let st := emit [EAbort sessionKey controller] st in
          let st := clearAbortController sessionKey st in
          (inl true, st)
      | None => (inl false, st)
      end
  end.

(** [resetRequest] up to its return or to [await q.interrupt()]. *)
Definition resetRequest (sessionKey : string) (st : State)
    : (bool + Continuation) * State :=
  let q := activeQueries st !! sessionKey in
  let controller := activeAbortControllers st !! sessionKey in
  match q with
  | Some q =>
      let st := cancelledChats_add sessionKey st in
      let st := emit [EInterrupt sessionKey q] st in
      (inr (KReset sessionKey controller), st)
  | None =>
      match controller with
      | Some controller =>
          let st := cancelledChats_add sessionKey st in
          let st := emit [EAbort sessionKey controller] st in
          let st := clearAbortController sessionKey st in
          (inl true, st)
      | None => (inl false, st)
      end
  end.

(** The rest of [cancelRequest] or [resetRequest] once [q.interrupt()] has
    settled; [threw] tells whether it rejected. *)
Definition resume (k : Continuation) (threw : bool) (st : State) : bool * State :=
  match k with
  | KCancel sessionKey =>
      let st :=
        if threw
        then emit [EDebug "[cancelRequest] interrupt() threw for chat" sessionKey] st
        else st in
      (true, clearActiveQuery sessionKey st)
  | KReset sessionKey controller =>
      let st :=
        if threw
        then emit [EDebug "[resetRequest] interrupt() threw for chat" sessionKey] st
        else st in
      let st :=
        match controller with
        | Some c => emit [EAbort sessionKey c] st
        | None => st
        end in
      let st := clearActiveQuery sessionKey st in
      (true, clearAbortController sessionKey st)
  end.

(** A whole call of [cancelRequest] when nothing else runs while it awaits
    the interrupt. *)
Definition cancelRequest_call (sessionKey : string) (threw : bool) (st : State)
    : bool * State :=
  match cancelRequest sessionKey st with
  | (inl b, st) => (b, st)
  | (inr k, st) => resume k threw st
  end.

Definition resetRequest_call (sessionKey : string) (threw : bool) (st : State)
    : bool * State :=
  match resetRequest sessionKey st with
  | (inl b, st) => (b, st)
  | (inr k, st) => resume k threw st
  end.

Definition queueCleared : JsValue := JError (new_Error "Queue cleared").

Definition clearQueue (sessionKey : string) (st : State) : nat * State :=
  match pendingQueues st !! sessionKey with
  | None => (0%nat, st)
  | Some queue =>
      let count := length queue in
      let st := emit ((λ request, EReject (promise request) queueCleared) <$> queue) st in
      let st := upd_pendingQueues (<[sessionKey := []]>) st in
      (count, st)
  end.

(** ** The module as a transition system *)

(** What can happen to the module: a call of an exported function, the
    settling of the promise of an invoked handler, or the settling of an
    awaited [q.interrupt()].  Each runs to its end or to its next [await]
    without interruption, as the single-threaded run time has it.

    The body of a handler is not modelled.  Whatever it does to the module
    while it runs (registering a query or a controller, submitting or
    cancelling) is a further call of the sequence, and a handler that throws
    before it returns a promise is one whose [HandlerSettles] comes next.
    [HandlerSettles p] stands for the resumption of the activation of
    [processQueue] that awaits the handler of the request with promise [p];
    [InterruptSettles i] for the resumption of the [i]-th suspended
    activation of [cancelRequest] or [resetRequest]. *)
Inductive Call : Type :=
| CallQueueRequest (sessionKey : string) (message : string) (handler : nat)
| HandlerSettles (promise : nat) (outcome : Outcome)
| CallCancelRequest (sessionKey : string)
| CallResetRequest (sessionKey : string)
| InterruptSettles (index : nat) (threw : bool)
| CallClearQueue (sessionKey : string)
| CallSetAbortController (sessionKey : string) (controller : nat)
| CallClearAbortController (sessionKey : string)
| CallSetActiveQuery (sessionKey : string) (q : nat)
| CallClearActiveQuery (sessionKey : string)
| CallClearCancelled (sessionKey : string).

Definition suspend (r : (bool + Continuation) * State) : State :=
  match r with
  | (inl _, st) => st
  | (inr k, st) => upd_interrupting (λ ks, ks ++ [k]) st
  end.

(** A settling that matches no suspended activation changes nothing. *)
Definition step (st : State) (c : Call) : State :=
  match c with
  | CallQueueRequest sessionKey message handler =>
      (queueRequest sessionKey message handler st).2
  | HandlerSettles p outcome =>
      match list_find (λ f, promise f.2 = p) (awaiting st) with
      | Some (i, (sessionKey, request)) =>
          processQueue_resume sessionKey request outcome
            (upd_awaiting (base.delete i) st)
      | None => st
      end
  | CallCancelRequest sessionKey => suspend (cancelRequest sessionKey st)
  | CallResetRequest sessionKey => suspend (resetRequest sessionKey st)
  | InterruptSettles i threw =>
      match interrupting st !! i with
      | Some k => (resume k threw (upd_interrupting (base.delete i) st)).2
      | None => st
      end
  | CallClearQueue sessionKey => (clearQueue sessionKey st).2
  | CallSetAbortController sessionKey controller =>
      setAbortController sessionKey controller st
  | CallClearAbortController sessionKey => clearAbortController sessionKey st
  | CallSetActiveQuery sessionKey q => setActiveQuery sessionKey q st
  | CallClearActiveQuery sessionKey => clearActiveQuery sessionKey st
  | CallClearCancelled sessionKey => clearCancelled sessionKey st
  end.

Definition run (calls : list Call) (st : State) : State := foldl step st calls.

(** ** Observations used to state the properties *)

(** The requests of a key whose handler has been invoked and whose
    [processQueue] activation has not yet reached its finally block. *)
Definition in_flight (sessionKey : string) (st : State) : list QueuedRequest :=
  (filter (λ f, f.1 = sessionKey) (awaiting st)).*2.

(** The array of a key ([[]] when the key has none). *)
Definition pending (sessionKey : string) (st : State) : list QueuedRequest :=
  default [] (pendingQueues st !! sessionKey).

(** The requests pushed for a key, in the order of the pushes. *)
Definition pushed (sessionKey : string) (t : list Effect) : list QueuedRequest :=
  omap (λ e, match e with
             | EPush k r => if decide (k = sessionKey) then Some r else None
             | _ => None
             end) t.

(** The requests of a key whose handler was invoked, in the order of the
    invocations. *)
Definition invoked (sessionKey : string) (t : list Effect) : list QueuedRequest :=
  omap (λ e, match e with
             | EInvoke k r => if decide (k = sessionKey) then Some r else None
             | _ => None
             end) t.

(** Reading a trace from its start, for one key: [Some None] when no call
    of the key is open, [Some (Some r)] when [r] was invoked and its clean-up
    has not run, [None] as soon as a handler is invoked while a call is open,
    or a clean-up runs for a call that is not the open one. *)
Definition bracket (sessionKey : string)
    (acc : option (option QueuedRequest)) (e : Effect)
    : option (option QueuedRequest) :=
  match acc with
  | None => None
  | Some cur =>
      match e with
      | EInvoke k r =>
          if decide (k = sessionKey) then
            match cur with
            | None => Some (Some r)
            | Some _ => None
            end
          else Some cur
      | ECleanup k r =>
          if decide (k = sessionKey) then
            if decide (cur = Some r) then Some None else None
          else Some cur
      | _ => Some cur
      end
  end.

Definition open_call (sessionKey : string) (t : list Effect)
    : option (option QueuedRequest) :=
  foldl (bracket sessionKey) (Some None) t.

(** Every invocation for the key happens when no call of the key is open,
    and every clean-up closes the open call. *)
Definition serialized (sessionKey : string) (t : list Effect) : bool :=
  bool_decide (is_Some (open_call sessionKey t)).

(** A registration is made while its key is processing (the handler
    registers its query or controller while it runs). *)
Definition registration_allowed (c : Call) (st : State) : bool :=
  match c with
  | CallSetAbortController k _ | CallSetActiveQuery k _ => isProcessing k st
  | _ => true
  end.

(** Every registration of a call sequence is made while its key is
    processing. *)
Fixpoint registers_while_processing (calls : list Call) (st : State) : bool :=
  match calls with
  | [] => true
  | c :: calls =>
      registration_allowed c st && registers_while_processing calls (step st c)
  end.

Definition clears_queue (sessionKey : string) (c : Call) : bool :=
  match c with
  | CallClearQueue k => bool_decide (k = sessionKey)
  | _ => false
  end.

(** The effects a state has performed beyond those of an earlier state. *)
Definition effects_since (st st' : State) : list Effect :=
  drop (length (trace st)) (trace st').

(** ** Predicates and auxiliary states of the proofs *)

(** The state in which [processQueue] leaves the module when it starts the
    request at the head of the queue. *)
Definition started (k : string) (r : QueuedRequest) (rest : list QueuedRequest)
    (st : State) : State :=
  mkState (activeAbortControllers st) (activeQueries st)
    (<[k := rest]> (pendingQueues st)) (<[k := true]> (processingFlags st))
    (cancelledChats st) (awaiting st ++ [(k, r)]) (interrupting st)
    (nextPromise st) (trace st ++ [EInvoke k r]).

Definition neutral (e : Effect) : bool :=
  match e with
  | EInvoke _ _ | ECleanup _ _ => false
  | _ => true
  end.

Definition quiet (e : Effect) : bool :=
  match e with
  | EPush _ _ | EInvoke _ _ => false
  | _ => true
  end.

(** For one key: either the flag is set, exactly one activation of
    [processQueue] is suspended on a handler of the key, and the trace has
    that call open; or the flag is not set, no activation is suspended, and
    the trace has no call open. *)
Definition exclusive (k : string) (st : State) : Prop :=
  if isProcessing k st
  then ∃ r, in_flight k st = [r] ∧ open_call k (trace st) = Some (Some r)
  else in_flight k st = [] ∧ open_call k (trace st) = Some None.

(** The requests of a key in the order in which they get their turn: those
    already invoked, then those waiting in the array. *)
Definition turns (k : string) (st : State) : list QueuedRequest :=
  invoked k (trace st) ++ pending k st.

(** The calls of [queueRequest] for a key, in order. *)
Definition submissions (k : string) (calls : list Call) : list (string * nat) :=
  omap (λ c, match c with
             | CallQueueRequest k' m h =>
                 if decide (k' = k) then Some (m, h) else None
             | _ => None
             end) calls.

(** [st'] differs from [st] in nothing that the order of turns of [k]
    depends on. *)
Definition same_order (k : string) (st st' : State) : Prop :=
  pushed k (trace st') = pushed k (trace st)
  ∧ turns k st' = turns k st
  ∧ nextPromise st' = nextPromise st.

(** The promises of the requests pushed for a key are pairwise distinct:
    each comes from the supply, which only grows. *)
Definition fresh (k : string) (st : State) : Prop :=
  Forall (λ r, promise r < nextPromise st)%nat (pushed k (trace st))
  ∧ NoDup (promise <$> pushed k (trace st)).

(** A key that is not processing has no active query and no controller. *)
Definition unregistered_when_idle (k : string) (st : State) : Prop :=
  isProcessing k st = false →
  activeQueries st !! k = None ∧ activeAbortControllers st !! k = None.


(** ** Example states *)

(** One request submitted for the key ["1"]; its handler is running. *)
Definition one_running : State :=
  run [CallQueueRequest "1" "a" 1%nat] init.


(** A request was submitted, its handler registered a query and a
    controller, and then settled. *)
Definition settled_calls : list Call :=
  [CallQueueRequest "1" "a" 1%nat; CallSetActiveQuery "1" 7%nat;
   CallSetAbortController "1" 8%nat; HandlerSettles 0 (Fulfilled JNull)].

Definition settled : State := run settled_calls init.

(** Three requests submitted for the key ["1"]: the first is running, the
    other two wait. *)
Definition three_calls : list Call :=
  [CallQueueRequest "1" "A" 1%nat; CallQueueRequest "1" "B" 2%nat;
   CallQueueRequest "1" "C" 3%nat].

Definition three_submitted : State := run three_calls init.

(** The same, and then the first handler has settled. *)
Definition three_then_settled : list Call :=
  three_calls ++ [HandlerSettles 0 (Fulfilled JNull)].

(** The same, and then each handler has settled in its turn. *)
Definition three_all_settled : list Call :=
  three_calls
  ++ [HandlerSettles 0 (Fulfilled JNull); HandlerSettles 1 (Fulfilled JNull);
      HandlerSettles 2 (Fulfilled JNull)].


End RequestQueue.

(* ===================================================================== *)
(** * The request queue: further observations *)
(* ===================================================================== *)

Module RequestQueueViews.
Import RequestQueue.

(** The session key of a suspended activation of [cancelRequest] or
    [resetRequest]. *)
Definition continuation_key (kont : Continuation) : string :=
  match kont with
  | KCancel k => k
  | KReset k _ => k
  end.

(** The session key a call works for: the argument of an exported function,
    the key of the activation that a settlement resumes, none when the
    settlement resumes nothing. *)
Definition call_key (st : State) (c : Call) : option string :=
  match c with
  | CallQueueRequest k _ _ | CallCancelRequest k | CallResetRequest k
  | CallClearQueue k | CallSetAbortController k _ | CallClearAbortController k
  | CallSetActiveQuery k _ | CallClearActiveQuery k | CallClearCancelled k =>
      Some k
  | HandlerSettles p _ =>
      (λ found : nat * (string * QueuedRequest), found.2.1)
        <$> list_find (λ f, promise f.2 = p) (awaiting st)
  | InterruptSettles i _ => continuation_key <$> interrupting st !! i
  end.

(** All that the module holds for one session key. *)
Record KeyView : Type := mkKeyView {
  view_queue : option (list QueuedRequest);
  view_flag : option bool;
  view_in_flight : list QueuedRequest;
  view_query : option nat;
  view_controller : option nat;
  view_cancelled : bool
}.

Definition key_view (k : string) (st : State) : KeyView :=
  {| view_queue := pendingQueues st !! k;
     view_flag := processingFlags st !! k;
     view_in_flight := in_flight k st;
     view_query := activeQueries st !! k;
     view_controller := activeAbortControllers st !! k;
     view_cancelled := isCancelled k st |}.

(** The effects of cancelling: marks, interrupts, aborts and debug lines. *)
Definition cancellation_effect (e : Effect) : bool :=
  match e with
  | EMarkCancelled _ | EInterrupt _ _ | EAbort _ _ | EDebug _ _ => true
  | _ => false
  end.

(** ** The life of a request *)

(** Where the request with a given promise stands: not yet pushed, waiting
    in the array of a key, its handler running, or its promise settled. *)
Inductive Phase : Type :=
| Fresh
| Waiting (sessionKey : string) (request : QueuedRequest)
| Running (sessionKey : string) (request : QueuedRequest)
| Settled.

#[global] Instance Phase_eq_dec : EqDecision Phase.
Proof. solve_decision. Defined.

(** One effect moves the request with promise [p] along

      Fresh -> Waiting -> Running -> Settled    (push, invoke, resolve or reject)
               Waiting -----------> Settled     (reject)

    and any other effect on the request is out of order ([None]). *)
Definition advance (p : nat) (acc : option Phase) (e : Effect) : option Phase :=
  match acc with
  | None => None
  | Some ph =>
      match e with
      | EPush k r =>
          if decide (promise r = p) then
            match ph with
            | Fresh => Some (Waiting k r)
            | _ => None
            end
          else Some ph
      | EInvoke k r =>
          if decide (promise r = p) then
            if decide (ph = Waiting k r) then Some (Running k r) else None
          else Some ph
      | EResolve p' _ =>
          if decide (p' = p) then
            match ph with
            | Running _ _ => Some Settled
            | _ => None
            end
          else Some ph
      | EReject p' _ =>
          if decide (p' = p) then
            match ph with
            | Waiting _ _ | Running _ _ => Some Settled
            | _ => None
            end
          else Some ph
      | _ => Some ph
      end
  end.

Definition lifecycle (p : nat) (t : list Effect) : option Phase :=
  foldl (advance p) (Some Fresh) t.

(** The effect is about the request with promise [p]. *)
Definition concerns (p : nat) (e : Effect) : bool :=
  match e with
  | EPush _ r | EInvoke _ r => bool_decide (promise r = p)
  | EResolve p' _ | EReject p' _ => bool_decide (p' = p)
  | _ => false
  end.

(** The effect settles the promise [p]. *)
Definition settles (p : nat) (e : Effect) : bool :=
  match e with
  | EResolve p' _ | EReject p' _ => bool_decide (p' = p)
  | _ => false
  end.

(** The state agrees with the phase of the promise [p]: a waiting request
    is once in the array of its key and nowhere else, a running one belongs
    to exactly one suspended activation, and a promise that is fresh or
    settled belongs to no request that the module still holds. *)
Definition placed (p : nat) (st : State) : Prop :=
  match lifecycle p (trace st) with
  | None => False
  | Some ph =>
      (∀ k, filter (λ r, promise r = p) (pending k st)
            = match ph with
              | Waiting k' r => if decide (k' = k) then [r] else []
              | _ => []
              end)
      ∧ filter (λ f : string * QueuedRequest, promise f.2 = p) (awaiting st)
        = match ph with
          | Running k r => [(k, r)]
          | _ => []
          end
      ∧ match ph with
        | Fresh => (nextPromise st ≤ p)%nat
        | Waiting _ r | Running _ r => promise r = p ∧ (p < nextPromise st)%nat
        | Settled => (p < nextPromise st)%nat
        end
  end.

End RequestQueueViews.

(* ===================================================================== *)
(** * BoundedMap: sequences of operations *)
(* ===================================================================== *)

Module BoundedMapOps.
Import BoundedMap.

Section ops.
Context {K V : Type} `{EqDecision K}.

(** The operation sets a key. *)
Definition is_set (o : Op K V) : bool :=
  match o with
  | OpSet _ _ => true
  | _ => false
  end.

(** The number of [set] operations of a sequence. *)
Definition sets (ops : list (Op K V)) : nat :=
  length (filter (λ o, is_set o = true) ops).

(** The operation is on another key than [key] (and is not [clear]). *)
Definition spares (key : K) (o : Op K V) : bool :=
  match o with
  | OpSet k _ | OpDelete k | OpGet k => bool_decide (k ≠ key)
  | OpClear => false
  end.

(** The key that [set key] evicts from [b], if any: the first key of a map
    that is full and does not hold [key]. *)
Definition evicted (key : K) (b : BoundedMap K V) : option K :=
  if has key b then None
  else if bool_decide (size b >= maxSize b) then js_first_key (map b)
  else None.

(** [key] is in the map with at most [n] keys behind it, in a map whose
    keys are pairwise distinct and that is within its capacity. *)
Definition holds_behind (key : K) (n : nat) (b : BoundedMap K V) : Prop :=
  NoDup (keys b)
  ∧ size b ≤ maxSize b
  ∧ ∃ l1 l2, keys b = l1 ++ key :: l2 ∧ (length l2 ≤ n)%nat.

End ops.

End BoundedMapOps.

(* ===================================================================== *)
(** * Image type detection from magic bytes *)
(* ===================================================================== *)

Module ImageType.

(** An entry of [IMAGE_SIGNATURES]. *)
Record Signature : Type := mkSignature {
  bytes : list Z;
  extension : string;
  mimeType : string
}.

Definition IMAGE_SIGNATURES : list Signature :=
  [ mkSignature [0xFF; 0xD8; 0xFF] ".jpg" "image/jpeg";
    mkSignature [0x89; 0x50; 0x4E; 0x47; 0x0D; 0x0A; 0x1A; 0x0A] ".png" "image/png";
    mkSignature [0x47; 0x49; 0x46; 0x38; 0x37; 0x61] ".gif" "image/gif";
    mkSignature [0x47; 0x49; 0x46; 0x38; 0x39; 0x61] ".gif" "image/gif";
    mkSignature [0x52; 0x49; 0x46; 0x46] ".webp" "image/webp";
    mkSignature [0x42; 0x4D] ".bmp" "image/bmp";
    mkSignature [0x49; 0x49; 0x2A; 0x00] ".tiff" "image/tiff";
    mkSignature [0x4D; 0x4D; 0x00; 0x2A] ".tiff" "image/tiff";
    mkSignature [0x00; 0x00; 0x00] ".heic" "image/heic" ].

(** [FileTypeResult] *)
Record FileTypeResult : Type := mkFileType {
  result_extension : string;
  result_mimeType : string
}.

#[global] Instance FileTypeResult_eq_dec : EqDecision FileTypeResult.
Proof. solve_decision. Defined.

(** A [Buffer] is the list of its bytes; [buffer[i]] is [buffer !! i], which
    is [None] ([undefined]) past the end. *)
Definition matchesSignature (buffer signature : list Z) : bool :=
  if bool_decide (length buffer < length signature)%nat then false
  else forallb (λ i, bool_decide (buffer !! i = signature !! i))
         (seq 0 (length signature)).

Definition isWebP (buffer : list Z) : bool :=
  if bool_decide (length buffer < 12)%nat then false
  else if negb (matchesSignature buffer [0x52; 0x49; 0x46; 0x46]) then false
  else bool_decide (buffer !! 8%nat = Some 0x57)
       && bool_decide (buffer !! 9%nat = Some 0x45)
       && bool_decide (buffer !! 10%nat = Some 0x42)
       && bool_decide (buffer !! 11%nat = Some 0x50).

(** The loop of [detectImageType] over the signatures. *)
Fixpoint first_signature (buffer : list Z) (sigs : list Signature)
    : option FileTypeResult :=
  match sigs with
  | [] => None
  | sig :: sigs =>
      if bool_decide (extension sig = ".webp") then first_signature buffer sigs
      else if matchesSignature buffer (bytes sig)
           then Some (mkFileType (extension sig) (mimeType sig))
           else first_signature buffer sigs
  end.

Definition detectImageType (buffer : list Z) : option FileTypeResult :=
  if isWebP buffer then Some (mkFileType ".webp" "image/webp")
  else first_signature buffer IMAGE_SIGNATURES.

(** [Buffer.alloc(16)] followed by [fs.readSync(fd, buffer, 0, 16, 0)] on a
    file with the given content: the number of bytes read and the buffer,
    which keeps its zeros past the bytes read. *)
Definition read16 (content : list Z) : nat * list Z :=
  (min 16 (length content), take 16 content ++ replicate (16 - length content) 0).

(** The file is given by its content, [None] when opening or reading it
    throws. *)
Definition isValidImageFile (file : option (list Z)) : bool :=
  match file with
  | None => false
  | Some content =>
      let '(bytesRead, buffer) := read16 content in
      if bool_decide (bytesRead < 2)%nat then false
      else bool_decide (detectImageType buffer ≠ None)
  end.

Definition getFileType (file : option (list Z)) : option FileTypeResult :=
  match file with
  | None => None
  | Some content =>
      let '(bytesRead, buffer) := read16 content in
      if bool_decide (bytesRead < 2)%nat then None
      else detectImageType buffer
  end.

(** The signatures that the loop of [detectImageType] tries. *)
Definition tried (sig : Signature) : Prop := extension sig ≠ ".webp".

End ImageType.

(* ===================================================================== *)
(** * Session history *)
(* ===================================================================== *)

Module SessionHistory.

(** [SessionHistoryEntry].  Times are ISO strings read from the clock. *)
Record SessionHistoryEntry : Type := mkEntry {
  conversationId : string;
  claudeSessionId : option string;
  projectPath : string;
  projectName : string;
  lastMessagePreview : string;
  createdAt : string;
  lastActivity : string
}.

#[global] Instance SessionHistoryEntry_eq_dec : EqDecision SessionHistoryEntry.
Proof. solve_decision. Defined.

Definition MAX_HISTORY_PER_CHAT : nat := 20.

(** [s.substring(0, n)] *)
Definition substring0 (n : nat) (s : string) : string := String.substring 0 n s.

(** [array.slice(0, end)] for an integer [end]: a negative end counts from
    the end of the array. *)
Definition slice0 {A} (l : list A) (stop : Z) : list A :=
  let len := Z.of_nat (length l) in
  take (Z.to_nat (if bool_decide (stop < 0) then Z.max (len + stop) 0
                  else Z.min stop len)) l.

Section history.
(** [path.basename] *)
Variable basename : string → string.

(** [this.data.sessions]: the histories by session key, each with its most
    recently added conversation first.  [save] writes the data to a file and
    swallows what the write throws; it changes nothing in memory and is left
    out.  The keys are session keys. *)
Abbreviation Sessions := (gmap string (list SessionHistoryEntry)).

(** [history.findIndex((entry) => entry.conversationId === conversationId)],
    with the entry found. *)
Definition findConversation (conversation : string)
    (history : list SessionHistoryEntry) : option (nat * SessionHistoryEntry) :=
  list_find (λ entry, conversationId entry = conversation) history.

(** The two readings of the clock are [createdNow] (made only for a new
    conversation) and [activityNow]. *)
Definition saveSession (sessionKey conversation path preview : string)
    (claudeSession : option string) (createdNow activityNow : string)
    (sessions : Sessions) : Sessions :=
  let history := default [] (sessions !! sessionKey) in
  let existing := findConversation conversation history in
  let entry :=
    {| conversationId := conversation;
       claudeSessionId :=
         match claudeSession with
         | Some id => Some id
         | None => existing ≫= (λ found, claudeSessionId found.2)
         end;
       projectPath := path;
       projectName := basename path;
       lastMessagePreview := substring0 100 preview;
       createdAt :=
         match existing with
         | Some (_, old) => createdAt old
         | None => createdNow
         end;
       lastActivity := activityNow |} in
  let history :=
    match existing with
    | Some (existingIndex, _) => <[existingIndex := entry]> history
    | None => entry :: history
    end in
  let history :=
    if bool_decide (MAX_HISTORY_PER_CHAT < length history)%nat
    then take MAX_HISTORY_PER_CHAT history
    else history in
  <[sessionKey := history]> sessions.

Definition getHistory (sessionKey : string) (limit : Z) (sessions : Sessions)
    : list SessionHistoryEntry :=
  slice0 (default [] (sessions !! sessionKey)) limit.

Definition getLastSession (sessionKey : string) (sessions : Sessions)
    : option SessionHistoryEntry :=
  sessions !! sessionKey ≫= head.

Definition getSessionByConversationId (sessionKey conversation : string)
    (sessions : Sessions) : option SessionHistoryEntry :=
  snd <$> findConversation conversation (default [] (sessions !! sessionKey)).

Definition getAllActiveSessions (sessions : Sessions)
    : gmap string SessionHistoryEntry :=
  omap head sessions.

(** The two updates change the first entry of the conversation in place. *)
Definition updateEntry (f : SessionHistoryEntry → SessionHistoryEntry)
    (sessionKey conversation : string) (sessions : Sessions) : Sessions :=
  match sessions !! sessionKey with
  | None => sessions
  | Some history =>
      match findConversation conversation history with
      | Some (i, entry) => <[sessionKey := <[i := f entry]> history]> sessions
      | None => sessions
      end
  end.

Definition updateLastMessage (sessionKey conversation preview now : string)
    (sessions : Sessions) : Sessions :=
  updateEntry
    (λ e, mkEntry (conversationId e) (claudeSessionId e) (projectPath e)
            (projectName e) (substring0 100 preview) (createdAt e) now)
    sessionKey conversation sessions.

Definition updateClaudeSessionId (sessionKey conversation claudeSession now : string)
    (sessions : Sessions) : Sessions :=
  updateEntry
    (λ e, mkEntry (conversationId e) (Some claudeSession) (projectPath e)
            (projectName e) (lastMessagePreview e) (createdAt e) now)
    sessionKey conversation sessions.

Definition clearHistory (sessionKey : string) (sessions : Sessions) : Sessions :=
  base.delete sessionKey sessions.

(** The calls that change the history. *)
Inductive Call : Type :=
| SaveSession (sessionKey conversation path preview : string)
    (claudeSession : option string) (createdNow activityNow : string)
| UpdateLastMessage (sessionKey conversation preview now : string)
| UpdateClaudeSessionId (sessionKey conversation claudeSession now : string)
| ClearHistory (sessionKey : string).

Definition step (sessions : Sessions) (c : Call) : Sessions :=
  match c with
  | SaveSession k conv path preview cs t1 t2 =>
      saveSession k conv path preview cs t1 t2 sessions
  | UpdateLastMessage k conv preview now =>
      updateLastMessage k conv preview now sessions
  | UpdateClaudeSessionId k conv cs now =>
      updateClaudeSessionId k conv cs now sessions
  | ClearHistory k => clearHistory k sessions
  end.

(** The history after the calls, starting with no file to load. *)
Definition run (calls : list Call) : Sessions := foldl step ∅ calls.

(** The conversations of a key, most recently added first. *)
Definition conversations (sessionKey : string) (sessions : Sessions) : list string :=
  conversationId <$> default [] (sessions !! sessionKey).

(** Every history is within the limit and lists each conversation once. *)
Definition tidy (sessions : Sessions) : Prop :=
  ∀ k, (length (conversations k sessions) ≤ MAX_HISTORY_PER_CHAT)%nat
       ∧ NoDup (conversations k sessions).

End history.

End SessionHistory.

(* ===================================================================== *)
(** * User preferences and the provider router *)
(* ===================================================================== *)

Module UserPreferences.

(** [ProviderName] *)
Inductive ProviderName : Type := claude | opencode.

#[global] Instance ProviderName_eq_dec : EqDecision ProviderName.
Proof. solve_decision. Defined.

(** [UserPreferences]: two optional fields and the time of the last change. *)
Record Preferences : Type := mkPreferences {
  provider : option ProviderName;
  model : option string;
  lastUpdated : string
}.

(** [this.data], by chat id.  [save] writes the data to a file and swallows
    what the write throws; it changes nothing in memory and is left out.
    [now] is the reading of the clock. *)
Abbreviation Data := (gmap Z Preferences).

Definition getProvider (chatId : Z) (data : Data) : option ProviderName :=
  data !! chatId ≫= provider.

Definition getModel (chatId : Z) (data : Data) : option string :=
  data !! chatId ≫= model.

(** [if (!this.data[chatId]) this.data[chatId] = { lastUpdated: ... }] *)
Definition ensure (chatId : Z) (now : string) (data : Data) : Preferences :=
  default (mkPreferences None None now) (data !! chatId).

Definition setProvider (chatId : Z) (name : ProviderName) (now : string)
    (data : Data) : Data :=
  let prefs := ensure chatId now data in
  <[chatId := mkPreferences (Some name) (model prefs) now]> data.

Definition setModel (chatId : Z) (m : string) (now : string) (data : Data) : Data :=
  let prefs := ensure chatId now data in
  <[chatId := mkPreferences (provider prefs) (Some m) now]> data.

Definition clearModel (chatId : Z) (now : string) (data : Data) : Data :=
  match data !! chatId with
  | Some prefs => <[chatId := mkPreferences (provider prefs) None now]> data
  | None => data
  end.

Definition clearPreferences (chatId : Z) (data : Data) : Data :=
  base.delete chatId data.

End UserPreferences.

Module ProviderRouter.
Import UserPreferences.

(** The state of the router: the per-chat cache [chatProviders], whether
    the OpenCode module has been loaded ([opencodeProvider] is defined), and
    the persisted preferences.  [enabled] is [config.OPENCODE_ENABLED]. *)
Record Router : Type := mkRouter {
  chatProviders : gmap Z ProviderName;
  opencodeLoaded : bool;
  preferences : gmap Z Preferences
}.

(** [getActiveProviderName] fills the cache from the preferences. *)
Definition getActiveProviderName (enabled : bool) (chatId : Z) (r : Router)
    : ProviderName * Router :=
  if negb enabled then (claude, r)
  else
    match chatProviders r !! chatId with
    | Some cached => (cached, r)
    | None =>
        match getProvider chatId (preferences r) with
        | Some persisted =>
            (persisted,
             mkRouter (<[chatId := persisted]> (chatProviders r))
               (opencodeLoaded r) (preferences r))
        | None => (claude, r)
        end
    end.

(** [setActiveProvider]; [imported] tells whether loading the OpenCode
    module, if it has to be loaded, succeeds.  [None] is a rejection. *)
Definition setActiveProvider (imported : bool) (chatId : Z) (name : ProviderName)
    (now : string) (r : Router) : option Router :=
  let loaded :=
    match name with
    | opencode => if opencodeLoaded r then Some true
                  else if imported then Some true else None
    | claude => Some (opencodeLoaded r)
    end in
  match loaded with
  | None => None
  | Some loaded =>
      Some (mkRouter (<[chatId := name]> (chatProviders r)) loaded
              (setProvider chatId name now (preferences r)))
  end.

(** [getProvider]: the provider that serves the chat. *)
Definition getProvider (enabled : bool) (chatId : Z) (r : Router)
    : ProviderName * Router :=
  let '(name, r) := getActiveProviderName enabled chatId r in
  match name with
  | opencode => if opencodeLoaded r then (opencode, r) else (claude, r)
  | claude => (claude, r)
  end.

(** [getAvailableProviders] *)
Definition getAvailableProviders (enabled : bool) : list ProviderName :=
  if negb enabled then [claude] else [claude; opencode].

End ProviderRouter.

(* ===================================================================== *)
(** * JavaScript string methods *)
(* ===================================================================== *)

Module JsString.
Import Stdlib.Strings.Ascii.

(** [s.indexOf(c)] for a one-character [c]; [None] is [-1]. *)
Fixpoint indexOf (c : ascii) (s : string) : option nat :=
  match s with
  | EmptyString => None
  | String a s' => if decide (a = c) then Some 0%nat else S <$> indexOf c s'
  end.

(** [s.slice(from, to)] and [s.slice(from)] for indices within the string. *)
Definition slice (s : string) (from : nat) (to : option nat) : string :=
  match to with
  | Some to => String.substring from (to - from) s
  | None => String.substring from (String.length s - from) s
  end.

(** [s.startsWith(prefix)] *)
Definition startsWith (prefix s : string) : bool := String.prefix prefix s.

(** [s.includes(sub)] *)
Fixpoint includes (sub s : string) : bool :=
  match s with
  | EmptyString => String.prefix sub EmptyString
  | String a s' => String.prefix sub s || includes sub s'
  end.

(** The white space and line terminators that [trim] removes, among the
    code units below 256: tab, line feed, vertical tab, form feed, carriage
    return, space and no-break space. *)
Definition isWhiteSpace (a : ascii) : bool :=
  bool_decide (N_of_ascii a ∈ [9; 10; 11; 12; 13; 32; 160]%N).

Fixpoint trimStart (s : string) : string :=
  match s with
  | EmptyString => EmptyString
  | String a s' => if isWhiteSpace a then trimStart s' else s
  end.

Fixpoint trimEnd (s : string) : string :=
  match s with
  | EmptyString => EmptyString
  | String a s' =>
      match trimEnd s' with
      | EmptyString => if isWhiteSpace a then EmptyString else String a EmptyString
      | rest => String a rest
      end
  end.

Definition trim (s : string) : string := trimEnd (trimStart s).

(** [s.split(/\r?\n/)[0]]: the part before the first line feed, without
    the carriage return that may precede it. *)
Fixpoint first_line (s : string) : string :=
  match s with
  | EmptyString => EmptyString
  | String a s' =>
      if bool_decide (a = "010"%char) then EmptyString
      else if bool_decide (a = "013"%char)
              && match s' with
                 | String b _ => bool_decide (b = "010"%char)
                 | EmptyString => false
                 end
      then EmptyString
      else String a (first_line s')
  end.

(** A string in which the character does not occur. *)
Definition free_of (c : ascii) (s : string) : Prop := indexOf c s = None.

(** [s.lastIndexOf(sub)]; [None] is [-1]. *)
Fixpoint lastIndexOf (sub s : string) : option nat :=
  match s with
  | EmptyString => if String.prefix sub EmptyString then Some 0%nat else None
  | String a s' =>
      match lastIndexOf sub s' with
      | Some i => Some (S i)
      | None => if String.prefix sub s then Some 0%nat else None
      end
  end.

(** [s.split(c)] for a one-character [c]. *)
Fixpoint split (c : ascii) (s : string) : list string :=
  match s with
  | EmptyString => [EmptyString]
  | String a s' =>
      if bool_decide (a = c) then EmptyString :: split c s'
      else
        match split c s' with
        | line :: lines => String a line :: lines
        | [] => [String a EmptyString]
        end
  end.

End JsString.

(* ===================================================================== *)
(** * Session keys *)
(* ===================================================================== *)

Module SessionKey.
Import Stdlib.Strings.Ascii JsString.

(** Chat and thread identifiers are integers; [String(n)] and the template
    literal give the decimal numeral of an integer below [10^21] in
    magnitude, which is stdpp's [pretty]. *)

Definition buildSessionKey (chatId : Z) (threadId : option Z) : string :=
  match threadId with
  | Some threadId => pretty chatId +:+ ":" +:+ pretty threadId
  | None => pretty chatId
  end.

Record SessionKeyInfo : Type := mkInfo {
  chatId : Z;
  threadId : option Z;
  sessionKey : string
}.

(** The part of the grammY context that is read. *)
Record Message : Type := mkMessage {
  is_topic_message : option bool;
  message_thread_id : option Z
}.

Record Ctx : Type := mkCtx {
  chat : option Z;
  message : option Message;
  callbackQuery : option (option Message)
}.

(** [ctx.message ?? ctx.callbackQuery?.message] *)
Definition ctx_message (ctx : Ctx) : option Message :=
  match message ctx with
  | Some m => Some m
  | None => mjoin (callbackQuery ctx)
  end.

Definition getSessionKeyFromCtx (ctx : Ctx) : option SessionKeyInfo :=
  match chat ctx with
  | None => None
  | Some id =>
      if bool_decide (id = 0) then None
      else
        let threadId :=
          match ctx_message ctx with
          | Some m =>
              match is_topic_message m with
              | Some true => message_thread_id m
              | _ => None
              end
          | None => None
          end in
        Some (mkInfo id threadId (buildSessionKey id threadId))
  end.

Section parse.
(** [Number], the conversion of a string to a number, on numbers of any
    representation. *)
Context {number : Type}.
Variable Number : string → number.

Definition parseSessionKey (key : string) : number * option number :=
  match indexOf ":"%char key with
  | None => (Number key, None)
  | Some colonIdx =>
      (Number (slice key 0 (Some colonIdx)),
       Some (Number (slice key (colonIdx + 1) None)))
  end.

End parse.

End SessionKey.

(* ===================================================================== *)
(** * Session manager *)
(* ===================================================================== *)

Module SessionManager.
Import Stdlib.Strings.Ascii JsString.

(** What a call reads of its environment: [fs.existsSync] and
    [os.homedir()]. *)
Record Env : Type := mkEnv {
  existsSync : string → bool;
  homedir : string
}.

Definition homePrefixes : list string := ["/Users/"; "/home/"].

(** The path remapped for a prefix that the stored path starts with. *)
Definition remapped (home prefix storedPath : string) : string :=
  let rest := slice storedPath (String.length prefix) None in
  match indexOf "/" rest with
  | None => home
  | Some slashIdx => home +:+ slice rest slashIdx None
  end.

(** The loop over the prefixes, with the fall-back to the home directory
    after it. *)
Fixpoint try_prefixes (env : Env) (prefixes : list string) (storedPath : string)
    : string :=
  match prefixes with
  | [] => homedir env
  | prefix :: prefixes =>
      if startsWith prefix storedPath
         && existsSync env (remapped (homedir env) prefix storedPath)
      then remapped (homedir env) prefix storedPath
      else try_prefixes env prefixes storedPath
  end.

Definition resolveWorkingDirectory (env : Env) (storedPath : string) : string :=
  if existsSync env storedPath then storedPath
  else try_prefixes env homePrefixes storedPath.

(** [Session]; a date is represented by its ISO string. *)
Record Session : Type := mkSession {
  conversationId : string;
  claudeSessionId : option string;
  workingDirectory : string;
  createdAt : string;
  lastActivity : string
}.

(** The manager's map of sessions together with the session history it
    writes to. *)
Record Manager : Type := mkManager {
  sessions : gmap string Session;
  history : gmap string (list SessionHistory.SessionHistoryEntry)
}.

Definition init : Manager := mkManager ∅ ∅.

Section manager.
(** [path.basename], used by the history. *)
Variable basename : string → string.

Definition getSession (sessionKey : string) (m : Manager) : option Session :=
  sessions m !! sessionKey.

(** [sessionHistory.saveSession] called when [n] readings of the clock have
    been made, [clock n] being the next one: it reads the clock for the
    creation time only if the conversation is not yet in the history of the
    key, and then for the last activity. *)
Definition saveSession_from (n : nat) (clock : nat → string)
    (sessionKey conversation path preview : string)
    (claudeSession : option string)
    (h : gmap string (list SessionHistory.SessionHistoryEntry))
    : gmap string (list SessionHistory.SessionHistoryEntry) :=
  let known :=
    bool_decide
      (is_Some (SessionHistory.getSessionByConversationId sessionKey conversation h)) in
  SessionHistory.saveSession basename sessionKey conversation path preview
    claudeSession (clock n) (clock (if known then n else S n)) h.

(** [generated] is the result of [generateConversationId] and [clock n]
    the reading of the clock that follows [n] earlier ones during the
    call. *)
Definition createSession (env : Env) (sessionKey directory : string)
    (conversation : option string) (generated : string) (clock : nat → string)
    (m : Manager) : Session * Manager :=
  let resolved := resolveWorkingDirectory env directory in
  let conversation :=
    match conversation with
    | Some given => if bool_decide (given = "") then generated else given
    | None => generated
    end in
  let session := mkSession conversation None resolved (clock 0%nat) (clock 1%nat) in
  (session,
   mkManager (<[sessionKey := session]> (sessions m))
     (saveSession_from 2 clock sessionKey conversation resolved "" None
        (history m))).

Definition updateActivity (sessionKey : string) (messagePreview : option string)
    (clock : nat → string) (m : Manager) : Manager :=
  match sessions m !! sessionKey with
  | Some session =>
      let session' :=
        mkSession (conversationId session) (claudeSessionId session)
          (workingDirectory session) (createdAt session) (clock 0%nat) in
      mkManager (<[sessionKey := session']> (sessions m))
        (match messagePreview with
         | Some preview =>
             if bool_decide (preview = "") then history m
             else SessionHistory.updateLastMessage sessionKey
                    (conversationId session) preview (clock 1%nat) (history m)
         | None => history m
         end)
  | None => m
  end.

Definition setWorkingDirectory (env : Env) (sessionKey directory : string)
    (generated : string) (clock : nat → string) (m : Manager)
    : Session * Manager :=
  match sessions m !! sessionKey with
  | Some existing =>
      let existing' :=
        mkSession (conversationId existing) (claudeSessionId existing)
          directory (createdAt existing) (clock 0%nat) in
      (existing',
       mkManager (<[sessionKey := existing']> (sessions m))
         (saveSession_from 1 clock sessionKey (conversationId existing)
            directory "" (claudeSessionId existing) (history m)))
  | None => createSession env sessionKey directory None generated clock m
  end.

Definition clearSession (sessionKey : string) (m : Manager) : Manager :=
  mkManager (base.delete sessionKey (sessions m)) (history m).

Definition resumeSession (env : Env) (sessionKey conversation : string)
    (clock : nat → string) (m : Manager) : option Session * Manager :=
  match SessionHistory.getSessionByConversationId sessionKey conversation
          (history m) with
  | None => (None, m)
  | Some historyEntry =>
      let resolvedPath :=
        resolveWorkingDirectory env (SessionHistory.projectPath historyEntry) in
      let session :=
        mkSession (SessionHistory.conversationId historyEntry)
          (SessionHistory.claudeSessionId historyEntry) resolvedPath
          (SessionHistory.createdAt historyEntry) (clock 0%nat) in
      (Some session,
       mkManager (<[sessionKey := session]> (sessions m))
         (saveSession_from 1 clock sessionKey conversation resolvedPath
            (SessionHistory.lastMessagePreview historyEntry)
            (SessionHistory.claudeSessionId historyEntry) (history m)))
  end.

Definition resumeLastSession (env : Env) (sessionKey : string)
    (clock : nat → string) (m : Manager) : option Session * Manager :=
  match SessionHistory.getLastSession sessionKey (history m) with
  | None => (None, m)
  | Some lastEntry =>
      resumeSession env sessionKey (SessionHistory.conversationId lastEntry)
        clock m
  end.

(** [limit] defaults to 5. *)
Definition getSessionHistory (sessionKey : string) (limit : option Z)
    (m : Manager) : list SessionHistory.SessionHistoryEntry :=
  SessionHistory.getHistory sessionKey (default 5 limit) (history m).

Definition setClaudeSessionId (sessionKey claudeSession : string)
    (clock : nat → string) (m : Manager) : Manager :=
  match sessions m !! sessionKey with
  | None => m
  | Some session =>
      let session' :=
        mkSession (conversationId session) (Some claudeSession)
          (workingDirectory session) (createdAt session) (clock 0%nat) in
      mkManager (<[sessionKey := session']> (sessions m))
        (SessionHistory.updateClaudeSessionId sessionKey
           (conversationId session) claudeSession (clock 1%nat) (history m))
  end.

(** The calls that change the manager. *)
Inductive Call : Type :=
| CreateSession (env : Env) (sessionKey directory : string)
    (conversation : option string) (generated : string) (clock : nat → string)
| UpdateActivity (sessionKey : string) (messagePreview : option string)
    (clock : nat → string)
| SetWorkingDirectory (env : Env) (sessionKey directory generated : string)
    (clock : nat → string)
| ClearSession (sessionKey : string)
| ResumeSession (env : Env) (sessionKey conversation : string)
    (clock : nat → string)
| ResumeLastSession (env : Env) (sessionKey : string) (clock : nat → string)
| SetClaudeSessionId (sessionKey claudeSession : string) (clock : nat → string).

Definition step (m : Manager) (c : Call) : Manager :=
  match c with
  | CreateSession env k dir conv generated clock =>
      (createSession env k dir conv generated clock m).2
  | UpdateActivity k preview clock => updateActivity k preview clock m
  | SetWorkingDirectory env k dir generated clock =>
      (setWorkingDirectory env k dir generated clock m).2
  | ClearSession k => clearSession k m
  | ResumeSession env k conv clock => (resumeSession env k conv clock m).2
  | ResumeLastSession env k clock => (resumeLastSession env k clock m).2
  | SetClaudeSessionId k id clock => setClaudeSessionId k id clock m
  end.

(** The manager after the calls, starting with no session and an empty
    history that only the manager writes to. *)
Definition run (calls : list Call) : Manager := foldl step init calls.

(** Every session is recorded: the history of its key has an entry for its
    conversation, with its working directory and, if it has one, its Claude
    session id. *)
Definition recorded (m : Manager) : Prop :=
  ∀ key session, sessions m !! key = Some session →
    ∃ entry,
      SessionHistory.getSessionByConversationId key (conversationId session)
        (history m) = Some entry
      ∧ SessionHistory.projectPath entry = workingDirectory session
      ∧ (claudeSessionId session = None
         ∨ SessionHistory.claudeSessionId entry = claudeSessionId session).

(** What the calls of the manager keep: every session is recorded, and
    every history is within the limit and lists each conversation once. *)
Definition consistent (m : Manager) : Prop :=
  recorded m ∧ SessionHistory.tidy (history m).

End manager.

End SessionManager.

(* ===================================================================== *)
(** * Resolving a binary *)
(* ===================================================================== *)

Module ResolveBin.
Import Stdlib.Strings.Ascii JsString.

(** [process.platform], as far as it is distinguished. *)
Inductive Platform : Type := darwin | win32 | other.

#[global] Instance Platform_eq_dec : EqDecision Platform.
Proof. solve_decision. Defined.

(** What [fs.statSync] tells of a file. *)
Record Stats : Type := mkStats {
  isFile : bool;
  mode : Z
}.

(** The environment of a call; [None] is a call that throws.
    [execFileSync cmd name] is the output of the lookup command. *)
Record Env : Type := mkEnv {
  platform : Platform;
  realpathSync : string → option string;
  statSync : string → option Stats;
  execFileSync : string → string → option string;
  join : string → string → string;
  homedir : string
}.

Section resolve.
Variable env : Env.

Definition isWin : bool := bool_decide (platform env = win32).

Definition isValidExecutable (filePath : string) : bool :=
  match realpathSync env filePath with
  | None => false
  | Some resolved =>
      match statSync env resolved with
      | None => false
      | Some stats =>
          if negb (isFile stats) then false
          else if negb isWin && bool_decide (Z.land (mode stats) 73 = 0) then false
          else true
      end
  end.

(** [getSearchDirs] of [src/utils/resolve-bin.ts]. *)
Definition getSearchDirs : list string :=
  match platform env with
  | darwin =>
      ["/opt/homebrew/bin"; "/usr/local/bin"; "/usr/bin";
       join env (join env (homedir env) ".local") "bin"]
  | _ =>
      [join env (join env (homedir env) ".local") "bin";
       "/usr/local/bin"; "/usr/bin"; "/snap/bin"]
  end.

(** The outcome of a call: the path returned ([None] when the call throws),
    the cache afterwards, and whether the lookup command was run. *)
Record Outcome : Type := mkOutcome {
  returned : option string;
  cache_after : gmap string string;
  spawned : bool
}.

Definition rejected (name : string) : bool :=
  includes "/" name || includes "\" name || includes ".." name.

(** The loop over the search directories. *)
Fixpoint search (dirs : list string) (name : string) : option string :=
  match dirs with
  | [] => None
  | dir :: dirs =>
      let fullPath := join env dir name in
      if isValidExecutable fullPath then Some fullPath else search dirs name
  end.

(** The lookup with the platform's command: the first line of its output,
    if that is a valid executable. *)
Definition lookup (name : string) : option string :=
  let cmd := if isWin then "where" else "which" in
  match execFileSync env cmd name with
  | Some result =>
      let resolved := first_line (trim result) in
      if negb (bool_decide (resolved = "")) && isValidExecutable resolved
      then Some resolved else None
  | None => None
  end.

(** [resolveBin] from the lookup on, for the search directories
    [SEARCH_DIRS]. *)
Definition resolve_uncached (SEARCH_DIRS : list string) (name : string)
    (cache : gmap string string) : Outcome :=
  match lookup name with
  | Some resolved => mkOutcome (Some resolved) (<[name := resolved]> cache) true
  | None =>
      match search SEARCH_DIRS name with
      | Some fullPath => mkOutcome (Some fullPath) (<[name := fullPath]> cache) true
      | None => mkOutcome (Some name) cache true
      end
  end.

Definition resolveBin (SEARCH_DIRS : list string) (name : string)
    (cache : gmap string string) : Outcome :=
  if rejected name then mkOutcome None cache false
  else
    match cache !! name with
    | Some cached =>
        if bool_decide (cached = "") then resolve_uncached SEARCH_DIRS name cache
        else if isValidExecutable cached then mkOutcome (Some cached) cache false
        else resolve_uncached SEARCH_DIRS name (base.delete name cache)
    | None => resolve_uncached SEARCH_DIRS name cache
    end.

(** What a valid executable is: a path that resolves to a regular file
    which, except on Windows, has an execute bit. *)
Definition executable (p : string) : Prop :=
  ∃ target stats,
    realpathSync env p = Some target ∧ statSync env target = Some stats
    ∧ isFile stats = true
    ∧ (platform env = win32 ∨ Z.land (mode stats) 73 ≠ 0).

End resolve.

(** An environment with one executable, [/usr/bin/ffmpeg], in which the
    lookup command fails. *)
Definition example_env : Env :=
  mkEnv other (λ p, if bool_decide (p = "/usr/bin/ffmpeg") then Some p else None)
    (λ _, Some (mkStats true 493)) (λ _ _, None)
    (λ dir name, dir +:+ "/" +:+ name) "/home/bob".

End ResolveBin.

(* ===================================================================== *)
(** * The OpenCode provider: port and model *)
(* ===================================================================== *)

Module OpenCode.
Import Stdlib.Strings.Ascii JsString.

(** A JavaScript number: not a number, an infinity, or a finite value, here
    any rational. *)
Inductive number : Type :=
| NaN
| Infinity (negative : bool)
| Finite (q : Qcanon.Qc).

(** The values of type [unknown] that [validatePort] distinguishes. *)
Inductive JsValue : Type :=
| VUndefined
| VNull
| VString (s : string)
| VNumber (n : number)
| VOther.

(** The order of the rationals. *)
Notation "x ≤q y" := (Qcanon.Qcle x y) (at level 70).

Definition isNaN (n : number) : bool :=
  match n with NaN => true | _ => false end.

(** [n < q] and [n > q] for a finite [q]. *)
Definition lt (n : number) (q : Qcanon.Qc) : bool :=
  match n with
  | NaN => false
  | Infinity negative => negative
  | Finite x => bool_decide (Qcanon.Qclt x q)
  end.

Definition gt (n : number) (q : Qcanon.Qc) : bool :=
  match n with
  | NaN => false
  | Infinity negative => negb negative
  | Finite x => bool_decide (Qcanon.Qclt q x)
  end.

(** The value of a decimal digit. *)
Definition digit_of (a : ascii) : option N :=
  let n := N_of_ascii a in
  if bool_decide (48 ≤ n ≤ 57)%N then Some (n - 48)%N else None.

(** The value of the longest prefix of digits, with [acc] the value of the
    digits read so far and [seen] telling whether there is one; [None] when
    there is no digit. *)
Fixpoint digits_value (s : string) (acc : N) (seen : bool) : option N :=
  match s with
  | EmptyString => if seen then Some acc else None
  | String a s' =>
      match digit_of a with
      | Some d => digits_value s' (10 * acc + d)%N true
      | None => if seen then Some acc else None
      end
  end.

(** [parseInt(s, 10)]: leading white space is skipped, a sign is read, and
    the digits that follow give the value; [None] is [NaN].  The value is
    the exact integer, which is the number returned for less than sixteen
    digits. *)
Definition parseInt (s : string) : option Z :=
  match trimStart s with
  | EmptyString => None
  | String a s' =>
      if bool_decide (a = "-"%char)
      then (λ n, - Z.of_N n) <$> digits_value s' 0 false
      else if bool_decide (a = "+"%char)
      then Z.of_N <$> digits_value s' 0 false
      else Z.of_N <$> digits_value (String a s') 0 false
  end.

Definition number_of (parsed : option Z) : number :=
  match parsed with
  | Some z => Finite (Qc_of_Z z)
  | None => NaN
  end.

Definition defaultPort : number := Finite (Qc_of_Z 4096).

Definition validatePort (portValue : JsValue) : number :=
  match portValue with
  | VUndefined | VNull => defaultPort
  | VOther => defaultPort
  | VString _ | VNumber _ =>
      let port :=
        match portValue with
        | VString s => number_of (parseInt s)
        | VNumber n => n
        | _ => NaN
        end in
      if isNaN port || lt port (Qc_of_Z 1) || gt port (Qc_of_Z 65535)
      then defaultPort
      else port
  end.

(** [ModelInfo] *)
Record ModelInfo : Type := mkModelInfo {
  id : string;
  label : string;
  description : option string
}.

(** The state that the choice of a model reads and writes: the in-memory
    cache [chatModels], the persisted preferences and the list
    [cachedModels] of the server's models. *)
Record Models : Type := mkModels {
  chatModels : gmap Z string;
  preferences : gmap Z UserPreferences.Preferences;
  cachedModels : option (list ModelInfo)
}.

(** A value that [!] takes for false: [undefined] or the empty string. *)
Definition falsy (model : option string) : bool :=
  match model with
  | None => true
  | Some s => bool_decide (s = "")
  end.

(** The common start of [getModelSpec] and [getModel]: the model from the
    cache, else from the preferences, which then fills the cache. *)
Definition cached_or_persisted (chatId : Z) (st : Models)
    : option string * Models :=
  let model := chatModels st !! chatId in
  if falsy model then
    let model := UserPreferences.getModel chatId (preferences st) in
    match model with
    | Some persisted =>
        if falsy model then (model, st)
        else (model,
              mkModels (<[chatId := persisted]> (chatModels st))
                (preferences st) (cachedModels st))
    | None => (model, st)
    end
  else (model, st).

(** [{ providerID, modelID }] of a model. *)
Definition split_model (model : string) : string * string :=
  match indexOf "/" model with
  | Some (S slashIdx) =>
      (slice model 0 (Some (S slashIdx)), slice model (S slashIdx + 1) None)
  | _ => ("anthropic", model)
  end.

(** [getModelSpec]; [None] is the error thrown. *)
Definition getModelSpec (chatId : Z) (st : Models)
    : option (string * string) * Models :=
  let '(model, st) := cached_or_persisted chatId st in
  let model :=
    if falsy model then
      match cachedModels st ≫= head with
      | Some first => Some (id first)
      | None => model
      end
    else model in
  match model with
  | Some model =>
      if bool_decide (model = "") then (None, st) else (Some (split_model model), st)
  | None => (None, st)
  end.

Definition setModel (chatId : Z) (model now : string) (st : Models) : Models :=
  mkModels (<[chatId := model]> (chatModels st))
    (UserPreferences.setModel chatId model now (preferences st))
    (cachedModels st).

Definition getModel (chatId : Z) (st : Models) : string * Models :=
  let '(model, st) := cached_or_persisted chatId st in
  let first := id <$> (cachedModels st ≫= head) in
  (match model with
   | Some model =>
       if bool_decide (model = "")
       then (if falsy first then "unknown" else default "unknown" first)
       else model
   | None => if falsy first then "unknown" else default "unknown" first
   end, st).

Definition clearModel (chatId : Z) (now : string) (st : Models) : Models :=
  mkModels (base.delete chatId (chatModels st))
    (UserPreferences.clearModel chatId now (preferences st))
    (cachedModels st).

(** The calls on the model of a chat; [FetchModels] stores the list that
    the server answered with, and [SetProvider] is the router persisting
    the provider of a chat in the same preferences. *)
Inductive Call : Type :=
| SetModel (chatId : Z) (model now : string)
| GetModel (chatId : Z)
| GetModelSpec (chatId : Z)
| ClearModel (chatId : Z) (now : string)
| FetchModels (models : list ModelInfo)
| SetProvider (chatId : Z) (name : UserPreferences.ProviderName) (now : string).

Definition step (st : Models) (c : Call) : Models :=
  match c with
  | SetModel chatId model now => setModel chatId model now st
  | GetModel chatId => (getModel chatId st).2
  | GetModelSpec chatId => (getModelSpec chatId st).2
  | ClearModel chatId now => clearModel chatId now st
  | FetchModels models => mkModels (chatModels st) (preferences st) (Some models)
  | SetProvider chatId name now =>
      mkModels (chatModels st)
        (UserPreferences.setProvider chatId name now (preferences st))
        (cachedModels st)
  end.

(** The state after the calls, from the preferences loaded at start. *)
Definition run (loaded : gmap Z UserPreferences.Preferences) (calls : list Call)
    : Models :=
  foldl step (mkModels ∅ loaded None) calls.

(** The cache holds only what is persisted. *)
Definition coherent (st : Models) : Prop :=
  ∀ chatId model, chatModels st !! chatId = Some model →
    UserPreferences.getModel chatId (preferences st) = Some model.

(** The model configured for a chat: the one last set and not cleared
    since, or the one loaded. *)
Definition chosen (chatId : Z) (acc : option string) (c : Call) : option string :=
  match c with
  | SetModel chatId' model _ => if bool_decide (chatId' = chatId) then Some model else acc
  | ClearModel chatId' _ => if bool_decide (chatId' = chatId) then None else acc
  | _ => acc
  end.

Definition configured (chatId : Z) (loaded : gmap Z UserPreferences.Preferences)
    (calls : list Call) : option string :=
  foldl (chosen chatId) (UserPreferences.getModel chatId loaded) calls.

(** The first model of the server's list, if the list is there. *)
Definition served (st : Models) : option string :=
  id <$> (cachedModels st ≫= head).

(** [model || served || 'unknown'] *)
Definition or_unknown (model first : option string) : string :=
  if falsy model then (if falsy first then "unknown" else default "unknown" first)
  else default "unknown" model.

End OpenCode.

(* ===================================================================== *)
(** * Atomic write and terminal settings *)
(* ===================================================================== *)

Module AtomicWrite.

(** The files, by path, with their content. *)
Abbreviation Files := (gmap string string).

(** What goes wrong in a call: nothing, [writeFileSync] throws and leaves
    [partial] at the temporary path ([None]: no file), or [renameSync]
    throws. *)
Inductive Fault : Type :=
| NoFault
| WriteFails (partial : option string)
| RenameFails.

(** [fs.writeFileSync(path, data)] and [fs.renameSync(from, to)] when they
    succeed, and [fs.unlinkSync(path)], which throws when [unlinkFails] or
    when there is no file; what it throws is ignored. *)
Definition writeFileSync (path data : string) (files : Files) : Files :=
  <[path := data]> files.

Definition renameSync (from to : string) (files : Files) : Files :=
  match files !! from with
  | Some content => base.delete from (<[to := content]> files)
  | None => files
  end.

Definition unlinkSync (unlinkFails : bool) (path : string) (files : Files) : Files :=
  if unlinkFails then files else base.delete path files.

(** [atomicWriteFileSync]: whether the call returns (rather than throws),
    and the files afterwards. *)
Definition atomicWriteFileSync (fault : Fault) (unlinkFails : bool)
    (filePath data : string) (files : Files) : bool * Files :=
  let tmpPath := filePath +:+ ".tmp" in
  match fault with
  | NoFault =>
      (true, renameSync tmpPath filePath (writeFileSync tmpPath data files))
  | WriteFails partial =>
      let files :=
        match partial with
        | Some content => <[tmpPath := content]> files
        | None => base.delete tmpPath files
        end in
      (false, unlinkSync unlinkFails tmpPath files)
  | RenameFails =>
      (false, unlinkSync unlinkFails tmpPath (writeFileSync tmpPath data files))
  end.

End AtomicWrite.

Module TerminalSettings.

Section settings.
(** [config.TERMINAL_UI_DEFAULT] *)
Variable TERMINAL_UI_DEFAULT : bool.

(** [chatTerminalSettings]: the [enabled] field of the settings of each
    session key. *)
Abbreviation Settings := (gmap string bool).

(** [normalizeSettings]: the argument may be missing, and so may its
    field. *)
Definition normalizeSettings (settings : option (option bool)) : bool :=
  match settings with
  | Some (Some enabled) => enabled
  | _ => TERMINAL_UI_DEFAULT
  end.

(** [loadSettings], on the entries of a settings file that was read and
    validated; nothing is loaded otherwise. *)
Definition loadSettings (file : option (list (string * option bool)))
    (st : Settings) : Settings :=
  match file with
  | Some entries =>
      foldl (λ st entry, <[entry.1 := normalizeSettings (Some entry.2)]> st)
        st entries
  | None => st
  end.

Definition getTerminalUISettings (sessionKey : string) (st : Settings)
    : bool * Settings :=
  match st !! sessionKey with
  | Some existing => (existing, st)
  | None =>
      let defaults := normalizeSettings None in
      (defaults, <[sessionKey := defaults]> st)
  end.

(** The settings object returned is the one in the map, so the assignment
    changes the entry of the key. *)
Definition setTerminalUIEnabled (sessionKey : string) (enabled : bool)
    (st : Settings) : Settings :=
  let '(_, st) := getTerminalUISettings sessionKey st in
  <[sessionKey := enabled]> st.

Definition isTerminalUIEnabled (sessionKey : string) (st : Settings)
    : bool * Settings :=
  getTerminalUISettings sessionKey st.

Inductive Call : Type :=
| Get (sessionKey : string)
| SetEnabled (sessionKey : string) (enabled : bool)
| IsEnabled (sessionKey : string).

Definition step (st : Settings) (c : Call) : Settings :=
  match c with
  | Get k => (getTerminalUISettings k st).2
  | SetEnabled k enabled => setTerminalUIEnabled k enabled st
  | IsEnabled k => (isTerminalUIEnabled k st).2
  end.

(** The settings after the calls, from those loaded at start. *)
Definition run (file : option (list (string * option bool))) (calls : list Call)
    : Settings :=
  foldl step (loadSettings file ∅) calls.

(** The value last set for a key by the calls, if any. *)
Definition last_set (sessionKey : string) (calls : list Call) : option bool :=
  foldl (λ acc c,
           match c with
           | SetEnabled k enabled =>
               if bool_decide (k = sessionKey) then Some enabled else acc
           | _ => acc
           end) None calls.

(** The value that the file gives for a key: that of its last entry for
    the key, the default taking the place of a missing field. *)
Definition from_file (sessionKey : string)
    (file : option (list (string * option bool))) : option bool :=
  foldl (λ acc entry,
           if bool_decide (entry.1 = sessionKey)
           then Some (normalizeSettings (Some entry.2)) else acc)
    None (default [] file).

End settings.

End TerminalSettings.

(* ===================================================================== *)
(** * Transcripts *)
(* ===================================================================== *)

Module Transcribe.
Import Stdlib.Strings.Ascii JsString.

Definition marker : string := "Full text:" +:+ String "010" "".

Definition parseTranscript (stdout : string) : string :=
  match lastIndexOf marker stdout with
  | Some idx => trim (slice stdout (idx + String.length marker) None)
  | None =>
      let lines :=
        filter (λ l, trim l ≠ "") (split "010" (trim stdout)) in
      default "" (last lines)
  end.

End Transcribe.

(* ===================================================================== *)
(** * Properties of BoundedMap *)
(* ===================================================================== *)

Module BoundedMapProps.
Import BoundedMap.

Section props.
Context {K V : Type} `{EqDecision K}.
Implicit Types (m : list (K * V)) (b : BoundedMap K V) (key : K) (value : V).

Lemma js_has_true key m : js_has key m = true ↔ key ∈ m.*1.
Proof. unfold js_has. apply bool_decide_eq_true. Qed.

Lemma js_has_false key m : js_has key m = false ↔ key ∉ m.*1.
Proof. unfold js_has. apply bool_decide_eq_false. Qed.

Lemma js_delete_cons_eq key value m :
  js_delete key ((key, value) :: m) = js_delete key m.
Proof. unfold js_delete. rewrite filter_cons_False; [done | simpl; tauto]. Qed.

Lemma js_delete_cons_ne key k value m :
  k ≠ key → js_delete key ((k, value) :: m) = (k, value) :: js_delete key m.
Proof. intros Hne. unfold js_delete. by rewrite filter_cons_True. Qed.

Lemma js_delete_absent key m : key ∉ m.*1 → js_delete key m = m.
Proof.
  induction m as [|[k v] m IH]; intros Hnot; [done |].
  rewrite fmap_cons, not_elem_of_cons in Hnot. destruct Hnot as [Hne Hnot].
  rewrite js_delete_cons_ne by (simpl in Hne; congruence).
  by rewrite IH.
Qed.

Lemma js_delete_elem key other m :
  other ∈ (js_delete key m).*1 ↔ other ≠ key ∧ other ∈ m.*1.
Proof.
  induction m as [|[k v] m IH].
  - simpl. rewrite elem_of_nil. tauto.
  - destruct (decide (k = key)) as [->|Hne].
    + rewrite js_delete_cons_eq, IH, fmap_cons, elem_of_cons. simpl.
      split; [tauto |]. intros [? [?|?]]; [congruence | tauto].
    + rewrite js_delete_cons_ne by done.
      rewrite !fmap_cons, !elem_of_cons, IH. simpl.
      split; [intros [->|?]; tauto | tauto].
Qed.

Lemma js_delete_NoDup key m : NoDup m.*1 → NoDup (js_delete key m).*1.
Proof.
  induction m as [|[k v] m IH]; [done |].
  rewrite fmap_cons, NoDup_cons. simpl. intros [Hk Hm].
  destruct (decide (k = key)) as [->|Hne].
  - rewrite js_delete_cons_eq. auto.
  - rewrite js_delete_cons_ne by done. rewrite fmap_cons, NoDup_cons. simpl.
    split; [| auto]. rewrite js_delete_elem. tauto.
Qed.

Lemma js_delete_length key m :
  NoDup m.*1 → key ∈ m.*1 → S (length (js_delete key m)) = length m.
Proof.
  induction m as [|[k v] m IH].
  - simpl. intros _ Hin. by apply elem_of_nil in Hin.
  - rewrite fmap_cons, NoDup_cons, elem_of_cons. simpl. intros [Hk Hm] Hin.
    destruct (decide (k = key)) as [->|Hne].
    + rewrite js_delete_cons_eq, js_delete_absent by done. done.
    + rewrite js_delete_cons_ne by done. simpl. f_equal. apply IH; [done |].
      destruct Hin as [?|?]; [congruence | done].
Qed.

Lemma js_delete_oldest key value m :
  NoDup ((key, value) :: m).*1 → js_delete key ((key, value) :: m) = m.
Proof.
  rewrite fmap_cons, NoDup_cons. simpl. intros [Hk _].
  rewrite js_delete_cons_eq. by apply js_delete_absent.
Qed.

Lemma js_set_absent key value m :
  key ∉ m.*1 → js_set key value m = m ++ [(key, value)].
Proof.
  intros Hnot. unfold js_set.
  by rewrite (proj2 (js_has_false key m) Hnot).
Qed.

(** What [set] does, case by case. *)
Lemma set_present key value b :
  has key b = true →
  entries (set key value b) = js_delete key (entries b) ++ [(key, value)].
Proof.
  unfold has, entries, set. intros Hhas. simpl. rewrite Hhas.
  apply js_set_absent. rewrite js_delete_elem. tauto.
Qed.

Lemma set_absent_room key value b :
  has key b = false → size b < maxSize b →
  entries (set key value b) = entries b ++ [(key, value)].
Proof.
  unfold has, entries, set. intros Hhas Hlt. simpl. rewrite Hhas.
  rewrite bool_decide_eq_false_2 by lia.
  apply js_set_absent. by apply js_has_false.
Qed.

Lemma set_absent_full key value b oldest rest :
  NoDup (keys b) →
  has key b = false → size b >= maxSize b →
  entries b = oldest :: rest →
  entries (set key value b) = rest ++ [(key, value)].
Proof.
  unfold has, entries, set, keys. intros Hnd Hhas Hge Hm. simpl. rewrite Hhas.
  rewrite bool_decide_eq_true_2 by done.
  rewrite Hm in *. destruct oldest as [k0 v0]. simpl.
  rewrite js_delete_oldest by done.
  apply js_set_absent. apply js_has_false in Hhas.
  rewrite fmap_cons, not_elem_of_cons in Hhas. tauto.
Qed.

Lemma maxSize_set key value b : maxSize (set key value b) = maxSize b.
Proof. done. Qed.

Lemma maxSize_apply b o : maxSize (apply b o) = maxSize b.
Proof. by destruct o. Qed.

Lemma maxSize_run ops b : maxSize (run ops b) = maxSize b.
Proof.
  revert b. induction ops as [|o ops IH]; intros b; [done |].
  unfold run in *. simpl. by rewrite IH, maxSize_apply.
Qed.

(** The keys of a map stay pairwise distinct. *)
Lemma set_NoDup key value b : NoDup (keys b) → NoDup (keys (set key value b)).
Proof.
  intros Hnd. destruct (has key b) eqn:Hhas.
  - unfold keys. change (map (set key value b)) with (entries (set key value b)).
    rewrite set_present by done. rewrite fmap_app, NoDup_app. simpl.
    split; [by apply js_delete_NoDup |]. split; [| apply NoDup_singleton].
    intros k Hk Hk'. apply list_elem_of_singleton in Hk' as ->.
    apply js_delete_elem in Hk. tauto.
  - assert (key ∉ keys b) as Hnot by (by apply js_has_false).
    destruct (decide (size b >= maxSize b)) as [Hge|Hlt].
    + destruct (entries b) as [|oldest rest] eqn:Hm.
      * unfold keys, set. unfold has in Hhas. simpl. rewrite Hhas.
        unfold entries in Hm. rewrite Hm. simpl.
        case_bool_decide; simpl; apply NoDup_singleton.
      * unfold keys in *. change (map (set key value b)) with (entries (set key value b)).
        rewrite (set_absent_full key value b oldest rest) by done.
        unfold entries in Hm. rewrite Hm in Hnd, Hnot.
        rewrite fmap_cons, NoDup_cons in Hnd. rewrite fmap_cons, not_elem_of_cons in Hnot.
        rewrite fmap_app, NoDup_app. simpl.
        split; [tauto |]. split; [| apply NoDup_singleton].
        intros k Hk Hk'. apply list_elem_of_singleton in Hk' as ->. tauto.
    + unfold keys in *. change (map (set key value b)) with (entries (set key value b)).
      rewrite set_absent_room by (done || lia).
      rewrite fmap_app, NoDup_app. simpl.
      split; [done |]. split; [| apply NoDup_singleton].
      intros k Hk Hk'. apply list_elem_of_singleton in Hk' as ->. done.
Qed.

Lemma apply_NoDup b o : NoDup (keys b) → NoDup (keys (apply b o)).
Proof.
  destruct o as [key value|key|key|]; simpl; intros Hnd.
  - by apply set_NoDup.
  - done.
  - by apply js_delete_NoDup.
  - apply NoDup_nil_2.
Qed.

Lemma run_NoDup ops b : NoDup (keys b) → NoDup (keys (run ops b)).
Proof.
  revert b. induction ops as [|o ops IH]; intros b Hnd; [done |].
  unfold run in *. simpl. apply IH. by apply apply_NoDup.
Qed.

Lemma js_delete_length_le key m : (length (js_delete key m) ≤ length m)%nat.
Proof. unfold js_delete. apply length_filter. Qed.

(** The size bound, for a capacity of at least one. *)
Lemma set_size_le key value b :
  1 ≤ maxSize b → NoDup (keys b) → size b ≤ maxSize b →
  size (set key value b) ≤ maxSize b.
Proof.
  intros Hcap Hnd Hle. destruct (has key b) eqn:Hhas.
  - unfold size. change (map (set key value b)) with (entries (set key value b)).
    rewrite set_present by done. rewrite length_app. simpl.
    pose proof (js_delete_length key (entries b) Hnd
                  (proj1 (js_has_true _ _) Hhas)) as Hlen.
    unfold size, entries in *. lia.
  - destruct (decide (size b >= maxSize b)) as [Hge|Hlt].
    + destruct (entries b) as [|oldest rest] eqn:Hm.
      * unfold size, entries in *. rewrite Hm in Hge. simpl in Hge. lia.
      * unfold size. change (map (set key value b)) with (entries (set key value b)).
        rewrite (set_absent_full key value b oldest rest) by done.
        unfold size, entries in *. rewrite Hm in Hle. rewrite length_app.
        simpl in *. lia.
    + unfold size. change (map (set key value b)) with (entries (set key value b)).
      rewrite set_absent_room by (done || lia).
      unfold size, entries in *. rewrite length_app. simpl. lia.
Qed.

Lemma apply_size_le b o :
  1 ≤ maxSize b → NoDup (keys b) → size b ≤ maxSize b →
  size (apply b o) ≤ maxSize b.
Proof.
  intros Hcap Hnd Hle. destruct o as [key value|key|key|]; simpl.
  - by apply set_size_le.
  - done.
  - unfold size in *. simpl. pose proof (js_delete_length_le key (map b)). lia.
  - unfold size. simpl. lia.
Qed.

Lemma run_size_le ops b :
  1 ≤ maxSize b → NoDup (keys b) → size b ≤ maxSize b →
  size (run ops b) ≤ maxSize b.
Proof.
  revert b. induction ops as [|o ops IH]; intros b Hcap Hnd Hle; [done |].
  unfold run in *. simpl.
  rewrite <- (maxSize_apply b o). apply IH.
  - by rewrite maxSize_apply.
  - by apply apply_NoDup.
  - rewrite maxSize_apply. by apply apply_size_le.
Qed.

Lemma has_set_present key value b other :
  has key b = true → has other (set key value b) = has other b.
Proof.
  intros Hhas.
  assert (has other (set key value b)
          = js_has other (js_delete key (map b) ++ [(key, value)])) as ->.
  { unfold has at 1. change (map (set key value b)) with (entries (set key value b)).
    by rewrite set_present. }
  unfold has in *.
  apply js_has_true in Hhas.
  destruct (js_has other (map b)) eqn:Hother.
  - apply js_has_true in Hother. apply js_has_true.
    rewrite fmap_app, elem_of_app, js_delete_elem. simpl.
    destruct (decide (other = key)) as [->|Hne]; [right; apply list_elem_of_singleton; done | tauto].
  - apply js_has_false in Hother. apply js_has_false.
    rewrite fmap_app, elem_of_app, js_delete_elem. simpl.
    rewrite list_elem_of_singleton. intros [[_ ?]| ->]; done.
Qed.

(** C9, as amended: for every capacity [N] of at least one, after any
    sequence of set, get, delete and clear operations on a new map the
    size is at most [N]; setting a key that is absent when the map holds
    [N] entries removes the first entry in insertion order (the oldest) and
    no other, and appends the new entry; setting an absent key while there
    is room appends it and removes nothing; setting a key that is present
    removes its entry and appends the new one, so that the key becomes the
    newest, the size is unchanged and every other key is kept. *)
Theorem bounded_map_never_exceeds_capacity (N : Z) (ops : list (Op K V)) :
  1 ≤ N →
  let b := run ops (new N) in
  size b ≤ N
  ∧ (∀ key value, has key b = false → size b = N →
       ∃ oldest rest, entries b = oldest :: rest
         ∧ entries (set key value b) = rest ++ [(key, value)])
  ∧ (∀ key value, has key b = false → size b < N →
       entries (set key value b) = entries b ++ [(key, value)])
  ∧ (∀ key value, has key b = true →
       entries (set key value b) = js_delete key (entries b) ++ [(key, value)]
       ∧ size (set key value b) = size b
       ∧ ∀ other, has other (set key value b) = has other b).
Proof.
  intros Hcap b.
  assert (maxSize b = N) as HN by (subst b; by rewrite maxSize_run).
  assert (NoDup (keys b)) as Hnd by (subst b; apply run_NoDup, NoDup_nil_2).
  assert (size b ≤ N) as Hle.
  { subst b.
    apply (run_size_le ops (new N)); simpl;
      [done | apply NoDup_nil_2 | unfold size; simpl; lia]. }
  split; [done |]. split; [| split].
  - intros key value Hhas Hfull.
    destruct (entries b) as [|oldest rest] eqn:Hm.
    + unfold size, entries in *. rewrite Hm in Hfull. simpl in Hfull. lia.
    + exists oldest, rest. split; [done |].
      apply (set_absent_full key value b oldest rest); [done | done | lia | done].
  - intros key value Hhas Hroom. apply set_absent_room; [done | lia].
  - intros key value Hhas. split; [by apply set_present |]. split.
    + unfold size at 1.
      change (map (set key value b)) with (entries (set key value b)).
      rewrite set_present by done. rewrite length_app. simpl.
      pose proof (js_delete_length key (entries b) Hnd
                    (proj1 (js_has_true _ _) Hhas)) as Hlen.
      unfold size, entries in *. lia.
    + intros other. by apply has_set_present.
Qed.

End props.

(** C9 as stated fails for the capacity 0: the first [set] finds no oldest
    key to evict and inserts all the same, so the map holds one entry. *)
Lemma bounded_map_capacity_zero_exceeded :
  size (run [OpSet 1 "a"] (new 0)) = 1
  ∧ ¬ (size (run [OpSet 1 "a"] (new 0)) ≤ 0).
Proof. split; [reflexivity | intros Hle; vm_compute in Hle; by apply Hle]. Qed.

Lemma bounded_map_never_exceeds_capacity_witness :
  1 ≤ 2
  ∧ size (run example_ops (new 2)) ≤ 2
  ∧ (∀ key value,
       has key (run example_ops (new 2)) = false →
       size (run example_ops (new 2)) = 2 →
       ∃ oldest rest,
         entries (run example_ops (new 2)) = oldest :: rest
         ∧ entries (set key value (run example_ops (new 2)))
           = rest ++ [(key, value)]).
Proof.
  split; [lia |].
  destruct (bounded_map_never_exceeds_capacity (K:=Z) (V:=string) 2 example_ops)
    as (Hsize & Hfull & _); [lia |].
  split; [exact Hsize | exact Hfull].
Defined.

End BoundedMapProps.

(* ===================================================================== *)
(** * Properties of the request queue *)
(* ===================================================================== *)

Module RequestQueueProps.
Import RequestQueue.

Implicit Types (st : State) (k sessionKey : string) (r request : QueuedRequest)
  (t es : list Effect) (e : Effect) (calls : list Call) (c : Call).

(** ** What [processQueue] does *)

Lemma isProcessing_true k st :
  isProcessing k st = true ↔ processingFlags st !! k = Some true.
Proof. unfold isProcessing. apply bool_decide_eq_true. Qed.

Lemma isProcessing_false k st :
  isProcessing k st = false ↔ processingFlags st !! k ≠ Some true.
Proof. unfold isProcessing. apply bool_decide_eq_false. Qed.

Lemma pending_lookup k st queue :
  pendingQueues st !! k = Some queue → pending k st = queue.
Proof. unfold pending. by intros ->. Qed.

Lemma getQueuePosition_pending k st : getQueuePosition k st = length (pending k st).
Proof. unfold getQueuePosition, pending. by destruct (pendingQueues st !! k). Qed.

Lemma processQueue_cases k st :
  (processQueue k st = st ∧ (isProcessing k st = true ∨ pending k st = []))
  ∨ (∃ r rest, isProcessing k st = false
       ∧ pendingQueues st !! k = Some (r :: rest)
       ∧ processQueue k st = started k r rest st).
Proof.
  unfold processQueue, pending.
  destruct (isProcessing k st) eqn:Hflag; [left; auto |].
  destruct (pendingQueues st !! k) as [[|r rest]|] eqn:Hq; [left; auto | | left; auto].
  right. by exists r, rest.
Qed.

Lemma processQueue_idle_head k st r rest :
  isProcessing k st = false → pendingQueues st !! k = Some (r :: rest) →
  processQueue k st = started k r rest st.
Proof. intros Hflag Hq. unfold processQueue. by rewrite Hflag, Hq. Qed.

(** ** Reading traces *)

Lemma open_call_app k t es :
  open_call k (t ++ es) = foldl (bracket k) (open_call k t) es.
Proof. unfold open_call. apply foldl_app. Qed.

Lemma bracket_neutral k acc e : neutral e = true → bracket k acc e = acc.
Proof. destruct acc, e; done. Qed.

Lemma open_call_neutral k t es :
  forallb neutral es = true → open_call k (t ++ es) = open_call k t.
Proof.
  rewrite open_call_app. generalize (open_call k t).
  induction es as [|e es IH]; intros acc Hes; [done |].
  simpl in *. apply andb_prop in Hes as [He Hes].
  by rewrite bracket_neutral, IH.
Qed.

Lemma open_call_other k k' t e :
  k' ≠ k →
  match e with EInvoke k0 _ | ECleanup k0 _ => k0 = k' | _ => True end →
  open_call k (t ++ [e]) = open_call k t.
Proof.
  intros Hne He. rewrite open_call_app. simpl.
  destruct (open_call k t) as [cur|]; [| done].
  destruct e; simpl; try done; subst; by rewrite decide_False.
Qed.

Lemma open_call_invoke k t r :
  open_call k t = Some None → open_call k (t ++ [EInvoke k r]) = Some (Some r).
Proof. intros Ht. rewrite open_call_app, Ht. simpl. by rewrite decide_True. Qed.

Lemma open_call_cleanup k t r :
  open_call k t = Some (Some r) → open_call k (t ++ [ECleanup k r]) = Some None.
Proof.
  intros Ht. rewrite open_call_app, Ht. simpl.
  by rewrite !decide_True.
Qed.

(** ** The suspended activations of a key *)

Lemma in_flight_snoc k k' r (fs : list (string * QueuedRequest)) :
  (filter (λ f : string * QueuedRequest, f.1 = k) (fs ++ [(k', r)])).*2
  = (filter (λ f : string * QueuedRequest, f.1 = k) fs).*2
    ++ (if decide (k' = k) then [r] else []).
Proof.
  rewrite filter_app, fmap_app. f_equal.
  destruct (decide (k' = k)) as [->|Hne].
  - by rewrite filter_cons_True.
  - by rewrite filter_cons_False.
Qed.

Lemma filter_delete_other k (fs : list (string * QueuedRequest)) i k' r :
  fs !! i = Some (k', r) → k' ≠ k →
  filter (λ f : string * QueuedRequest, f.1 = k) (base.delete i fs)
  = filter (λ f : string * QueuedRequest, f.1 = k) fs.
Proof.
  intros Hi Hne. rewrite <- (take_drop_middle fs i (k', r) Hi) at 2.
  rewrite delete_take_drop, !filter_app.
  by rewrite filter_cons_False.
Qed.

Lemma filter_delete_only k (fs : list (string * QueuedRequest)) i r r0 :
  fs !! i = Some (k, r) →
  (filter (λ f : string * QueuedRequest, f.1 = k) fs).*2 = [r0] →
  r0 = r ∧ filter (λ f : string * QueuedRequest, f.1 = k) (base.delete i fs) = [].
Proof.
  intros Hi. rewrite <- (take_drop_middle fs i (k, r) Hi) at 1.
  rewrite delete_take_drop, !filter_app, filter_cons_True by done.
  rewrite fmap_app, fmap_cons. simpl.
  destruct (filter _ (take i fs)) as [|f1 l1]; simpl.
  - intros [= -> Hnil]. apply fmap_nil_inv in Hnil. by rewrite Hnil.
  - intros [= _ Hnil]. by apply app_nil in Hnil as [_ [=]].
Qed.

Lemma filter_delete_none k (fs : list (string * QueuedRequest)) i r :
  fs !! i = Some (k, r) →
  filter (λ f : string * QueuedRequest, f.1 = k) fs ≠ [].
Proof.
  intros Hi. rewrite <- (take_drop_middle fs i (k, r) Hi).
  rewrite filter_app, filter_cons_True by done.
  intros Hnil. by apply app_nil in Hnil as [_ [=]].
Qed.

(** ** Mutual exclusion *)

Lemma exclusive_init k : exclusive k init.
Proof. done. Qed.

(** Changes that leave the flags and the suspended activations alone and
    emit only effects other than invocations and clean-ups. *)
Lemma exclusive_frame k st st' es :
  processingFlags st' = processingFlags st →
  awaiting st' = awaiting st →
  trace st' = trace st ++ es →
  forallb neutral es = true →
  exclusive k st → exclusive k st'.
Proof.
  intros Hf Ha Ht Hes. unfold exclusive, isProcessing, in_flight.
  by rewrite Hf, Ha, Ht, open_call_neutral.
Qed.

Lemma exclusive_started k k' r rest st :
  isProcessing k' st = false →
  exclusive k st → exclusive k (started k' r rest st).
Proof.
  intros Hflag. unfold exclusive, isProcessing, in_flight in *. simpl.
  rewrite in_flight_snoc.
  destruct (decide (k' = k)) as [->|Hne].
  - rewrite Hflag. rewrite lookup_insert_eq, bool_decide_eq_true_2 by done.
    intros [Hnone Hopen]. exists r. rewrite Hnone. split; [done |].
    by apply open_call_invoke.
  - rewrite lookup_insert_ne by done.
    rewrite (open_call_other k k') by done. by rewrite app_nil_r.
Qed.

Lemma exclusive_processQueue k k' st :
  exclusive k st → exclusive k (processQueue k' st).
Proof.
  intros Hex. destruct (processQueue_cases k' st) as [[-> _]|(r & rest & Hflag & _ & ->)];
    [done | by apply exclusive_started].
Qed.

Lemma trace_deliver r outcome st :
  ∃ e, neutral e = true ∧ quiet e = true ∧ deliver r outcome st = emit [e] st.
Proof. exists (settlement r outcome). by destruct outcome. Qed.

Lemma exclusive_resume k k' r outcome st :
  (k ≠ k' → exclusive k st) →
  in_flight k' st = [] → open_call k' (trace st) = Some (Some r) →
  exclusive k (processQueue_resume k' r outcome st).
Proof.
  intros Hother Hnone Hopen. unfold processQueue_resume.
  destruct (trace_deliver r outcome st) as (e & He & _ & ->).
  set (mid := cleanup k' r (emit [e] st)).
  assert (exclusive k mid) as Hmid.
  { unfold exclusive, isProcessing, in_flight in *. subst mid. simpl.
    destruct (decide (k = k')) as [->|Hne].
    - rewrite lookup_insert_eq, bool_decide_eq_false_2 by done.
      split; [done |]. apply open_call_cleanup.
      rewrite open_call_neutral; [done | simpl; by rewrite He].
    - rewrite lookup_insert_ne by done.
      rewrite (open_call_other k k') by done.
      rewrite open_call_neutral by (simpl; by rewrite He). by apply Hother. }
  case_bool_decide; [by apply exclusive_processQueue | done].
Qed.

Lemma exclusive_suspend k st (res : (bool + Continuation) * State) es :
  processingFlags res.2 = processingFlags st →
  awaiting res.2 = awaiting st →
  trace res.2 = trace st ++ es →
  forallb neutral es = true →
  exclusive k st → exclusive k (suspend res).
Proof.
  intros Hf Ha Ht Hes Hex. destruct res as [[b|kont] st1]; simpl in *.
  - by apply (exclusive_frame k st st1 es).
  - by apply (exclusive_frame k st _ es).
Qed.

Ltac frame_side H :=
  simpl; rewrite <- ?app_assoc, ?app_nil_r; first [done | apply H].

Lemma exclusive_step st c :
  (∀ k, exclusive k st) → ∀ k, exclusive k (step st c).
Proof.
  intros Hex k. destruct c as [k' m h|p outcome|k'|k'|i threw|k'|k' ctl|k'|k' q|k'|k']; simpl.
  - unfold queueRequest. simpl. apply exclusive_processQueue.
    eapply (exclusive_frame k st _ [EPush k' _]); [| | | done | apply Hex];
      by destruct (pendingQueues st !! k').
  - destruct (list_find _ (awaiting st)) as [[i [k' r]]|] eqn:Hfind; [| apply Hex].
    apply list_find_Some in Hfind as (Hi & _ & _).
    pose proof (Hex k') as Hk'. unfold exclusive in Hk'.
    pose proof (filter_delete_none k' _ i r Hi) as Hsome.
    destruct (isProcessing k' st) eqn:Hflag.
    + destruct Hk' as (r0 & Hone & Hopen).
      destruct (filter_delete_only k' _ i r r0 Hi Hone) as [-> Hnil].
      apply exclusive_resume.
      * intros Hne. specialize (Hex k). unfold exclusive, isProcessing, in_flight in *.
        simpl. by rewrite (filter_delete_other k _ i k' r).
      * unfold in_flight. simpl. by rewrite Hnil.
      * done.
    + destruct Hk' as [Hnone _]. unfold in_flight in Hnone.
      apply fmap_nil_inv in Hnone. done.
  - unfold cancelRequest.
    destruct (activeQueries st !! k') as [q|];
      [| destruct (activeAbortControllers st !! k') as [ctl|]].
    + eapply (exclusive_suspend k st _ [EMarkCancelled k'; EInterrupt k' q]); frame_side Hex.
    + eapply (exclusive_suspend k st _ [EMarkCancelled k'; EAbort k' ctl]); frame_side Hex.
    + apply Hex.
  - unfold resetRequest.
    destruct (activeQueries st !! k') as [q|];
      [| destruct (activeAbortControllers st !! k') as [ctl|]].
    + eapply (exclusive_suspend k st _ [EMarkCancelled k'; EInterrupt k' q]); frame_side Hex.
    + eapply (exclusive_suspend k st _ [EMarkCancelled k'; EAbort k' ctl]); frame_side Hex.
    + apply Hex.
  - destruct (interrupting st !! i) as [[k'|k' ctl]|]; [| | apply Hex].
    + destruct threw; simpl.
      * eapply (exclusive_frame k st _ [EDebug _ k']); frame_side Hex.
      * eapply (exclusive_frame k st _ []); frame_side Hex.
    + destruct threw, ctl as [ctl|]; simpl.
      * eapply (exclusive_frame k st _ [EDebug _ k'; EAbort k' ctl]); frame_side Hex.
      * eapply (exclusive_frame k st _ [EDebug _ k']); frame_side Hex.
      * eapply (exclusive_frame k st _ [EAbort k' ctl]); frame_side Hex.
      * eapply (exclusive_frame k st _ []); frame_side Hex.
  - unfold clearQueue. destruct (pendingQueues st !! k') as [queue|]; [| apply Hex].
    simpl. eapply (exclusive_frame k st _ _); [done | done | done | | apply Hex].
    by induction queue.
  - eapply (exclusive_frame k st _ []); frame_side Hex.
  - eapply (exclusive_frame k st _ []); frame_side Hex.
  - eapply (exclusive_frame k st _ []); frame_side Hex.
  - eapply (exclusive_frame k st _ []); frame_side Hex.
  - eapply (exclusive_frame k st _ []); frame_side Hex.
Qed.

Lemma run_snoc calls c st : run (calls ++ [c]) st = step (run calls st) c.
Proof. unfold run. by rewrite foldl_app. Qed.

Lemma exclusive_run calls k : exclusive k (run calls init).
Proof.
  revert k. induction calls as [|c calls IH] using rev_ind; intros k.
  - apply exclusive_init.
  - rewrite run_snoc. by apply exclusive_step.
Qed.

(** C1: in every state the module can reach, and for every session key, at
    most one activation of [processQueue] is suspended on a handler of the
    key; [isProcessing] is true exactly when there is one; the call that the
    trace has open (invoked, clean-up not yet run) is that one; and no
    handler of the key was ever invoked while an earlier call of the key was
    still open, that is, before the clean-up of the earlier call had run. *)
Theorem one_call_in_flight_per_key (calls : list Call) (k : string) :
  let st := run calls init in
  (length (in_flight k st) ≤ 1)%nat
  ∧ isProcessing k st = bool_decide (in_flight k st ≠ [])
  ∧ open_call k (trace st) = Some (head (in_flight k st))
  ∧ serialized k (trace st) = true.
Proof.
  intros st. pose proof (exclusive_run calls k) as Hex. fold st in Hex.
  unfold exclusive, serialized in *.
  destruct (isProcessing k st).
  - destruct Hex as (r & -> & ->). simpl.
    split; [lia |]. split; done.
  - destruct Hex as (-> & ->). simpl.
    split; [lia |]. split; done.
Qed.

(** ** Start order *)

Lemma pushed_app k t es : pushed k (t ++ es) = pushed k t ++ pushed k es.
Proof. apply omap_app. Qed.

Lemma invoked_app k t es : invoked k (t ++ es) = invoked k t ++ invoked k es.
Proof. apply omap_app. Qed.

Lemma pushed_quiet k es : forallb quiet es = true → pushed k es = [].
Proof.
  induction es as [|e es IH]; [done |]. simpl. intros [He Hes]%andb_prop.
  unfold pushed in *. simpl. rewrite IH by done. by destruct e.
Qed.

Lemma invoked_quiet k es : forallb quiet es = true → invoked k es = [].
Proof.
  induction es as [|e es IH]; [done |]. simpl. intros [He Hes]%andb_prop.
  unfold invoked in *. simpl. rewrite IH by done. by destruct e.
Qed.

Lemma rejections_quiet (queue : list QueuedRequest) :
  forallb quiet ((λ request, EReject (promise request) queueCleared) <$> queue) = true.
Proof. induction queue as [|r queue IH]; [done | exact IH]. Qed.

Lemma same_order_refl k st : same_order k st st.
Proof. done. Qed.

Lemma same_order_trans k st1 st2 st3 :
  same_order k st1 st2 → same_order k st2 st3 → same_order k st1 st3.
Proof. intros (? & ? & ?) (? & ? & ?). repeat split; congruence. Qed.

Lemma same_order_frame k st st' es :
  pendingQueues st' !! k = pendingQueues st !! k →
  nextPromise st' = nextPromise st →
  trace st' = trace st ++ es →
  forallb quiet es = true →
  same_order k st st'.
Proof.
  intros Hq Hn Ht Hes. unfold same_order, turns, pending.
  rewrite Hq, Hn, Ht, pushed_app, invoked_app.
  by rewrite (pushed_quiet k es Hes), (invoked_quiet k es Hes), !app_nil_r.
Qed.

Lemma same_order_started k k' r rest st :
  pendingQueues st !! k' = Some (r :: rest) →
  same_order k st (started k' r rest st).
Proof.
  intros Hq. unfold same_order, turns, pending. simpl.
  rewrite pushed_app, invoked_app. unfold pushed at 2, invoked at 2. simpl.
  rewrite app_nil_r. split; [done |]. split; [| done].
  destruct (decide (k' = k)) as [->|Hne].
  - rewrite lookup_insert_eq, Hq. simpl. by rewrite <- app_assoc.
  - rewrite lookup_insert_ne by done. by rewrite app_nil_r.
Qed.

Lemma same_order_processQueue k k' st : same_order k st (processQueue k' st).
Proof.
  destruct (processQueue_cases k' st) as [[-> _]|(r & rest & _ & Hq & ->)];
    [done | by apply same_order_started].
Qed.

Lemma same_order_resume k k' r outcome st :
  same_order k st (processQueue_resume k' r outcome st).
Proof.
  unfold processQueue_resume.
  destruct (trace_deliver r outcome st) as (e & _ & He & ->).
  set (mid := cleanup k' r (emit [e] st)).
  assert (same_order k st mid) as Hmid.
  { apply (same_order_frame k st mid [e; ECleanup k' r]); subst mid; simpl;
      [done | done | by rewrite <- app_assoc | by rewrite He]. }
  case_bool_decide; [| done].
  eapply same_order_trans; [exact Hmid | apply same_order_processQueue].
Qed.

Lemma same_order_suspend k st (res : (bool + Continuation) * State) es :
  pendingQueues res.2 !! k = pendingQueues st !! k →
  nextPromise res.2 = nextPromise st →
  trace res.2 = trace st ++ es →
  forallb quiet es = true →
  same_order k st (suspend res).
Proof.
  intros Hq Hn Ht Hes. destruct res as [[b|kont] st1]; simpl in *;
    by apply (same_order_frame k st _ es).
Qed.

(** What a step does to the order of turns of a key: a submission for the
    key appends its request, [clearQueue] for the key drops the waiting
    requests, and nothing else matters. *)
Lemma step_order k st c :
  let st' := step st c in
  match c with
  | CallQueueRequest k' m h =>
      let new := if decide (k' = k) then [mkRequest m h (nextPromise st)] else [] in
      pushed k (trace st') = pushed k (trace st) ++ new
      ∧ turns k st' = turns k st ++ new
      ∧ nextPromise st' = S (nextPromise st)
  | CallClearQueue k' =>
      pushed k (trace st') = pushed k (trace st)
      ∧ turns k st' = (if decide (k' = k) then invoked k (trace st) else turns k st)
      ∧ nextPromise st' = nextPromise st
  | _ => same_order k st st'
  end.
Proof.
  destruct c as [k' m h|p outcome|k'|k'|i threw|k'|k' ctl|k'|k' q|k'|k']; simpl.
  - unfold queueRequest. simpl.
    match goal with |- context [processQueue k' ?s] => set (st3 := s) end.
    destruct (same_order_processQueue k k' st3) as (-> & -> & ->).
    subst st3. unfold turns, pending. simpl.
    rewrite pushed_app, invoked_app. unfold pushed at 2, invoked at 2. simpl.
    rewrite app_nil_r.
    destruct (decide (k' = k)) as [->|Hne].
    + rewrite lookup_alter_eq.
      destruct (pendingQueues st !! k) as [queue|] eqn:Hq; simpl.
      * rewrite Hq. simpl. by rewrite <- !app_assoc.
      * rewrite lookup_insert_eq. simpl. by rewrite app_nil_r.
    + rewrite lookup_alter_ne by done. rewrite !app_nil_r.
      destruct (pendingQueues st !! k') as [queue|] eqn:Hq; simpl; [done |].
      by rewrite lookup_insert_ne.
  - destruct (list_find _ (awaiting st)) as [[i [k' r]]|]; [| done].
    eapply same_order_trans; [| apply same_order_resume].
    by apply (same_order_frame k st _ []); simpl; rewrite ?app_nil_r.
  - unfold cancelRequest.
    destruct (activeQueries st !! k') as [q|];
      [| destruct (activeAbortControllers st !! k') as [ctl|]]; [| | done].
    + eapply (same_order_suspend k st _ [EMarkCancelled k'; EInterrupt k' q]);
        simpl; rewrite <- ?app_assoc; done.
    + eapply (same_order_suspend k st _ [EMarkCancelled k'; EAbort k' ctl]);
        simpl; rewrite <- ?app_assoc; done.
  - unfold resetRequest.
    destruct (activeQueries st !! k') as [q|];
      [| destruct (activeAbortControllers st !! k') as [ctl|]]; [| | done].
    + eapply (same_order_suspend k st _ [EMarkCancelled k'; EInterrupt k' q]);
        simpl; rewrite <- ?app_assoc; done.
    + eapply (same_order_suspend k st _ [EMarkCancelled k'; EAbort k' ctl]);
        simpl; rewrite <- ?app_assoc; done.
  - destruct (interrupting st !! i) as [[k'|k' ctl]|]; [| | done].
    + destruct threw; simpl.
      * eapply (same_order_frame k st _ [EDebug _ k']); simpl; done.
      * eapply (same_order_frame k st _ []); simpl; rewrite ?app_nil_r; done.
    + destruct threw, ctl as [ctl|]; simpl.
      * eapply (same_order_frame k st _ [EDebug _ k'; EAbort k' ctl]);
          simpl; rewrite <- ?app_assoc; done.
      * eapply (same_order_frame k st _ [EDebug _ k']); simpl; done.
      * eapply (same_order_frame k st _ [EAbort k' ctl]); simpl; done.
      * eapply (same_order_frame k st _ []); simpl; rewrite ?app_nil_r; done.
  - unfold clearQueue.
    destruct (pendingQueues st !! k') as [queue|] eqn:Hq; simpl.
    + unfold turns, pending. simpl. rewrite pushed_app, invoked_app.
      pose proof (rejections_quiet queue) as Hes.
      rewrite (pushed_quiet k _ Hes), (invoked_quiet k _ Hes), !app_nil_r.
      split; [done |]. split; [| done].
      destruct (decide (k' = k)) as [->|Hne].
      * rewrite lookup_insert_eq. simpl. by rewrite app_nil_r.
      * by rewrite lookup_insert_ne.
    + split; [done |]. split; [| done].
      destruct (decide (k' = k)) as [->|Hne]; [| done].
      unfold turns, pending. rewrite Hq. simpl. by rewrite app_nil_r.
  - eapply (same_order_frame k st _ []); simpl; rewrite ?app_nil_r; done.
  - eapply (same_order_frame k st _ []); simpl; rewrite ?app_nil_r; done.
  - eapply (same_order_frame k st _ []); simpl; rewrite ?app_nil_r; done.
  - eapply (same_order_frame k st _ []); simpl; rewrite ?app_nil_r; done.
  - eapply (same_order_frame k st _ []); simpl; rewrite ?app_nil_r; done.
Qed.

Lemma fresh_step k st c : fresh k st → fresh k (step st c).
Proof.
  intros [Hlt Hnd]. pose proof (step_order k st c) as Hstep. unfold fresh.
  destruct c; cbv beta iota zeta in Hstep;
    try (destruct Hstep as (-> & _ & ->); by split).
  destruct Hstep as (-> & _ & ->).
  destruct (decide (sessionKey = k)) as [->|Hne].
  - split.
    + apply Forall_app. split; [| by repeat constructor].
      eapply Forall_impl; [exact Hlt |]. simpl. lia.
    + rewrite fmap_app. apply NoDup_app. split; [done |]. split; [| apply NoDup_singleton].
      intros p Hp Hp'. apply list_elem_of_singleton in Hp'. subst p.
      apply list_elem_of_fmap in Hp as (r & Heq & Hr).
      rewrite Forall_forall in Hlt. specialize (Hlt r Hr). simpl in Heq. lia.
  - rewrite app_nil_r. split; [| done].
    eapply Forall_impl; [exact Hlt |]. simpl. lia.
Qed.

Lemma fresh_run calls k : fresh k (run calls init).
Proof.
  induction calls as [|c calls IH] using rev_ind.
  - split; [constructor | apply NoDup_nil_2].
  - rewrite run_snoc. by apply fresh_step.
Qed.

Lemma turns_sublist_step k st c :
  turns k st `sublist_of` pushed k (trace st) →
  turns k (step st c) `sublist_of` pushed k (trace (step st c)).
Proof.
  intros Hsub. pose proof (step_order k st c) as Hstep.
  destruct c; cbv beta iota zeta in Hstep;
    try (destruct Hstep as (-> & -> & _); done).
  - destruct Hstep as (-> & -> & _). by apply sublist_app.
  - destruct Hstep as (-> & -> & _). case_decide; [| done].
    etrans; [| exact Hsub]. unfold turns. apply sublist_inserts_r. done.
Qed.

Lemma turns_sublist_run calls k :
  turns k (run calls init) `sublist_of` pushed k (trace (run calls init)).
Proof.
  induction calls as [|c calls IH] using rev_ind; [done |].
  rewrite run_snoc. by apply turns_sublist_step.
Qed.

Lemma turns_all_step k st c :
  clears_queue k c = false →
  turns k st = pushed k (trace st) →
  turns k (step st c) = pushed k (trace (step st c)).
Proof.
  intros Hc Heq. pose proof (step_order k st c) as Hstep.
  destruct c; cbv beta iota zeta in Hstep;
    try (destruct Hstep as (-> & -> & _); done).
  - destruct Hstep as (-> & -> & _). by rewrite Heq.
  - destruct Hstep as (-> & -> & _). simpl in Hc.
    apply bool_decide_eq_false in Hc. by rewrite decide_False.
Qed.

Lemma turns_all_run calls k :
  forallb (λ c, negb (clears_queue k c)) calls = true →
  turns k (run calls init) = pushed k (trace (run calls init)).
Proof.
  induction calls as [|c calls IH] using rev_ind; [done |].
  rewrite forallb_app. simpl. intros [Hcalls [Hc _]%andb_prop]%andb_prop.
  rewrite run_snoc. apply turns_all_step; [by apply negb_true_iff | by apply IH].
Qed.

Lemma pushed_submissions calls k :
  (λ r, (message r, handler r)) <$> pushed k (trace (run calls init))
  = submissions k calls.
Proof.
  induction calls as [|c calls IH] using rev_ind; [done |].
  rewrite run_snoc. unfold submissions in *. rewrite omap_app, <- IH.
  pose proof (step_order k (run calls init) c) as Hstep.
  destruct c; cbv beta iota zeta in Hstep;
    try (destruct Hstep as (-> & _ & _); simpl; by rewrite app_nil_r).
  destruct Hstep as (-> & _ & _). rewrite fmap_app. simpl.
  by case_decide.
Qed.

(** In every state the module can reach, and for every session key, the
    requests pushed for the key are those of the calls of [queueRequest] for
    the key, in the order of the calls, and are pairwise distinct; the
    requests whose handler was invoked, in the order of the invocations,
    followed by the requests still waiting, in the order of the array, form
    a subsequence of the pushed requests in their order; no request is
    invoked twice; and when [clearQueue] was never called for the key the
    subsequence is the whole sequence, so that the invoked requests are
    exactly the first pushed ones. *)
Lemma submission_order_kept (calls : list Call) (k : string) :
  let st := run calls init in
  (λ r, (message r, handler r)) <$> pushed k (trace st) = submissions k calls
  ∧ NoDup (promise <$> pushed k (trace st))
  ∧ invoked k (trace st) ++ pending k st `sublist_of` pushed k (trace st)
  ∧ NoDup (invoked k (trace st))
  ∧ (forallb (λ c, negb (clears_queue k c)) calls = true →
       invoked k (trace st) ++ pending k st = pushed k (trace st)).
Proof.
  intros st. subst st.
  pose proof (fresh_run calls k) as [_ Hnd].
  pose proof (turns_sublist_run calls k) as Hsub.
  split; [apply pushed_submissions |]. split; [done |]. split; [done |]. split.
  - apply (sublist_NoDup _ (pushed k (trace (run calls init)))).
    + by apply NoDup_fmap_1 in Hnd.
    + etrans; [| exact Hsub]. unfold turns. by apply sublist_inserts_r.
  - apply turns_all_run.
Qed.

(** ** Settling *)

Lemma effects_since_app st st' es :
  trace st' = trace st ++ es → effects_since st st' = es.
Proof. intros Ht. unfold effects_since. by rewrite Ht, drop_app_length. Qed.

Lemma isCancelled_true k st : isCancelled k st = true ↔ k ∈ cancelledChats st.
Proof. unfold isCancelled. apply bool_decide_eq_true. Qed.

Lemma isCancelled_false k st : isCancelled k st = false ↔ k ∉ cancelledChats st.
Proof. unfold isCancelled. apply bool_decide_eq_false. Qed.

(** The state at the end of the clean-up of the finally block. *)
Lemma cleanup_clears k r st :
  let mid := cleanup k r st in
  isProcessing k mid = false
  ∧ activeQueries mid !! k = None
  ∧ activeAbortControllers mid !! k = None
  ∧ isCancelled k mid = false
  ∧ pendingQueues mid = pendingQueues st
  ∧ awaiting mid = awaiting st
  ∧ trace mid = trace st ++ [ECleanup k r].
Proof.
  simpl. split; [| split; [| split; [| split]]]; try done.
  - apply isProcessing_false. simpl. by rewrite lookup_insert_eq.
  - apply lookup_delete_eq.
  - apply lookup_delete_eq.
  - apply isCancelled_false. simpl.
    intros [_ Hnot]%elem_of_difference. apply Hnot. by apply elem_of_singleton.
Qed.

(** [processQueue] leaves the cancellation registry alone. *)
Lemma processQueue_registry k st :
  activeQueries (processQueue k st) = activeQueries st
  ∧ activeAbortControllers (processQueue k st) = activeAbortControllers st
  ∧ cancelledChats (processQueue k st) = cancelledChats st.
Proof.
  by destruct (processQueue_cases k st) as [[-> _]|(r & rest & _ & _ & ->)].
Qed.

(** The whole of [processQueue_resume], by the state of the array. *)
Lemma processQueue_resume_cases k r outcome st :
  let mid := cleanup k r (deliver r outcome st) in
  match pending k st with
  | [] => processQueue_resume k r outcome st = mid
  | next :: rest =>
      processQueue_resume k r outcome st = started k next rest mid
  end.
Proof.
  intros mid. unfold processQueue_resume. fold mid.
  assert (pendingQueues mid = pendingQueues st) as Hq by done.
  rewrite getQueuePosition_pending.
  assert (pending k mid = pending k st) as -> by (unfold pending; by rewrite Hq).
  destruct (pending k st) as [|next rest] eqn:Hp.
  - by rewrite bool_decide_eq_false_2 by (simpl; lia).
  - rewrite bool_decide_eq_true_2 by (simpl; lia).
    apply processQueue_idle_head.
    + apply (cleanup_clears k r (deliver r outcome st)).
    + rewrite Hq. unfold pending in Hp.
      destruct (pendingQueues st !! k) as [queue|]; simpl in Hp; by subst.
Qed.

(** The state and the effects at the end of [processQueue_resume]. *)
Lemma processQueue_resume_summary k request outcome st :
  let st' := processQueue_resume k request outcome st in
  (activeQueries st' !! k = None
   ∧ activeAbortControllers st' !! k = None
   ∧ isCancelled k st' = false)
  ∧ isProcessing k st' = bool_decide (pending k st ≠ [])
  ∧ effects_since st st'
    = [settlement request outcome; ECleanup k request]
      ++ match pending k st with
         | [] => []
         | next :: _ => [EInvoke k next]
         end.
Proof.
  intros st'.
  destruct (cleanup_clears k request (deliver request outcome st))
    as (Hflag & Hq & Hc & Hx & _ & _ & Ht).
  pose proof (processQueue_resume_cases k request outcome st) as Hcases.
  cbv zeta in Hcases.
  set (mid := cleanup k request (deliver request outcome st)) in Hflag, Hq, Hc, Hx, Ht, Hcases.
  change (processQueue_resume k request outcome st) with st' in Hcases.
  assert (trace mid = trace st ++ [settlement request outcome; ECleanup k request])
    as Ht' by (subst mid; simpl; by rewrite <- app_assoc).
  clear Ht. clearbody mid st'.
  destruct (pending k st) as [|next rest]; subst st'.
  - split; [done |]. split; [done |].
    apply effects_since_app. by rewrite Ht', app_nil_r.
  - split; [done |]. split.
    + apply isProcessing_true. simpl. by rewrite lookup_insert_eq.
    + apply effects_since_app. simpl. by rewrite Ht', <- app_assoc.
Qed.

(** C3: when the promise of an invoked handler settles, whatever the
    outcome and whatever the state, the finally block leaves the processing
    flag of the key false, the key without an active query and without an
    abort controller, and the key not cancelled; the registry is still in
    that state when [processQueue] returns, the flag being true again only
    if a waiting request was started, and that start comes after the
    clean-up. *)
Theorem settling_clears_cancellation_state
    (k : string) (request : QueuedRequest) (outcome : Outcome) (st : State) :
  let mid := cleanup k request (deliver request outcome st) in
  let st' := processQueue_resume k request outcome st in
  (isProcessing k mid = false
   ∧ activeQueries mid !! k = None
   ∧ activeAbortControllers mid !! k = None
   ∧ isCancelled k mid = false)
  ∧ (activeQueries st' !! k = None
     ∧ activeAbortControllers st' !! k = None
     ∧ isCancelled k st' = false)
  ∧ isProcessing k st' = bool_decide (pending k st ≠ [])
  ∧ effects_since st st'
    = [settlement request outcome; ECleanup k request]
      ++ match pending k st with
         | [] => []
         | next :: _ => [EInvoke k next]
         end.
Proof.
  intros mid st'. split; [| apply processQueue_resume_summary].
  destruct (cleanup_clears k request (deliver request outcome st))
    as (Hflag & Hq & Hc & Hx & _).
  done.
Qed.

(** C8, as amended: when a handler throws, the promise of its request is
    rejected with the thrown value itself if that value is an [Error], and
    otherwise with a new [Error] whose message is the string form of the
    value; the requests waiting for the key stay in the array, except the
    first one, whose handler is invoked right after the clean-up. *)
Theorem handler_error_reaches_caller
    (k : string) (request : QueuedRequest) (error : JsValue) (st : State) :
  let st' := processQueue_resume k request (Threw error) st in
  effects_since st st'
  = [EReject (promise request)
       match error with
       | JError _ => error
       | _ => JError (new_Error (js_String error))
       end;
     ECleanup k request]
    ++ match pending k st with
       | [] => []
       | next :: _ => [EInvoke k next]
       end
  ∧ pending k st' = tail (pending k st)
  ∧ awaiting st'
    = awaiting st ++ match pending k st with
                     | [] => []
                     | next :: _ => [(k, next)]
                     end
  ∧ isProcessing k st' = bool_decide (pending k st ≠ []).
Proof.
  intros st'.
  pose proof (processQueue_resume_summary k request (Threw error) st)
    as (_ & Hflag & Heff).
  pose proof (processQueue_resume_cases k request (Threw error) st) as Hcases.
  cbv zeta in Hcases.
  set (mid := cleanup k request (deliver request (Threw error) st)) in Hcases.
  change (processQueue_resume k request (Threw error) st) with st' in Hflag, Heff, Hcases.
  assert (pendingQueues mid = pendingQueues st) as Hq by done.
  assert (awaiting mid = awaiting st) as Ha by done.
  clearbody mid st'.
  split; [| split; [| split; [| done]]].
  - rewrite Heff. by destruct error.
  - unfold pending in *.
    destruct (pendingQueues st !! k) as [[|next rest]|] eqn:Hk; simpl in *;
      subst st'; simpl; by rewrite ?lookup_insert_eq, ?Hq, ?Hk.
  - destruct (pending k st) as [|next rest]; subst st'; simpl;
      by rewrite ?Ha, ?app_nil_r.
Qed.

(** C8 as stated fails for a handler that throws a value that is not an
    [Error]: the caller's promise is rejected with a new [Error] object, not
    with the thrown value. *)
Lemma thrown_string_is_not_propagated_verbatim :
  effects_since one_running (step one_running (HandlerSettles 0 (Threw (JString "boom"))))
  = [EReject 0 (JError (new_Error "boom")); ECleanup "1" (mkRequest "a" 1 0)]
  ∧ EReject 0 (JString "boom")
    ∉ trace (step one_running (HandlerSettles 0 (Threw (JString "boom")))).
Proof.
  split; [reflexivity |].
  apply (bool_decide_unpack _). by vm_compute.
Qed.

(** ** Cancelling *)

(** What [resume] emits does not depend on the state it resumes in. *)
Lemma resume_effects kont threw st :
  effects_since st (resume kont threw st).2
  = match kont with
    | KCancel k =>
        if threw then [EDebug "[cancelRequest] interrupt() threw for chat" k] else []
    | KReset k ctl =>
        (if threw then [EDebug "[resetRequest] interrupt() threw for chat" k] else [])
        ++ match ctl with Some c => [EAbort k c] | None => [] end
    end.
Proof.
  apply effects_since_app.
  destruct kont as [k|k [c|]], threw; simpl; by rewrite <- ?app_assoc, ?app_nil_r.
Qed.


(** While a call of [cancelRequest] is suspended on the interrupt the query
    is still registered, and a call made then interrupts it once more. *)
Lemma cancel_while_suspended_interrupts_again k q st :
  activeQueries st !! k = Some q →
  effects_since (cancelRequest k st).2 (cancelRequest k (cancelRequest k st).2).2
  = [EMarkCancelled k; EInterrupt k q].
Proof.
  intros Hq.
  assert (cancelRequest k st
          = (inr (KCancel k), emit [EInterrupt k q] (cancelledChats_add k st))) as ->
    by (unfold cancelRequest; by rewrite Hq).
  unfold cancelRequest. simpl. rewrite Hq. simpl.
  apply effects_since_app. simpl. by rewrite <- !app_assoc.
Qed.

(** C5: a call of [cancelRequest] for a key with an active query adds the
    key to the cancelled chats and then calls [interrupt] on the query, and
    aborts no controller, whether one is registered or not; the key is
    marked cancelled when the call suspends on the interrupt.  With no
    active query and a registered controller it adds the key to the
    cancelled chats and then aborts the controller.  With neither it does
    nothing. *)
Theorem cancelRequest_marks_then_interrupts_else_aborts
    (k : string) (threw : bool) (st : State) :
  let st' := (cancelRequest_call k threw st).2 in
  match activeQueries st !! k, activeAbortControllers st !! k with
  | Some q, _ =>
      effects_since st st'
      = [EMarkCancelled k; EInterrupt k q]
        ++ (if threw
            then [EDebug "[cancelRequest] interrupt() threw for chat" k] else [])
      ∧ cancelRequest k st
        = (inr (KCancel k), emit [EInterrupt k q] (cancelledChats_add k st))
      ∧ isCancelled k (cancelRequest k st).2 = true
      ∧ isCancelled k st' = true
  | None, Some controller =>
      effects_since st st' = [EMarkCancelled k; EAbort k controller]
      ∧ isCancelled k st' = true
  | None, None => effects_since st st' = [] ∧ st' = st
  end.
Proof.
  unfold cancelRequest_call, cancelRequest.
  destruct (activeQueries st !! k) as [q|];
    [| destruct (activeAbortControllers st !! k) as [c|]]; simpl.
  - split; [| split; [done | split]].
    + apply effects_since_app. destruct threw; simpl; by rewrite <- ?app_assoc.
    + apply isCancelled_true. simpl. set_solver.
    + apply isCancelled_true. destruct threw; simpl; set_solver.
  - split; [apply effects_since_app; simpl; by rewrite <- app_assoc |].
    apply isCancelled_true. simpl. set_solver.
  - split; [| done]. apply (effects_since_app st st []). by rewrite app_nil_r.
Qed.

(** C6: a call of [resetRequest] for a key with an active query adds the
    key to the cancelled chats, calls [interrupt] on the query and, once the
    interrupt has settled, aborts the controller that was registered when
    the call began, if there was one; with no active query and a registered
    controller it adds the key to the cancelled chats and aborts the
    controller; with neither it does nothing.  It returns true exactly when
    a query or a controller was registered, and leaves the key with
    neither. *)
Theorem resetRequest_interrupts_and_aborts
    (k : string) (threw : bool) (st : State) :
  let res := resetRequest_call k threw st in
  res.1 = bool_decide (is_Some (activeQueries st !! k)
                       ∨ is_Some (activeAbortControllers st !! k))
  ∧ effects_since st res.2
    = match activeQueries st !! k, activeAbortControllers st !! k with
      | Some q, controller =>
          [EMarkCancelled k; EInterrupt k q]
          ++ (if threw
              then [EDebug "[resetRequest] interrupt() threw for chat" k] else [])
          ++ match controller with Some c => [EAbort k c] | None => [] end
      | None, Some c => [EMarkCancelled k; EAbort k c]
      | None, None => []
      end
  ∧ isCancelled k res.2 = res.1 || isCancelled k st
  ∧ activeQueries res.2 !! k = None
  ∧ activeAbortControllers res.2 !! k = None.
Proof.
  unfold resetRequest_call, resetRequest.
  destruct (activeQueries st !! k) as [q|] eqn:Hq;
    [| destruct (activeAbortControllers st !! k) as [c|] eqn:Hc].
  - split; [symmetry; apply bool_decide_eq_true_2; left; eauto |].
    simpl. split; [| split; [| split]].
    + apply effects_since_app.
      destruct threw, (activeAbortControllers st !! k); simpl;
        by rewrite <- ?app_assoc.
    + apply isCancelled_true.
      destruct threw, (activeAbortControllers st !! k); simpl; set_solver.
    + destruct threw, (activeAbortControllers st !! k); simpl; apply lookup_delete_eq.
    + destruct threw, (activeAbortControllers st !! k); simpl; apply lookup_delete_eq.
  - split; [symmetry; apply bool_decide_eq_true_2; right; eauto |].
    simpl. split; [apply effects_since_app; simpl; by rewrite <- app_assoc |].
    split; [apply isCancelled_true; simpl; set_solver |].
    split; [done | apply lookup_delete_eq].
  - split; [symmetry; apply bool_decide_eq_false_2; by intros [[? [=]]|[? [=]]] |].
    simpl. split; [apply (effects_since_app st st []); by rewrite app_nil_r |].
    done.
Qed.

(** ** Cancelling an idle key *)

Lemma unregistered_frame k st st' :
  (isProcessing k st' = false → isProcessing k st = false) →
  (activeQueries st !! k = None → activeQueries st' !! k = None) →
  (activeAbortControllers st !! k = None → activeAbortControllers st' !! k = None) →
  unregistered_when_idle k st → unregistered_when_idle k st'.
Proof. intros Hf Hq Hc Hst Hidle. destruct (Hst (Hf Hidle)). auto. Qed.

Lemma lookup_delete_stays_None (m : gmap string nat) k k' :
  m !! k = None → base.delete k' m !! k = None.
Proof. intros Hk. apply lookup_delete_None. by right. Qed.

Lemma unregistered_processQueue k k' st :
  unregistered_when_idle k st → unregistered_when_idle k (processQueue k' st).
Proof.
  destruct (processQueue_cases k' st) as [[-> _]|(r & rest & _ & _ & ->)]; [done |].
  apply unregistered_frame; [| done | done].
  rewrite !isProcessing_false. simpl.
  destruct (decide (k' = k)) as [->|Hne].
  - by rewrite lookup_insert_eq.
  - by rewrite lookup_insert_ne.
Qed.

Lemma unregistered_resume k k' r outcome st :
  unregistered_when_idle k st →
  unregistered_when_idle k (processQueue_resume k' r outcome st).
Proof.
  intros Hst. unfold processQueue_resume.
  set (mid := cleanup k' r (deliver r outcome st)).
  assert (unregistered_when_idle k mid) as Hmid.
  { destruct (decide (k' = k)) as [->|Hne].
    - intros _. subst mid. split; apply (cleanup_clears k r).
    - revert Hst. apply unregistered_frame; subst mid.
      + rewrite !isProcessing_false. simpl. by rewrite lookup_insert_ne.
      + simpl. apply lookup_delete_stays_None.
      + simpl. apply lookup_delete_stays_None. }
  case_bool_decide; [by apply unregistered_processQueue | done].
Qed.

Lemma unregistered_suspend k st (res : (bool + Continuation) * State) :
  processingFlags res.2 = processingFlags st →
  (activeQueries st !! k = None → activeQueries res.2 !! k = None) →
  (activeAbortControllers st !! k = None → activeAbortControllers res.2 !! k = None) →
  unregistered_when_idle k st → unregistered_when_idle k (suspend res).
Proof.
  intros Hf Hq Hc. destruct res as [[b|kont] st1]; simpl in *;
    apply unregistered_frame; try done; unfold isProcessing; simpl; by rewrite Hf.
Qed.

Lemma unregistered_step st c :
  registration_allowed c st = true →
  (∀ k, unregistered_when_idle k st) → ∀ k, unregistered_when_idle k (step st c).
Proof.
  intros Hreg Hst k. specialize (Hst k). revert Hst.
  destruct c as [k' m h|p outcome|k'|k'|i threw|k'|k' ctl|k'|k' q|k'|k']; simpl.
  - intros Hst. apply unregistered_processQueue. revert Hst.
    apply unregistered_frame; by destruct (pendingQueues st !! k').
  - destruct (list_find _ (awaiting st)) as [[i [k' r]]|]; [| done].
    intros Hst. apply unregistered_resume. revert Hst. by apply unregistered_frame.
  - unfold cancelRequest.
    destruct (activeQueries st !! k') as [q|] eqn:Hq;
      [| destruct (activeAbortControllers st !! k') as [ctl|] eqn:Hc]; [| | done].
    + by apply unregistered_suspend.
    + apply unregistered_suspend; [done | done |]. simpl. apply lookup_delete_stays_None.
  - unfold resetRequest.
    destruct (activeQueries st !! k') as [q|] eqn:Hq;
      [| destruct (activeAbortControllers st !! k') as [ctl|] eqn:Hc]; [| | done].
    + by apply unregistered_suspend.
    + apply unregistered_suspend; [done | done |]. simpl. apply lookup_delete_stays_None.
  - destruct (interrupting st !! i) as [[k'|k' ctl]|]; [| | done].
    + apply unregistered_frame; destruct threw; simpl; try done;
        apply lookup_delete_stays_None.
    + apply unregistered_frame; destruct threw, ctl; simpl; try done;
        apply lookup_delete_stays_None.
  - unfold clearQueue. destruct (pendingQueues st !! k') as [queue|]; [| done].
    by apply unregistered_frame.
  - simpl in Hreg. intros Hst Hidle.
    assert (isProcessing k (setAbortController k' ctl st) = isProcessing k st) as Hsame by done.
    rewrite Hsame in Hidle. destruct (Hst Hidle) as [Hq Hc]. simpl.
    rewrite lookup_insert_ne by congruence. done.
  - apply unregistered_frame; [done | done |]. simpl. apply lookup_delete_stays_None.
  - simpl in Hreg. intros Hst Hidle.
    assert (isProcessing k (setActiveQuery k' q st) = isProcessing k st) as Hsame by done.
    rewrite Hsame in Hidle. destruct (Hst Hidle) as [Hq Hc]. simpl.
    rewrite lookup_insert_ne by congruence. done.
  - apply unregistered_frame; [done | | done]. simpl. apply lookup_delete_stays_None.
  - by apply unregistered_frame.
Qed.

Lemma unregistered_run calls st :
  registers_while_processing calls st = true →
  (∀ k, unregistered_when_idle k st) → ∀ k, unregistered_when_idle k (run calls st).
Proof.
  revert st. induction calls as [|c calls IH]; intros st Hreg Hst; [done |].
  simpl in Hreg. apply andb_prop in Hreg as [Hc Hreg].
  apply IH; [done |]. by apply unregistered_step.
Qed.

(** C7: [cancelRequest] returns true exactly when the key had an active
    query or a controller; when it had neither, the call returns false and
    changes nothing, however often it is repeated; and when the handlers
    register their query or controller only while their key is processing, a
    key that is not processing has neither. *)
Theorem cancelRequest_reports_whether_it_acted
    (k : string) (threw : bool) (st : State) :
  (cancelRequest_call k threw st).1
  = bool_decide (is_Some (activeQueries st !! k)
                 ∨ is_Some (activeAbortControllers st !! k))
  ∧ (activeQueries st !! k = None → activeAbortControllers st !! k = None →
       cancelRequest_call k threw st = (false, st)
       ∧ ∀ n, Nat.iter n (λ s, (cancelRequest_call k threw s).2) st = st)
  ∧ (∀ calls, registers_while_processing calls init = true →
       st = run calls init → isProcessing k st = false →
       activeQueries st !! k = None ∧ activeAbortControllers st !! k = None).
Proof.
  split; [| split].
  - unfold cancelRequest_call, cancelRequest.
    destruct (activeQueries st !! k) as [q|] eqn:Hq;
      [| destruct (activeAbortControllers st !! k) as [c|] eqn:Hc].
    + symmetry. apply bool_decide_eq_true_2. left; eauto.
    + symmetry. apply bool_decide_eq_true_2. right; eauto.
    + symmetry. apply bool_decide_eq_false_2. by intros [[? [=]]|[? [=]]].
  - intros Hq Hc.
    assert (cancelRequest_call k threw st = (false, st)) as Hcall
      by (unfold cancelRequest_call, cancelRequest; by rewrite Hq, Hc).
    split; [done |]. induction n as [|n IH]; [done |].
    simpl. by rewrite IH, Hcall.
  - intros calls Hreg -> Hidle.
    by apply (unregistered_run calls init Hreg).
Qed.

Lemma cancelRequest_reports_whether_it_acted_witness :
  cancelRequest_call "1" false settled = (false, settled)
  ∧ Nat.iter 3 (λ s, (cancelRequest_call "1" false s).2) settled = settled.
Proof.
  destruct (cancelRequest_reports_whether_it_acted "1" false settled)
    as (_ & Hidle & Hreach).
  destruct (Hreach settled_calls) as [Hq Hc]; [reflexivity | reflexivity | reflexivity |].
  destruct (Hidle Hq Hc) as [Hcall Hiter]. split; [exact Hcall | exact (Hiter 3%nat)].
Defined.




(** ** Clearing the queue *)






End RequestQueueProps.

(* ===================================================================== *)
(** * Further properties of the request queue *)
(* ===================================================================== *)

Module RequestQueueMore.
Import RequestQueue RequestQueueViews RequestQueueProps.

Implicit Types (st : State) (k sessionKey : string) (r request : QueuedRequest)
  (t es : list Effect) (e : Effect) (calls : list Call) (c : Call).

(** Rewrites [effects_since st st'] into the effects that [st'] appended. *)
Ltac since_trace :=
  match goal with
  | |- context [effects_since ?a ?b] =>
      erewrite (effects_since_app a b);
      [| simpl; rewrite <- ?app_assoc; reflexivity]
  end.

(** ** Session keys do not interfere *)

Lemma elem_of_remove_other k k' (s : gset string) :
  k' ≠ k → k ∈ s ∖ {[k']} ↔ k ∈ s.
Proof.
  intros Hne. rewrite elem_of_difference, elem_of_singleton.
  split; [tauto |]. intros Hin. split; [done | congruence].
Qed.

Lemma key_view_frame k st st' :
  pendingQueues st' !! k = pendingQueues st !! k →
  processingFlags st' !! k = processingFlags st !! k →
  in_flight k st' = in_flight k st →
  activeQueries st' !! k = activeQueries st !! k →
  activeAbortControllers st' !! k = activeAbortControllers st !! k →
  (k ∈ cancelledChats st' ↔ k ∈ cancelledChats st) →
  key_view k st' = key_view k st.
Proof.
  intros Hq Hf Hi Ha Hc Hx. unfold key_view. rewrite Hq, Hf, Hi, Ha, Hc.
  f_equal. unfold isCancelled. by apply bool_decide_ext.
Qed.

Lemma key_view_processQueue k k' st :
  k' ≠ k → key_view k (processQueue k' st) = key_view k st.
Proof.
  intros Hne.
  destruct (processQueue_cases k' st) as [[-> _]|(r & rest & _ & _ & ->)]; [done |].
  apply key_view_frame; simpl; try done; try by rewrite lookup_insert_ne.
  unfold in_flight. simpl. rewrite in_flight_snoc.
  rewrite decide_False by done. by rewrite app_nil_r.
Qed.

Lemma key_view_resume k k' r outcome st :
  k' ≠ k → key_view k (processQueue_resume k' r outcome st) = key_view k st.
Proof.
  intros Hne. unfold processQueue_resume.
  set (mid := cleanup k' r (deliver r outcome st)).
  assert (key_view k mid = key_view k st) as Hmid.
  { subst mid. apply key_view_frame; simpl; try done;
      try by rewrite ?lookup_insert_ne, ?lookup_delete_ne.
    by apply elem_of_remove_other. }
  case_bool_decide; [| done]. by rewrite key_view_processQueue.
Qed.

Lemma key_view_suspend k st (res : (bool + Continuation) * State) :
  key_view k res.2 = key_view k st → key_view k (suspend res) = key_view k st.
Proof. destruct res as [[b|kont] st1]; simpl; [done |]. by intros <-. Qed.

Lemma cancelledChats_add_other k k' (s : gset string) :
  k' ≠ k → k ∈ {[k']} ∪ s ↔ k ∈ s.
Proof.
  intros Hne. rewrite elem_of_union, elem_of_singleton.
  split; [intros [?|?]; [congruence | done] | tauto].
Qed.

Lemma key_view_step_other st c k :
  call_key st c ≠ Some k → key_view k (step st c) = key_view k st.
Proof.
  destruct c as [k' m h|p outcome|k'|k'|i threw|k'|k' ctl|k'|k' q|k'|k']; simpl;
    intros Hkey.
  - assert (k' ≠ k) as Hne by congruence.
    unfold queueRequest. simpl. rewrite key_view_processQueue by done.
    apply key_view_frame; simpl; try done; try by destruct (pendingQueues st !! k').
    rewrite lookup_alter_ne by done.
    destruct (pendingQueues st !! k'); simpl; [done | by rewrite lookup_insert_ne].
  - destruct (list_find _ (awaiting st)) as [[i [k' r]]|] eqn:Hfind; [| done].
    simpl in Hkey. assert (k' ≠ k) as Hne by congruence.
    rewrite key_view_resume by done.
    apply list_find_Some in Hfind as (Hi & _ & _).
    apply key_view_frame; simpl; try done.
    unfold in_flight. simpl. by rewrite (filter_delete_other k _ i k' r).
  - assert (k' ≠ k) as Hne by congruence.
    apply key_view_suspend. unfold cancelRequest.
    destruct (activeQueries st !! k') as [q|];
      [| destruct (activeAbortControllers st !! k') as [ctl|]]; simpl; [| | done].
    + apply key_view_frame; simpl; try done. by apply cancelledChats_add_other.
    + apply key_view_frame; simpl; try done;
        [by rewrite lookup_delete_ne | by apply cancelledChats_add_other].
  - assert (k' ≠ k) as Hne by congruence.
    apply key_view_suspend. unfold resetRequest.
    destruct (activeQueries st !! k') as [q|];
      [| destruct (activeAbortControllers st !! k') as [ctl|]]; simpl; [| | done].
    + apply key_view_frame; simpl; try done. by apply cancelledChats_add_other.
    + apply key_view_frame; simpl; try done;
        [by rewrite lookup_delete_ne | by apply cancelledChats_add_other].
  - destruct (interrupting st !! i) as [[k'|k' ctl]|] eqn:Hi; [| | done];
      simpl in Hkey; assert (k' ≠ k) as Hne by congruence.
    + destruct threw; simpl; apply key_view_frame; simpl; try done;
        by rewrite lookup_delete_ne.
    + destruct threw, ctl; simpl; apply key_view_frame; simpl; try done;
        by rewrite lookup_delete_ne.
  - assert (k' ≠ k) as Hne by congruence.
    unfold clearQueue. destruct (pendingQueues st !! k'); simpl; [| done].
    apply key_view_frame; simpl; try done. by rewrite lookup_insert_ne.
  - assert (k' ≠ k) as Hne by congruence.
    apply key_view_frame; simpl; try done. by rewrite lookup_insert_ne.
  - assert (k' ≠ k) as Hne by congruence.
    apply key_view_frame; simpl; try done. by rewrite lookup_delete_ne.
  - assert (k' ≠ k) as Hne by congruence.
    apply key_view_frame; simpl; try done. by rewrite lookup_insert_ne.
  - assert (k' ≠ k) as Hne by congruence.
    apply key_view_frame; simpl; try done. by rewrite lookup_delete_ne.
  - assert (k' ≠ k) as Hne by congruence.
    apply key_view_frame; simpl; try done.
    by apply elem_of_remove_other.
Qed.

(** X1: a call for one session key changes nothing of what the module
    holds for any other key: its array, its flag, its suspended activations,
    its query, its controller and its cancelled mark. *)
Theorem calls_leave_other_keys_alone (st : State) (c : Call) (k : string) :
  call_key st c ≠ Some k → key_view k (step st c) = key_view k st.
Proof. apply key_view_step_other. Qed.

Lemma calls_leave_other_keys_alone_witness :
  key_view "2" (step three_submitted (CallClearQueue "1")) = key_view "2" three_submitted.
Proof. apply calls_leave_other_keys_alone. simpl. discriminate. Defined.

(** ** No request is left waiting on an idle key *)

Lemma busy_or_empty_view k st st' :
  key_view k st' = key_view k st →
  isProcessing k st = true ∨ pending k st = [] →
  isProcessing k st' = true ∨ pending k st' = [].
Proof.
  intros Hview. unfold isProcessing, pending.
  assert (processingFlags st' !! k = processingFlags st !! k) as ->
    by exact (f_equal view_flag Hview).
  assert (pendingQueues st' !! k = pendingQueues st !! k) as ->
    by exact (f_equal view_queue Hview).
  done.
Qed.

Lemma busy_or_empty_processQueue k st :
  isProcessing k (processQueue k st) = true ∨ pending k (processQueue k st) = [].
Proof.
  destruct (processQueue_cases k st) as [[-> Hor]|(r & rest & _ & _ & ->)]; [done |].
  left. apply isProcessing_true. simpl. by rewrite lookup_insert_eq.
Qed.

Lemma busy_or_empty_step k st c :
  isProcessing k st = true ∨ pending k st = [] →
  isProcessing k (step st c) = true ∨ pending k (step st c) = [].
Proof.
  intros Hst. destruct (decide (call_key st c = Some k)) as [Hkey|Hkey];
    [| apply (busy_or_empty_view k st); [by apply key_view_step_other | done]].
  destruct c as [k' m h|p outcome|k'|k'|i threw|k'|k' ctl|k'|k' q|k'|k'];
    simpl in Hkey |- *.
  - injection Hkey as ->. apply busy_or_empty_processQueue.
  - destruct (list_find _ (awaiting st)) as [[i [k' r]]|]; [| done].
    simpl in Hkey. injection Hkey as ->. unfold processQueue_resume.
    case_bool_decide as Hpos; [apply busy_or_empty_processQueue |].
    right. rewrite getQueuePosition_pending in Hpos.
    destruct (pending k _); [done | simpl in Hpos; lia].
  - unfold cancelRequest.
    destruct (activeQueries st !! k') as [q|];
      [| destruct (activeAbortControllers st !! k') as [ctl|]]; by simpl.
  - unfold resetRequest.
    destruct (activeQueries st !! k') as [q|];
      [| destruct (activeAbortControllers st !! k') as [ctl|]]; by simpl.
  - destruct (interrupting st !! i) as [[k'|k' ctl]|]; [| | done].
    + by destruct threw.
    + by destruct threw, ctl.
  - injection Hkey as ->. right. unfold clearQueue, pending in *.
    destruct (pendingQueues st !! k) as [queue|] eqn:Hq; simpl.
    + by rewrite lookup_insert_eq.
    + by rewrite Hq.
  - done.
  - done.
  - done.
  - done.
  - done.
Qed.

Lemma busy_or_empty_run calls k :
  isProcessing k (run calls init) = true ∨ pending k (run calls init) = [].
Proof.
  induction calls as [|c calls IH] using rev_ind; [by right |].
  rewrite run_snoc. by apply busy_or_empty_step.
Qed.

(** X2: in every state the module can reach, a key with requests waiting
    in its array is processing: no request is left waiting while no call of
    its key is in flight. *)
Theorem waiting_requests_have_a_call_in_flight (calls : list Call) (k : string) :
  isProcessing k (run calls init) = true ∨ getQueuePosition k (run calls init) = 0%nat.
Proof.
  destruct (busy_or_empty_run calls k) as [Hbusy|Hempty]; [by left |].
  right. by rewrite getQueuePosition_pending, Hempty.
Qed.

(** In every state the module can reach, [queueRequest] returns the
    next promise; for a key that is not processing it pushes the request and
    invokes its handler at once, leaving the array empty and the key
    processing; for a key that is processing it only pushes the request
    behind those that wait, and invokes nothing. *)
Lemma queueRequest_starts_at_once_or_waits
    (calls : list Call) (k message : string) (handler : nat) :
  let st := run calls init in
  let res := queueRequest k message handler st in
  let request := mkRequest message handler (nextPromise st) in
  res.1 = nextPromise st
  ∧ nextPromise res.2 = S (nextPromise st)
  ∧ if isProcessing k st
    then effects_since st res.2 = [EPush k request]
         ∧ pending k res.2 = pending k st ++ [request]
         ∧ awaiting res.2 = awaiting st
    else effects_since st res.2 = [EPush k request; EInvoke k request]
         ∧ pending k res.2 = []
         ∧ awaiting res.2 = awaiting st ++ [(k, request)]
         ∧ isProcessing k res.2 = true.
Proof.
  intros st res request.
  pose proof (busy_or_empty_run calls k) as Hst. fold st in Hst.
  subst res. unfold queueRequest. simpl. fold request.
  match goal with |- context [processQueue k ?s] => set (st3 := s) end.
  assert (pendingQueues st3 !! k = Some (pending k st ++ [request])) as Hq3.
  { subst st3. simpl. rewrite lookup_alter_eq. unfold pending.
    destruct (pendingQueues st !! k) as [queue|] eqn:Hq; simpl.
    - by rewrite Hq.
    - by rewrite lookup_insert_eq. }
  assert (isProcessing k st3 = isProcessing k st) as Hf3
    by (subst st3; unfold isProcessing; simpl; by destruct (pendingQueues st !! k)).
  assert (trace st3 = trace st ++ [EPush k request]) as Ht3
    by (subst st3; simpl; by destruct (pendingQueues st !! k)).
  assert (awaiting st3 = awaiting st) as Ha3
    by (subst st3; simpl; by destruct (pendingQueues st !! k)).
  assert (nextPromise st3 = S (nextPromise st)) as Hn3
    by (subst st3; simpl; by destruct (pendingQueues st !! k)).
  clearbody st3.
  split; [done |].
  destruct (isProcessing k st) eqn:Hflag.
  - assert (processQueue k st3 = st3) as ->
      by (unfold processQueue; by rewrite Hf3).
    split; [done |]. split; [by apply effects_since_app |].
    split; [by apply pending_lookup | done].
  - destruct Hst as [? | Hempty]; [done |]. rewrite Hempty in Hq3. simpl in Hq3.
    rewrite (processQueue_idle_head k st3 request []) by done.
    split; [done |].
    split; [apply effects_since_app; simpl; by rewrite Ht3, <- app_assoc |].
    split; [unfold pending; simpl; by rewrite lookup_insert_eq |].
    split; [simpl; by rewrite Ha3 |].
    apply isProcessing_true. simpl. by rewrite lookup_insert_eq.
Qed.

(** ** Handlers are started, in the order of the submissions *)

(** When the handler in flight settles, the first waiting request leaves
    the array. *)
Lemma processQueue_resume_pending k request outcome st :
  pending k (processQueue_resume k request outcome st) = tail (pending k st).
Proof.
  pose proof (processQueue_resume_cases k request outcome st) as Hcases.
  cbv zeta in Hcases.
  set (mid := cleanup k request (deliver request outcome st)) in Hcases.
  assert (pendingQueues mid = pendingQueues st) as Hq by done.
  clearbody mid. unfold pending in *.
  destruct (pendingQueues st !! k) as [[|next rest]|] eqn:Hk; simpl in *;
    rewrite Hcases; simpl; by rewrite ?lookup_insert_eq, ?Hq, ?Hk.
Qed.

(** The settling of the handler of a request of the key, as a step. *)
Lemma settling_starts_the_next k p outcome i request st :
  list_find (λ f, promise f.2 = p) (awaiting st) = Some (i, (k, request)) →
  effects_since st (step st (HandlerSettles p outcome))
  = [settlement request outcome; ECleanup k request]
    ++ match pending k st with
       | [] => []
       | next :: _ => [EInvoke k next]
       end
  ∧ pending k (step st (HandlerSettles p outcome)) = tail (pending k st)
  ∧ isProcessing k (step st (HandlerSettles p outcome))
    = bool_decide (pending k st ≠ []).
Proof.
  intros Hfind. simpl. rewrite Hfind.
  set (st1 := upd_awaiting (base.delete i) st).
  pose proof (processQueue_resume_summary k request outcome st1)
    as (_ & Hflag & Heff).
  pose proof (processQueue_resume_pending k request outcome st1) as Hpending.
  assert (pending k st1 = pending k st) as Hp by done.
  assert (effects_since st (processQueue_resume k request outcome st1)
          = effects_since st1 (processQueue_resume k request outcome st1)) as Hsince
    by done.
  rewrite Hp in Hflag, Heff, Hpending. by rewrite Hsince.
Qed.

(** C2: in every state the module can reach, and for every session key,
    handlers are started, and in the order of the submissions.  The requests
    pushed for the key are those of the calls of [queueRequest] for the key,
    in the order of the calls, and are pairwise distinct; the requests whose
    handler was invoked, in the order of the invocations, followed by the
    requests still waiting, in the order of the array, form a subsequence of
    the pushed requests in their order, and the whole sequence when
    [clearQueue] was never called for the key; no request is invoked twice.
    No request waits while its key is idle: a key with waiting requests is
    processing.  A call of [queueRequest] for a key that is not processing
    invokes the handler of its request within the call, and for a key that
    is processing it only pushes the request.  When the handler in flight
    settles, the handler of the first waiting request is invoked in the same
    step, right after the clean-up, and that request leaves the array. *)
Theorem handlers_start_in_submission_order (calls : list Call) (k : string) :
  let st := run calls init in
  ((λ r, (message r, handler r)) <$> pushed k (trace st) = submissions k calls
   ∧ NoDup (promise <$> pushed k (trace st))
   ∧ invoked k (trace st) ++ pending k st `sublist_of` pushed k (trace st)
   ∧ NoDup (invoked k (trace st))
   ∧ (forallb (λ c, negb (clears_queue k c)) calls = true →
        invoked k (trace st) ++ pending k st = pushed k (trace st)))
  ∧ (isProcessing k st = true ∨ pending k st = [])
  ∧ (∀ message handler,
       effects_since st (step st (CallQueueRequest k message handler))
       = if isProcessing k st
         then [EPush k (mkRequest message handler (nextPromise st))]
         else [EPush k (mkRequest message handler (nextPromise st));
               EInvoke k (mkRequest message handler (nextPromise st))])
  ∧ (∀ p outcome i request,
       list_find (λ f, promise f.2 = p) (awaiting st) = Some (i, (k, request)) →
       effects_since st (step st (HandlerSettles p outcome))
       = [settlement request outcome; ECleanup k request]
         ++ match pending k st with
            | [] => []
            | next :: _ => [EInvoke k next]
            end
       ∧ pending k (step st (HandlerSettles p outcome)) = tail (pending k st)
       ∧ isProcessing k (step st (HandlerSettles p outcome))
         = bool_decide (pending k st ≠ [])).
Proof.
  intros st.
  split; [apply submission_order_kept |].
  split; [apply busy_or_empty_run |]. split.
  - intros message handler.
    pose proof (queueRequest_starts_at_once_or_waits calls k message handler)
      as (_ & _ & Hstart).
    cbv zeta in Hstart. fold st in Hstart.
    change (step st (CallQueueRequest k message handler))
      with (queueRequest k message handler st).2.
    destruct (isProcessing k st); by destruct Hstart as [-> _].
  - intros p outcome i request. apply settling_starts_the_next.
Qed.

(** Three requests submitted in a row and settled each in its turn: the
    handlers were invoked in the order of the submissions, all of them. *)
Lemma handlers_start_in_submission_order_witness :
  forallb (λ c, negb (clears_queue "1" c)) three_all_settled = true
  ∧ invoked "1" (trace (run three_all_settled init))
    = [mkRequest "A" 1 0; mkRequest "B" 2 1; mkRequest "C" 3 2]
  ∧ (message <$> invoked "1" (trace (run three_all_settled init)),
     handler <$> invoked "1" (trace (run three_all_settled init)))
    = (fst <$> submissions "1" three_all_settled,
       snd <$> submissions "1" three_all_settled).
Proof.
  destruct (handlers_start_in_submission_order three_all_settled "1")
    as ((Hsub & _ & _ & _ & Hall) & Hbusy & _).
  split; [reflexivity |].
  destruct Hbusy as [Hbusy | Hempty]; [discriminate Hbusy |].
  specialize (Hall eq_refl). rewrite Hempty, app_nil_r in Hall.
  split; [rewrite Hall; reflexivity |].
  rewrite <- Hsub, Hall. reflexivity.
Defined.

(** ** Cancelling leaves the queue alone *)

(** X3: a call of [cancelRequest] or [resetRequest], to its end, leaves
    every array of waiting requests, every suspended activation of
    [processQueue], every processing flag and the supply of promises as they
    were, and does nothing but mark, interrupt, abort and log: it settles no
    promise and invokes no handler. *)
Theorem cancelling_leaves_the_queue_alone (k : string) (threw : bool) (st : State) :
  let cancelled := (cancelRequest_call k threw st).2 in
  let reset := (resetRequest_call k threw st).2 in
  (pendingQueues cancelled = pendingQueues st
   ∧ awaiting cancelled = awaiting st
   ∧ processingFlags cancelled = processingFlags st
   ∧ nextPromise cancelled = nextPromise st
   ∧ forallb cancellation_effect (effects_since st cancelled) = true)
  ∧ (pendingQueues reset = pendingQueues st
     ∧ awaiting reset = awaiting st
     ∧ processingFlags reset = processingFlags st
     ∧ nextPromise reset = nextPromise st
     ∧ forallb cancellation_effect (effects_since st reset) = true).
Proof.
  unfold cancelRequest_call, resetRequest_call, cancelRequest, resetRequest.
  destruct (activeQueries st !! k) as [q|];
    [| destruct (activeAbortControllers st !! k) as [ctl|]]; simpl.
  - split.
    + destruct threw; simpl; repeat (split; [done |]); since_trace; done.
    + destruct threw, (activeAbortControllers st !! k) as [ctl|]; simpl;
        repeat (split; [done |]); since_trace; done.
  - split; repeat (split; [done |]); since_trace; done.
  - split; repeat (split; [done |]);
      by rewrite (effects_since_app st st []) by (by rewrite app_nil_r).
Qed.

(** ** The life of a request *)

Lemma lifecycle_app p t es :
  lifecycle p (t ++ es) = foldl (advance p) (lifecycle p t) es.
Proof. unfold lifecycle. apply foldl_app. Qed.

Lemma lifecycle_snoc p t e : lifecycle p (t ++ [e]) = advance p (lifecycle p t) e.
Proof. by rewrite lifecycle_app. Qed.

Lemma advance_push p k r :
  promise r = p → advance p (Some Fresh) (EPush k r) = Some (Waiting k r).
Proof. intros Hp. unfold advance. by rewrite decide_True. Qed.

Lemma advance_invoke p k r :
  promise r = p → advance p (Some (Waiting k r)) (EInvoke k r) = Some (Running k r).
Proof. intros Hp. unfold advance. by rewrite !decide_True. Qed.

Lemma advance_settlement p k r outcome :
  promise r = p → advance p (Some (Running k r)) (settlement r outcome) = Some Settled.
Proof. intros Hp. destruct outcome; unfold advance; simpl; by rewrite decide_True. Qed.

Lemma concerns_settlement p r outcome :
  promise r ≠ p → concerns p (settlement r outcome) = false.
Proof. intros Hp. destruct outcome; simpl; by apply bool_decide_eq_false_2. Qed.

#[local] Arguments advance : simpl never.

Lemma advance_silent p acc e : concerns p e = false → advance p acc e = acc.
Proof.
  destruct acc as [ph|]; [| done].
  destruct e; unfold advance; simpl; try done; intros Hc%bool_decide_eq_false;
    by rewrite decide_False.
Qed.

Lemma lifecycle_silent p t es :
  forallb (λ e, negb (concerns p e)) es = true →
  lifecycle p (t ++ es) = lifecycle p t.
Proof.
  rewrite lifecycle_app. generalize (lifecycle p t).
  induction es as [|e es IH]; intros acc Hes; [done |].
  simpl in *. apply andb_prop in Hes as [He Hes].
  rewrite advance_silent by (by apply negb_true_iff). by apply IH.
Qed.

Lemma filter_delete_False {A} (P : A → Prop) `{!∀ x, Decision (P x)}
    (l : list A) i x :
  l !! i = Some x → ¬ P x → filter P (base.delete i l) = filter P l.
Proof.
  intros Hi Hx. rewrite <- (take_drop_middle l i x Hi) at 2.
  rewrite delete_take_drop, !filter_app. by rewrite filter_cons_False.
Qed.

Lemma filter_delete_singleton {A} (P : A → Prop) `{!∀ x, Decision (P x)}
    (l : list A) i x y :
  l !! i = Some x → P x → filter P l = [y] →
  x = y ∧ filter P (base.delete i l) = [].
Proof.
  intros Hi Hx. rewrite <- (take_drop_middle l i x Hi) at 1.
  rewrite delete_take_drop, !filter_app, filter_cons_True by done.
  destruct (filter P (take i l)) as [|z l1]; simpl.
  - by intros [= -> ->].
  - intros [= _ Hnil]. by apply app_nil in Hnil as [_ [=]].
Qed.

Lemma placed_frame p st st' es :
  (∀ k, pending k st' = pending k st) →
  awaiting st' = awaiting st →
  nextPromise st' = nextPromise st →
  trace st' = trace st ++ es →
  forallb (λ e, negb (concerns p e)) es = true →
  placed p st → placed p st'.
Proof.
  intros Hq Ha Hn Ht Hes. unfold placed.
  rewrite Ht, lifecycle_silent, Ha, Hn by done.
  destruct (lifecycle p (trace st)) as [ph|]; [| done].
  intros (Hpend & Haw & Hnext). split; [| done].
  intros k. by rewrite Hq.
Qed.

Lemma pending_insert k k' queue st :
  pending k (upd_pendingQueues (<[k' := queue]>) st)
  = if decide (k' = k) then queue else pending k st.
Proof.
  unfold pending. simpl. destruct (decide (k' = k)) as [->|Hne].
  - by rewrite lookup_insert_eq.
  - by rewrite lookup_insert_ne.
Qed.

Lemma placed_started p k' r rest st :
  pendingQueues st !! k' = Some (r :: rest) →
  placed p st → placed p (started k' r rest st).
Proof.
  intros Hq. unfold placed. simpl. rewrite lifecycle_snoc.
  destruct (lifecycle p (trace st)) as [ph|]; [| done].
  intros (Hpend & Haw & Hnext).
  assert (∀ k, pending k (started k' r rest st)
               = if decide (k' = k) then rest else pending k st) as Hnew.
  { intros k. unfold pending. simpl. destruct (decide (k' = k)) as [->|Hne].
    - by rewrite lookup_insert_eq.
    - by rewrite lookup_insert_ne. }
  pose proof (Hpend k') as Hk'. rewrite (pending_lookup k' st _ Hq) in Hk'.
  destruct (decide (promise r = p)) as [Hp|Hp].
  - rewrite filter_cons_True in Hk' by done.
    destruct ph as [|k0 r0|k0 r0|]; try done.
    destruct (decide (k0 = k')) as [->|Hne]; [| done].
    injection Hk' as -> Hrest.
    rewrite advance_invoke by done.
    split; [| split; [| done]].
    + intros k. rewrite Hnew. destruct (decide (k' = k)) as [->|Hne]; [done |].
      specialize (Hpend k). by rewrite decide_False in Hpend.
    + rewrite filter_app, Haw. by rewrite filter_cons_True.
  - rewrite filter_cons_False in Hk' by done.
    rewrite advance_silent by (simpl; by apply bool_decide_eq_false_2).
    split; [| split; [| done]].
    + intros k. rewrite Hnew. destruct (decide (k' = k)) as [->|Hne]; [done |].
      apply Hpend.
    + rewrite filter_app, Haw. rewrite filter_cons_False by done.
      by rewrite app_nil_r.
Qed.

Lemma placed_processQueue p k' st : placed p st → placed p (processQueue k' st).
Proof.
  destruct (processQueue_cases k' st) as [[-> _]|(r & rest & _ & Hq & ->)];
    [done | by apply placed_started].
Qed.

Lemma placed_settle p st i k' r outcome :
  awaiting st !! i = Some (k', r) →
  placed p st →
  placed p (processQueue_resume k' r outcome (upd_awaiting (base.delete i) st)).
Proof.
  intros Hi Hst. unfold processQueue_resume.
  set (mid := cleanup k' r (deliver r outcome (upd_awaiting (base.delete i) st))).
  assert (placed p mid) as Hmid.
  { revert Hst. subst mid. unfold placed. simpl.
    rewrite !lifecycle_snoc.
    rewrite (advance_silent p _ (ECleanup k' r)) by done.
    destruct (lifecycle p (trace st)) as [ph|]; [| done].
    intros (Hpend & Haw & Hnext).
    destruct (decide (promise r = p)) as [Hp|Hp].
    - assert (filter (λ f : string * QueuedRequest, promise f.2 = p) (awaiting st) ≠ [])
        as Hsome.
      { rewrite <- (take_drop_middle _ i (k', r) Hi), filter_app,
          filter_cons_True by done.
        intros Hnil. by apply app_nil in Hnil as [_ [=]]. }
      destruct ph as [|k0 r0|k0 r0|]; try done.
      destruct (filter_delete_singleton _ _ i (k', r) (k0, r0) Hi Hp Haw)
        as [[= -> ->] Hnil].
      rewrite advance_settlement by done.
      split; [done | split; [done | tauto]].
    - rewrite (filter_delete_False _ _ i (k', r) Hi) by done.
      by rewrite advance_silent by (by apply concerns_settlement). }
  case_bool_decide; [by apply placed_processQueue | done].
Qed.

Lemma rejections_of_others p ph (queue : list QueuedRequest) :
  filter (λ r, promise r = p) queue = [] →
  foldl (advance p) (Some ph)
    ((λ request, EReject (promise request) queueCleared) <$> queue) = Some ph.
Proof.
  induction queue as [|r queue IH]; [done |]. simpl.
  destruct (decide (promise r = p)) as [Hp|Hp].
  - by rewrite filter_cons_True.
  - rewrite filter_cons_False by done.
    by rewrite advance_silent by (simpl; by apply bool_decide_eq_false_2).
Qed.

Lemma rejections_of_one p k r (queue : list QueuedRequest) :
  filter (λ r, promise r = p) queue = [r] →
  foldl (advance p) (Some (Waiting k r))
    ((λ request, EReject (promise request) queueCleared) <$> queue) = Some Settled.
Proof.
  induction queue as [|r' queue IH]; [done |]. simpl.
  destruct (decide (promise r' = p)) as [Hp|Hp].
  - rewrite filter_cons_True by done. intros [= -> Hnil].
    assert (advance p (Some (Waiting k r)) (EReject (promise r) queueCleared)
            = Some Settled) as -> by (unfold advance; by rewrite decide_True).
    by apply rejections_of_others.
  - rewrite filter_cons_False by done.
    by rewrite advance_silent by (simpl; by apply bool_decide_eq_false_2).
Qed.

(** [queueRequest] is a push followed by [processQueue]. *)
Lemma queueRequest_pushed k m h st :
  ∃ st3,
    (queueRequest k m h st).2 = processQueue k st3
    ∧ (∀ k0, pending k0 st3
             = pending k0 st
               ++ (if decide (k = k0) then [mkRequest m h (nextPromise st)] else []))
    ∧ awaiting st3 = awaiting st
    ∧ nextPromise st3 = S (nextPromise st)
    ∧ trace st3 = trace st ++ [EPush k (mkRequest m h (nextPromise st))].
Proof.
  unfold queueRequest. simpl. eexists. split; [reflexivity |].
  split; [| by destruct (pendingQueues st !! k)].
  intros k0. unfold pending. simpl. destruct (decide (k = k0)) as [->|Hne].
  - rewrite lookup_alter_eq.
    destruct (pendingQueues st !! k0) as [queue|] eqn:Hq; simpl.
    + by rewrite Hq.
    + by rewrite lookup_insert_eq.
  - rewrite lookup_alter_ne, app_nil_r by done.
    destruct (pendingQueues st !! k) as [queue|] eqn:Hq; simpl; [done |].
    by rewrite lookup_insert_ne.
Qed.

Ltac placed_by_frame p st H :=
  eapply (placed_frame p st);
  [done | done | done
  | simpl; rewrite <- ?app_assoc; first [reflexivity | symmetry; apply app_nil_r]
  | done | exact H].

Lemma placed_step p st c : placed p st → placed p (step st c).
Proof.
  intros Hst.
  destruct c as [k' m h|p0 outcome|k'|k'|i threw|k'|k' ctl|k'|k' q|k'|k'].
  { change (step st (CallQueueRequest k' m h)) with (queueRequest k' m h st).2.
    destruct (queueRequest_pushed k' m h st) as (st3 & -> & Hnew & Haw' & Hn' & Ht').
    apply placed_processQueue.
    revert Hst. unfold placed. rewrite Ht', lifecycle_snoc, Haw', Hn'.
    destruct (lifecycle p (trace st)) as [ph|]; [| done].
    intros (Hpend & Haw & Hnext).
    destruct (decide (nextPromise st = p)) as [Hp|Hp].
    + destruct ph as [|k0 r0|k0 r0|]; try lia.
      rewrite advance_push by done.
      split; [| split; [done | simpl; lia]].
      intros k. rewrite Hnew, filter_app, Hpend.
      destruct (decide (k' = k)) as [->|Hne]; simpl.
      * by rewrite filter_cons_True.
      * done.
    + rewrite advance_silent by (simpl; by apply bool_decide_eq_false_2).
      split; [| split; [done |]].
      * intros k. rewrite Hnew, filter_app, Hpend.
        destruct (decide (k' = k)) as [->|Hne]; simpl.
        -- rewrite filter_cons_False by done. by rewrite app_nil_r.
        -- by rewrite app_nil_r.
      * destruct ph; simpl in *; lia. }
  all: simpl.
  - destruct (list_find _ (awaiting st)) as [[i [k' r]]|] eqn:Hfind; [| done].
    apply list_find_Some in Hfind as (Hi & _ & _). by apply placed_settle.
  - unfold cancelRequest.
    destruct (activeQueries st !! k') as [q|];
      [| destruct (activeAbortControllers st !! k') as [ctl|]]; simpl; [| | done];
      placed_by_frame p st Hst.
  - unfold resetRequest.
    destruct (activeQueries st !! k') as [q|];
      [| destruct (activeAbortControllers st !! k') as [ctl|]]; simpl; [| | done];
      placed_by_frame p st Hst.
  - destruct (interrupting st !! i) as [[k'|k' ctl]|]; [| | done].
    + destruct threw; simpl; placed_by_frame p st Hst.
    + destruct threw, ctl as [ctl|]; simpl; placed_by_frame p st Hst.
  - unfold clearQueue.
    destruct (pendingQueues st !! k') as [queue|] eqn:Hq; simpl; [| done].
    revert Hst. unfold placed. simpl. rewrite lifecycle_app.
    destruct (lifecycle p (trace st)) as [ph|]; [| done].
    intros (Hpend & Haw & Hnext).
    pose proof (Hpend k') as Hk'. rewrite (pending_lookup k' st _ Hq) in Hk'.
    assert (∀ k, pending k (upd_pendingQueues <[k':=[]]>
                   (emit ((λ request, EReject (promise request) queueCleared) <$> queue) st))
                 = if decide (k' = k) then [] else pending k st) as Hnew.
    { intros k. unfold pending. simpl. destruct (decide (k' = k)) as [->|Hne].
      - by rewrite lookup_insert_eq.
      - by rewrite lookup_insert_ne. }
    destruct ph as [|k0 r0|k0 r0|];
      try (rewrite (rejections_of_others p _ queue Hk'); split; [| done];
           intros k; rewrite Hnew; destruct (decide (k' = k)); [done | apply Hpend]).
    destruct (decide (k0 = k')) as [->|Hne].
    + rewrite (rejections_of_one p k' r0 queue Hk').
      split; [| split; [done | tauto]].
      intros k. rewrite Hnew. destruct (decide (k' = k)) as [->|Hne]; [done |].
      specialize (Hpend k). by rewrite decide_False in Hpend.
    + rewrite (rejections_of_others p _ queue Hk'). split; [| done].
      intros k. rewrite Hnew. destruct (decide (k' = k)) as [->|Hne'].
      * by rewrite decide_False.
      * apply Hpend.
  - placed_by_frame p st Hst.
  - placed_by_frame p st Hst.
  - placed_by_frame p st Hst.
  - placed_by_frame p st Hst.
  - placed_by_frame p st Hst.
Qed.

Lemma placed_run calls p : placed p (run calls init).
Proof.
  induction calls as [|c calls IH] using rev_ind.
  - unfold placed. simpl. split; [done | split; [done | lia]].
  - rewrite run_snoc. by apply placed_step.
Qed.

Lemma advance_count p ph0 e ph :
  advance p (Some ph0) e = Some ph →
  ((if decide (ph0 = Settled) then 1 else 0) + (if settles p e then 1 else 0))%nat
  = if decide (ph = Settled) then 1%nat else 0%nat.
Proof.
  unfold advance, settles.
  destruct e as [k r|k r|p' v|p' v|k r|k|k q|k ctl|txt k];
    repeat case_decide; try case_bool_decide; destruct ph0;
    intros; simplify_eq; done.
Qed.

Lemma settled_once p t ph :
  lifecycle p t = Some ph →
  length (filter (λ e, settles p e = true) t)
  = if decide (ph = Settled) then 1%nat else 0%nat.
Proof.
  revert ph. induction t as [|e t IH] using rev_ind; intros ph.
  - by intros [= <-].
  - rewrite lifecycle_snoc.
    destruct (lifecycle p t) as [ph0|]; [| done]. specialize (IH ph0 eq_refl).
    intros Hadv. rewrite <- (advance_count p ph0 e ph Hadv).
    rewrite filter_app, length_app, IH. f_equal.
    destruct (settles p e) eqn:He.
    + by rewrite filter_cons_True.
    + rewrite filter_cons_False; [done | by rewrite He].
Qed.

(** X4: in every state the module can reach, the effects on each request
    are in order: it is pushed at most once, its handler is invoked at most
    once and only while it waits, and its promise is settled at most once,
    either by a rejection while it waits (and then its handler is never
    invoked) or by a resolution or a rejection after its handler was
    invoked; no promise is both resolved and rejected, or settled twice. *)
Theorem promises_settle_at_most_once (calls : list Call) (p : nat) :
  is_Some (lifecycle p (trace (run calls init)))
  ∧ (length (filter (λ e, settles p e = true) (trace (run calls init))) ≤ 1)%nat.
Proof.
  pose proof (placed_run calls p) as Hplaced. unfold placed in Hplaced.
  destruct (lifecycle p (trace (run calls init))) as [ph|] eqn:Hph; [| done].
  split; [by eexists |].
  rewrite (settled_once p _ ph Hph). case_decide; lia.
Qed.

End RequestQueueMore.

(* ===================================================================== *)
(** * Further properties of BoundedMap *)
(* ===================================================================== *)

Module BoundedMapMore.
Import BoundedMap BoundedMapOps BoundedMapProps.

Section more.
Context {K V : Type} `{EqDecision K}.
Implicit Types (m : list (K * V)) (b : BoundedMap K V) (key other : K) (value : V).

Lemma js_get_None key m : js_get key m = None ↔ key ∉ m.*1.
Proof.
  induction m as [|[k v] m IH]; simpl.
  - split; [intros _; apply not_elem_of_nil | done].
  - rewrite not_elem_of_cons. destruct (decide (k = key)) as [->|Hne].
    + split; [done | tauto].
    + rewrite IH. split; [intros ?; split; [congruence | done] | tauto].
Qed.

Lemma js_get_delete_eq key m : js_get key (js_delete key m) = None.
Proof. apply js_get_None. rewrite js_delete_elem. tauto. Qed.

Lemma js_get_delete_ne key other m :
  other ≠ key → js_get other (js_delete key m) = js_get other m.
Proof.
  intros Hne. induction m as [|[k v] m IH]; [done |].
  destruct (decide (k = key)) as [->|Hk].
  - rewrite js_delete_cons_eq, IH. simpl. by rewrite decide_False by congruence.
  - rewrite js_delete_cons_ne by done. simpl. by rewrite IH.
Qed.

Lemma js_get_snoc key other value m :
  js_get other (m ++ [(key, value)])
  = match js_get other m with
    | Some v => Some v
    | None => if decide (key = other) then Some value else None
    end.
Proof.
  induction m as [|[k v] m IH]; simpl; [done |].
  by destruct (decide (k = other)).
Qed.

(** The map that [set] builds, in one equation. *)
Lemma set_entries key value b :
  entries (set key value b)
  = match evicted key b with
    | Some oldest => js_delete oldest (js_delete key (entries b))
    | None => js_delete key (entries b)
    end ++ [(key, value)].
Proof.
  unfold evicted, entries, set, has. simpl.
  destruct (js_has key (map b)) eqn:Hhas.
  - apply js_set_absent. rewrite js_delete_elem. tauto.
  - apply js_has_false in Hhas. rewrite (js_delete_absent key (map b)) by done.
    case_bool_decide.
    + destruct (js_first_key (map b)) as [oldest|].
      * apply js_set_absent. rewrite js_delete_elem. tauto.
      * by apply js_set_absent.
    + by apply js_set_absent.
Qed.

(** After [set key value], [get key] is [value] and [has key] holds,
    whatever the map held and whatever its capacity. *)
Lemma set_then_get (key : K) (value : V) (b : BoundedMap K V) :
  get key (set key value b) = Some value ∧ has key (set key value b) = true.
Proof.
  unfold get, has. change (map (set key value b)) with (entries (set key value b)).
  rewrite set_entries. split.
  - rewrite js_get_snoc.
    assert (js_get key
              match evicted key b with
              | Some oldest => js_delete oldest (js_delete key (entries b))
              | None => js_delete key (entries b)
              end = None) as ->.
    { apply js_get_None. destruct (evicted key b); rewrite !js_delete_elem; tauto. }
    by rewrite decide_True.
  - apply js_has_true. rewrite fmap_app, elem_of_app. right.
    by apply list_elem_of_singleton.
Qed.

(** X5: [set key value] changes what [get] returns for another key only
    when it evicts that key: the first key of a map that is full and does
    not hold [key]. *)
Theorem set_spares_other_keys (key other : K) (value : V) (b : BoundedMap K V) :
  other ≠ key →
  get other (set key value b)
  = if decide (evicted key b = Some other) then None else get other b.
Proof.
  intros Hne. unfold get.
  change (map (set key value b)) with (entries (set key value b)).
  rewrite set_entries, js_get_snoc. unfold entries.
  destruct (evicted key b) as [oldest|].
  - destruct (decide (Some oldest = Some other)) as [[= ->]|Hother].
    + rewrite js_get_delete_eq. by rewrite decide_False by congruence.
    + rewrite !js_get_delete_ne by congruence.
      destruct (js_get other (map b)); [done |]. by rewrite decide_False by congruence.
  - rewrite decide_False by done. rewrite js_get_delete_ne by done.
    destruct (js_get other (map b)); [done |]. by rewrite decide_False by congruence.
Qed.

Lemma js_delete_keys key m : (js_delete key m).*1 = filter (λ k, k ≠ key) m.*1.
Proof.
  induction m as [|[k v] m IH]; [done |].
  destruct (decide (k = key)) as [->|Hne].
  - rewrite js_delete_cons_eq, fmap_cons. simpl.
    rewrite filter_cons_False by tauto. exact IH.
  - rewrite js_delete_cons_ne, !fmap_cons by done. simpl.
    rewrite filter_cons_True by done. by f_equal.
Qed.

Lemma filter_absent key (l : list K) : key ∉ l → filter (λ k, k ≠ key) l = l.
Proof.
  induction l as [|k l IH]; [done |]. rewrite not_elem_of_cons. intros [Hne Hl].
  rewrite filter_cons_True by congruence. by rewrite IH.
Qed.

Lemma delete_facts key b :
  (delete key b).1 = has key b
  ∧ get key (delete key b).2 = None
  ∧ has key (delete key b).2 = false
  ∧ (∀ other, get other (delete key b).2
              = if decide (other = key) then None else get other b)
  ∧ maxSize (delete key b).2 = maxSize b.
Proof.
  unfold delete, get, has. simpl.
  split; [done |]. split; [apply js_get_delete_eq |].
  split; [apply js_has_false; rewrite js_delete_elem; tauto |].
  split; [| done]. intros other. case_decide as Ho.
  - subst. apply js_get_delete_eq.
  - by apply js_get_delete_ne.
Qed.

(** X6: on a map built from a new one by any operations, [delete key]
    returns whether the key was present; afterwards the key is absent, every
    other key has the value it had, and the size is one less if the key was
    present and unchanged if not. *)
Theorem delete_removes_exactly_its_key (N : Z) (ops : list (Op K V)) (key : K) :
  let b := run ops (new N) in
  let res := delete key b in
  res.1 = has key b
  ∧ get key res.2 = None
  ∧ has key res.2 = false
  ∧ (∀ other, get other res.2 = if decide (other = key) then None else get other b)
  ∧ size res.2 = size b - (if has key b then 1 else 0)
  ∧ maxSize res.2 = maxSize b.
Proof.
  intros b res.
  destruct (delete_facts key b) as (H1 & H2 & H3 & H4 & H5).
  split; [done |]. split; [done |]. split; [done |]. split; [done |].
  split; [| done].
  assert (NoDup (keys b)) as Hnd by (subst b; apply run_NoDup, NoDup_nil_2).
  subst res. unfold delete, size, has. simpl.
  destruct (js_has key (map b)) eqn:Hhas.
  - pose proof (js_delete_length key (map b) Hnd (proj1 (js_has_true _ _) Hhas)). lia.
  - rewrite js_delete_absent by (by apply js_has_false). lia.
Qed.

(** ** A key that was just set *)

Lemma set_keys key value b :
  keys (set key value b)
  = match evicted key b with
    | Some oldest => filter (λ k, k ≠ oldest) (filter (λ k, k ≠ key) (keys b))
    | None => filter (λ k, k ≠ key) (keys b)
    end ++ [key].
Proof.
  unfold keys. change (map (set key value b)) with (entries (set key value b)).
  rewrite set_entries, fmap_app. unfold entries. simpl.
  destruct (evicted key b); by rewrite !js_delete_keys.
Qed.

Lemma holds_behind_set key n k v b :
  1 ≤ maxSize b → k ≠ key → (Z.of_nat n < maxSize b - 1) →
  holds_behind key n b → holds_behind key (S n) (set k v b).
Proof.
  intros Hcap Hne Hn (Hnd & Hle & l1 & l2 & Hkeys & Hlen).
  split; [by apply set_NoDup |].
  split; [rewrite maxSize_set; by apply set_size_le |].
  rewrite set_keys. unfold evicted.
  destruct (has k b) eqn:Hhas.
  - rewrite Hkeys, filter_app, filter_cons_True by congruence.
    exists (filter (λ x, x ≠ k) l1), (filter (λ x, x ≠ k) l2 ++ [k]).
    split; [by rewrite <- app_assoc |].
    rewrite length_app. simpl. pose proof (length_filter (λ x, x ≠ k) l2). lia.
  - assert (k ∉ keys b) as Hnot by (by apply js_has_false).
    rewrite (filter_absent k (keys b)) by done.
    case_bool_decide as Hfull.
    + unfold js_first_key. fold (keys b). rewrite Hkeys.
      destruct l1 as [|o l1]; simpl.
      * exfalso. unfold size in Hfull. fold (keys b) in Hfull.
        assert (length (map b) = length (keys b)) as Hl by (unfold keys; by rewrite length_fmap).
        rewrite Hl, Hkeys in Hfull. simpl in Hfull. lia.
      * rewrite Hkeys in Hnd. simpl in Hnd. apply NoDup_cons in Hnd as [Ho Hnd].
        rewrite filter_cons_False by tauto.
        rewrite (filter_absent o) by done.
        exists l1, (l2 ++ [k]). split; [by rewrite <- app_assoc |].
        rewrite length_app. simpl. lia.
    + rewrite Hkeys. exists l1, (l2 ++ [k]). split; [by rewrite <- app_assoc |].
      rewrite length_app. simpl. lia.
Qed.

Lemma holds_behind_apply key n o b :
  1 ≤ maxSize b → spares key o = true →
  (is_set o = true → Z.of_nat n < maxSize b - 1) →
  holds_behind key n b →
  holds_behind key (if is_set o then S n else n) (apply b o).
Proof.
  intros Hcap Hsp Hn Hb. destruct o as [k v|k|k|]; simpl in *; [| done | | done].
  - apply holds_behind_set; auto. by apply bool_decide_eq_true in Hsp.
  - apply bool_decide_eq_true in Hsp.
    destruct Hb as (Hnd & Hle & l1 & l2 & Hkeys & Hlen).
    split; [by apply js_delete_NoDup |]. split.
    + unfold size in *. simpl. pose proof (js_delete_length_le k (map b)). lia.
    + unfold keys in *. simpl. rewrite js_delete_keys, Hkeys.
      rewrite filter_app, filter_cons_True by congruence.
      exists (filter (λ x, x ≠ k) l1), (filter (λ x, x ≠ k) l2). split; [done |].
      pose proof (length_filter (λ x, x ≠ k) l2). lia.
Qed.

Lemma sets_cons (o : Op K V) (more : list (Op K V)) :
  sets (o :: more) = ((if is_set o then 1 else 0) + sets more)%nat.
Proof.
  unfold sets. destruct (is_set o) eqn:Ho.
  - by rewrite filter_cons_True.
  - rewrite filter_cons_False; [done | by rewrite Ho].
Qed.

Lemma holds_behind_run key more :
  ∀ n b,
    1 ≤ maxSize b → forallb (spares key) more = true →
    Z.of_nat (n + sets more) ≤ maxSize b - 1 →
    holds_behind key n b → has key (run more b) = true.
Proof.
  induction more as [|o more IH]; intros n b Hcap Hsp Hn Hb.
  - destruct Hb as (_ & _ & l1 & l2 & Hkeys & _).
    change (run [] b) with b. unfold has. apply js_has_true.
    change ((map b).*1) with (keys b). rewrite Hkeys, elem_of_app, elem_of_cons. tauto.
  - simpl in Hsp. apply andb_prop in Hsp as [Ho Hsp]. rewrite sets_cons in Hn.
    change (run (o :: more) b) with (run more (apply b o)).
    apply (IH (if is_set o then S n else n)).
    + by rewrite maxSize_apply.
    + done.
    + rewrite maxSize_apply. destruct (is_set o); lia.
    + apply holds_behind_apply; [done | done | | done].
      intros Hset. rewrite Hset in Hn. lia.
Qed.

(** X7: in a map of capacity at least one, a key that was just set is
    still present after any further operations on other keys ([set],
    [get], [delete]) of which at most capacity minus one are [set]s. *)
Theorem set_key_survives_later_sets
    (N : Z) (ops more : list (Op K V)) (key : K) (value : V) :
  1 ≤ N →
  forallb (spares key) more = true →
  Z.of_nat (sets more) ≤ N - 1 →
  has key (run more (set key value (run ops (new N)))) = true.
Proof.
  intros Hcap Hsp Hn.
  set (b := run ops (new N)).
  assert (maxSize b = N) as HN by (subst b; by rewrite maxSize_run).
  assert (NoDup (keys b)) as Hnd by (subst b; apply run_NoDup, NoDup_nil_2).
  assert (size b ≤ maxSize b) as Hle.
  { subst b. rewrite maxSize_run.
    apply (run_size_le ops (new N)); simpl;
      [done | apply NoDup_nil_2 | unfold size; simpl; lia]. }
  apply (holds_behind_run key more 0 (set key value b)).
  - simpl. lia.
  - done.
  - simpl. lia.
  - split; [by apply set_NoDup |].
    split; [rewrite maxSize_set; apply set_size_le; [lia | done | done] |].
    rewrite set_keys. eexists _, []. split; [reflexivity | done].
Qed.

End more.

Lemma set_spares_other_keys_witness :
  (2 : Z) ≠ 3
  ∧ get 2 (set 3 "d" (run example_ops (new 5))) = get 2 (run example_ops (new 5)).
Proof.
  split; [lia |].
  rewrite (set_spares_other_keys (K:=Z) (V:=string) 3 2 "d" (run example_ops (new 5))) by lia.
  reflexivity.
Defined.


Lemma set_key_survives_later_sets_witness :
  1 ≤ 3
  ∧ forallb (spares 7) [OpSet 8 "x"; OpGet 1; OpSet 9 "y"; OpDelete 2] = true
  ∧ Z.of_nat (sets [OpSet 8 "x"; OpGet 1; OpSet 9 "y"; OpDelete 2]) ≤ 3 - 1
  ∧ has 7 (run [OpSet 8 "x"; OpGet 1; OpSet 9 "y"; OpDelete 2]
             (set 7 "v" (run example_ops (new 3)))) = true.
Proof.
  split; [lia |]. split; [reflexivity |]. split; [vm_compute; discriminate |].
  apply (set_key_survives_later_sets (K:=Z) (V:=string) 3 example_ops);
    [lia | reflexivity | vm_compute; discriminate].
Defined.

End BoundedMapMore.

(* ===================================================================== *)
(** * Properties of the image type detection *)
(* ===================================================================== *)

Module ImageTypeProps.
Import ImageType.

Implicit Types (buffer signature content : list Z) (sig : Signature)
  (sigs : list Signature).

Lemma matchesSignature_prefix buffer signature :
  matchesSignature buffer signature = true ↔ signature `prefix_of` buffer.
Proof.
  unfold matchesSignature. split.
  - case_bool_decide as Hlen; [done |]. intros Hall.
    exists (drop (length signature) buffer).
    rewrite <- (take_drop (length signature) buffer) at 1. f_equal.
    apply list_eq. intros i.
    destruct (decide (i < length signature)%nat) as [Hi|Hi].
    + rewrite lookup_take_lt by done.
      rewrite forallb_forall in Hall.
      specialize (Hall i). rewrite in_seq in Hall.
      apply bool_decide_eq_true in Hall; [done | lia].
    + rewrite lookup_take_ge by lia. symmetry. apply lookup_ge_None. lia.
  - intros [rest ->]. rewrite length_app.
    rewrite bool_decide_eq_false_2 by lia.
    apply forallb_forall. intros i [_ Hi]%in_seq.
    apply bool_decide_eq_true. by rewrite lookup_app_l by lia.
Qed.

(** [matchesSignature] holds exactly when the signature is a prefix of
    the buffer, that is, when the first bytes of the buffer, as many as the
    signature has, are the signature; a buffer shorter than the signature
    never matches. *)
Lemma matchesSignature_is_prefix (buffer signature : list Z) :
  matchesSignature buffer signature = bool_decide (signature `prefix_of` buffer)
  ∧ matchesSignature buffer signature
    = bool_decide (take (length signature) buffer = signature).
Proof.
  destruct (matchesSignature buffer signature) eqn:Hm.
  - apply matchesSignature_prefix in Hm. split; symmetry; apply bool_decide_eq_true.
    + done.
    + destruct Hm as [rest ->]. by rewrite take_app_length.
  - assert (¬ signature `prefix_of` buffer) as Hno.
    { intros Hp%matchesSignature_prefix. congruence. }
    split; symmetry; apply bool_decide_eq_false; [done |].
    intros Htake. apply Hno. exists (drop (length signature) buffer).
    by rewrite <- Htake at 1; rewrite take_drop.
Qed.

(** ** What [detectImageType] answers *)

Lemma first_signature_Some buffer sigs r :
  first_signature buffer sigs = Some r →
  ∃ sig, sig ∈ sigs ∧ tried sig ∧ bytes sig `prefix_of` buffer
         ∧ r = mkFileType (extension sig) (mimeType sig).
Proof.
  induction sigs as [|sig sigs IH]; [done |]. simpl.
  case_bool_decide as Hw.
  - intros (s & Hin & Hs)%IH. exists s. split; [by right | done].
  - destruct (matchesSignature buffer (bytes sig)) eqn:Hm.
    + intros [= <-]. exists sig. split; [by left |].
      split; [done |]. split; [by apply matchesSignature_prefix | done].
    + intros (s & Hin & Hs)%IH. exists s. split; [by right | done].
Qed.

Lemma first_signature_None buffer sigs :
  first_signature buffer sigs = None →
  ∀ sig, sig ∈ sigs → tried sig → ¬ bytes sig `prefix_of` buffer.
Proof.
  induction sigs as [|sig sigs IH]; [intros _ s Hs; by apply elem_of_nil in Hs |].
  simpl. case_bool_decide as Hw.
  - intros Hnone s [->|Hs]%elem_of_cons Ht; [done | by apply IH].
  - destruct (matchesSignature buffer (bytes sig)) eqn:Hm; [done |].
    intros Hnone s [->|Hs]%elem_of_cons Ht; [| by apply IH].
    intros Hp%matchesSignature_prefix. congruence.
Qed.

Lemma isWebP_spec buffer :
  isWebP buffer = true ↔
  ∃ size rest, buffer = [0x52; 0x49; 0x46; 0x46] ++ size
                        ++ [0x57; 0x45; 0x42; 0x50] ++ rest
               ∧ length size = 4%nat.
Proof.
  unfold isWebP. split.
  - case_bool_decide as Hlen; [done |].
    destruct (matchesSignature buffer _) eqn:Hm; [| done]. simpl.
    apply matchesSignature_prefix in Hm as [rest ->].
    rewrite !andb_true_iff, !bool_decide_eq_true. intros [[[H8 H9] H10] H11].
    do 4 (destruct rest as [|? rest]; [simpl in Hlen; lia |]).
    do 4 (destruct rest as [|? rest]; [simpl in Hlen; lia |]).
    simpl in *. simplify_eq. eexists [_; _; _; _], rest. done.
  - intros (size & rest & -> & Hsize).
    do 4 (destruct size as [|? size]; [done |]). destruct size; [| done].
    rewrite bool_decide_eq_false_2 by (simpl; lia).
    assert (matchesSignature
              ([82; 73; 70; 70] ++ [z; z0; z1; z2] ++ [87; 69; 66; 80] ++ rest)
              [82; 73; 70; 70] = true) as ->
      by (apply matchesSignature_prefix; by eexists).
    done.
Qed.

(** X8: [detectImageType] answers [.webp] exactly when [isWebP] holds;
    otherwise it answers with the extension and MIME type of a signature of
    the table, other than the WebP one, that is a prefix of the buffer; and
    it answers [null] only when [isWebP] fails and no such signature is a
    prefix of the buffer. *)
Theorem detectImageType_sound_and_complete (buffer : list Z) :
  match detectImageType buffer with
  | Some r =>
      (isWebP buffer = true ∧ r = mkFileType ".webp" "image/webp")
      ∨ (isWebP buffer = false
         ∧ ∃ sig, sig ∈ IMAGE_SIGNATURES ∧ tried sig
                  ∧ bytes sig `prefix_of` buffer
                  ∧ r = mkFileType (extension sig) (mimeType sig))
  | None =>
      isWebP buffer = false
      ∧ ∀ sig, sig ∈ IMAGE_SIGNATURES → tried sig → ¬ bytes sig `prefix_of` buffer
  end.
Proof.
  unfold detectImageType. destruct (isWebP buffer) eqn:Hw; [by left |].
  destruct (first_signature buffer IMAGE_SIGNATURES) as [r|] eqn:Hf.
  - right. split; [done |]. by apply first_signature_Some.
  - split; [done |]. by apply first_signature_None.
Qed.

(** ** RIFF containers *)

Lemma matchesSignature_head x y buffer signature :
  x ≠ y → matchesSignature (x :: buffer) (y :: signature) = false.
Proof.
  intros Hne. destruct (matchesSignature _ _) eqn:Hm; [| done].
  apply matchesSignature_prefix in Hm as [rest [= ? _]]. done.
Qed.

Lemma isWebP_RIFF rest :
  isWebP ([0x52; 0x49; 0x46; 0x46] ++ rest)
  = bool_decide (take 4 (drop 4 rest) = [0x57; 0x45; 0x42; 0x50]).
Proof.
  destruct (isWebP _) eqn:Hw; symmetry.
  - apply bool_decide_eq_true.
    apply isWebP_spec in Hw as (size & more & Heq & Hsize).
    apply app_inv_head in Heq. subst rest.
    rewrite drop_app_length' by done. done.
  - apply bool_decide_eq_false. intros Htake.
    assert (isWebP ([82; 73; 70; 70] ++ rest) = true) as Habs; [| congruence].
    apply isWebP_spec. exists (take 4 rest), (drop 8 rest). split.
    + f_equal. rewrite <- Htake.
      rewrite <- (take_drop 4 rest) at 1. f_equal.
      rewrite <- (take_drop 4 (drop 4 rest)) at 1. f_equal.
      by rewrite drop_drop.
    + rewrite length_take. apply (f_equal length) in Htake.
      rewrite length_take, length_drop in Htake.
      change (length [87; 69; 66; 80]) with 4%nat in Htake. lia.
Qed.

(** X9: for a buffer that starts with ["RIFF"], [detectImageType] answers
    [.webp] when the bytes 8 to 11 are ["WEBP"] and [null] otherwise: a RIFF
    file of another kind is not taken for an image, although ["RIFF"] is in
    the table of signatures. *)
Theorem RIFF_is_an_image_only_if_WEBP (rest : list Z) :
  detectImageType ([0x52; 0x49; 0x46; 0x46] ++ rest)
  = if bool_decide (take 4 (drop 4 rest) = [0x57; 0x45; 0x42; 0x50])
    then Some (mkFileType ".webp" "image/webp")
    else None.
Proof.
  unfold detectImageType. rewrite isWebP_RIFF.
  case_bool_decide; [done |].
  unfold IMAGE_SIGNATURES, first_signature. cbn [bytes extension app].
  repeat first
    [ rewrite bool_decide_eq_true_2 by done
    | rewrite bool_decide_eq_false_2 by done
    | rewrite (matchesSignature_head 0x52) by done ].
  done.
Qed.

(** ** Files *)

(** X10: a file of at least two bytes whose first three bytes, as far as it
    has them, are zero is taken for a HEIC image: the signature of HEIC in
    the table is three zero bytes, and the buffer the file is read into is
    filled with zeros past the end of a short file. *)
Theorem leading_zeros_are_taken_for_HEIC (content : list Z) :
  (2 ≤ length content)%nat →
  take 3 content = replicate (min 3 (length content)) 0 →
  getFileType (Some content) = Some (mkFileType ".heic" "image/heic")
  ∧ isValidImageFile (Some content) = true.
Proof.
  intros Hlen Hzero.
  assert (∃ rest, (read16 content).2 = [0; 0; 0] ++ rest) as [rest Hbuf].
  { unfold read16. simpl.
    destruct content as [|a [|b [|c content]]]; simpl in *; try lia.
    - injection Hzero as -> ->. by eexists.
    - injection Hzero as -> -> ->. by eexists. }
  assert (detectImageType (read16 content).2 = Some (mkFileType ".heic" "image/heic"))
    as Hdetect.
  { rewrite Hbuf. unfold detectImageType.
    assert (isWebP ([0; 0; 0] ++ rest) = false) as ->.
    { unfold isWebP. case_bool_decide; [done |]. cbn [app].
      by rewrite (matchesSignature_head 0 0x52). }
    unfold IMAGE_SIGNATURES, first_signature. cbn [bytes extension mimeType app].
    repeat first
      [ rewrite bool_decide_eq_true_2 by done
      | rewrite bool_decide_eq_false_2 by done
      | rewrite (matchesSignature_head 0) by done ].
    assert (matchesSignature (0 :: 0 :: 0 :: rest) [0; 0; 0] = true) as ->
      by (apply matchesSignature_prefix; by exists rest).
    done. }
  unfold getFileType, isValidImageFile.
  destruct (read16 content) as [bytesRead buffer] eqn:Hread.
  assert (bytesRead = min 16 (length content)) as -> by (by injection Hread).
  simpl in Hdetect. rewrite bool_decide_eq_false_2 by lia.
  rewrite Hdetect. split; [done |]. by apply bool_decide_eq_true.
Qed.

Lemma leading_zeros_are_taken_for_HEIC_witness :
  (2 ≤ length [0; 0])%nat
  ∧ take 3 [0; 0] = replicate (min 3 (length [0; 0])) 0
  ∧ getFileType (Some [0; 0]) = Some (mkFileType ".heic" "image/heic")
  ∧ isValidImageFile (Some [0; 0]) = true.
Proof.
  split; [simpl; lia |]. split; [reflexivity |].
  apply (leading_zeros_are_taken_for_HEIC [0; 0]); [simpl; lia | reflexivity].
Defined.

(** [isValidImageFile] accepts exactly the files for which
    [getFileType] has an answer, and what they answer depends on the first
    sixteen bytes of the file only; neither accepts a file of fewer than two
    bytes. *)
Lemma file_type_reads_sixteen_bytes (file : option (list Z)) (content : list Z) :
  isValidImageFile file = bool_decide (getFileType file ≠ None)
  ∧ getFileType (Some content) = getFileType (Some (take 16 content))
  ∧ bool_decide (length content < 2)%nat && isValidImageFile (Some content) = false.
Proof.
  split; [| split].
  - destruct file as [c|]; simpl; [| done].
    case_bool_decide; [done |]. done.
  - unfold getFileType, read16. rewrite take_take, length_take.
    replace (16 `min` 16)%nat with 16%nat by done.
    replace (16 `min` (16 `min` length content))%nat
      with (16 `min` length content)%nat by lia.
    replace (16 - 16 `min` length content)%nat with (16 - length content)%nat by lia.
    done.
  - unfold isValidImageFile, read16. case_bool_decide as Hlen; [| done].
    rewrite bool_decide_eq_true_2; [done | lia].
Qed.

End ImageTypeProps.

(* ===================================================================== *)
(** * Properties of the session history *)
(* ===================================================================== *)

Module SessionHistoryProps.
Import SessionHistory.

Section props.
Variable basename : string → string.

Implicit Types (sessions : gmap string (list SessionHistoryEntry))
  (history : list SessionHistoryEntry) (k conv : string).

Lemma findConversation_Some conv history i e :
  findConversation conv history = Some (i, e) →
  history !! i = Some e ∧ conversationId e = conv
  ∧ conv ∉ conversationId <$> take i history.
Proof.
  unfold findConversation. intros (Hi & He & Hfirst)%list_find_Some.
  split; [done |]. split; [done |].
  intros (e' & Heq & Hin)%list_elem_of_fmap.
  apply list_elem_of_lookup in Hin as [j Hj].
  apply lookup_take_Some in Hj as [Hj Hlt].
  by apply (Hfirst j e').
Qed.

Lemma findConversation_None conv history :
  findConversation conv history = None ↔ conv ∉ conversationId <$> history.
Proof.
  unfold findConversation. rewrite list_find_None, Forall_forall. split.
  - intros Hall (e & Heq & Hin)%list_elem_of_fmap. by apply (Hall e).
  - intros Hnot e Hin Heq. apply Hnot. apply list_elem_of_fmap. by exists e.
Qed.

(** The conversations of a key after [saveSession]: unchanged when the
    conversation is known, and otherwise the new one first and at most
    twenty in all. *)
Lemma saveSession_conversations k conv path preview cs t1 t2 sessions k' :
  conversations k' (saveSession basename k conv path preview cs t1 t2 sessions)
  = if decide (k' = k) then
      if decide (conv ∈ conversations k sessions)
      then (if bool_decide (MAX_HISTORY_PER_CHAT < length (conversations k sessions))%nat
            then take MAX_HISTORY_PER_CHAT (conversations k sessions)
            else conversations k sessions)
      else take MAX_HISTORY_PER_CHAT (conv :: conversations k sessions)
    else conversations k' sessions.
Proof.
  unfold conversations, saveSession.
  destruct (decide (k' = k)) as [->|Hne]; [| by rewrite lookup_insert_ne].
  rewrite lookup_insert_eq. simpl.
  set (history := default [] (sessions !! k)).
  destruct (findConversation conv history) as [[i old]|] eqn:Hfind.
  - apply findConversation_Some in Hfind as (Hi & Hold & _).
    rewrite decide_True
      by (apply list_elem_of_fmap; exists old; split; [done | by eapply list_elem_of_lookup_2]).
    match goal with |- context [<[i := ?e]> history] => set (entry := e) end.
    assert (conversationId <$> <[i := entry]> history = conversationId <$> history)
      as Hsame.
    { rewrite list_fmap_insert. apply list_insert_id.
      rewrite list_lookup_fmap, Hi. simpl. by rewrite Hold. }
    clearbody entry.
    rewrite length_insert, length_fmap.
    case_bool_decide; [rewrite fmap_take |]; by rewrite Hsame.
  - apply findConversation_None in Hfind. rewrite decide_False by done.
    case_bool_decide as Hlen.
    + by rewrite fmap_take.
    + rewrite take_ge; [done |]. rewrite length_fmap.
      rewrite length_cons in Hlen. unfold MAX_HISTORY_PER_CHAT in Hlen. lia.
Qed.

Lemma updateEntry_conversations f k conv sessions k' :
  (∀ e, conversationId (f e) = conversationId e) →
  conversations k' (updateEntry f k conv sessions) = conversations k' sessions.
Proof.
  intros Hf. unfold conversations, updateEntry.
  destruct (sessions !! k) as [history|] eqn:Hk; [| done].
  destruct (findConversation conv history) as [[i e]|] eqn:Hfind; [| done].
  destruct (decide (k' = k)) as [->|Hne]; [| by rewrite lookup_insert_ne].
  rewrite lookup_insert_eq, Hk. simpl.
  apply findConversation_Some in Hfind as (Hi & _ & _).
  rewrite list_fmap_insert. apply list_insert_id.
  rewrite list_lookup_fmap, Hi. simpl. by rewrite Hf.
Qed.

Lemma tidy_step sessions c : tidy sessions → tidy (step basename sessions c).
Proof.
  intros Htidy k'. destruct (Htidy k') as [Hlen Hnd].
  destruct c as [k conv path preview cs t1 t2|k conv preview now|k conv cs now|k];
    simpl.
  - rewrite saveSession_conversations.
    destruct (decide (k' = k)) as [->|Hne]; [| done].
    destruct (decide (conv ∈ conversations k sessions)) as [Hin|Hnot].
    + by rewrite bool_decide_eq_false_2 by lia.
    + split; [rewrite length_take; unfold MAX_HISTORY_PER_CHAT; lia |].
      apply (sublist_NoDup _ (conv :: conversations k sessions));
        [by apply NoDup_cons | apply sublist_take].
  - unfold updateLastMessage. by rewrite updateEntry_conversations.
  - unfold updateClaudeSessionId. by rewrite updateEntry_conversations.
  - unfold clearHistory, conversations in *.
    destruct (decide (k' = k)) as [->|Hne].
    + rewrite lookup_delete_eq. simpl. split; [lia | apply NoDup_nil_2].
    + by rewrite lookup_delete_ne.
Qed.

Lemma history_run_snoc calls c : run basename (calls ++ [c]) = step basename (run basename calls) c.
Proof. unfold run. by rewrite foldl_app. Qed.

Lemma tidy_run calls : tidy (run basename calls).
Proof.
  induction calls as [|c calls IH] using rev_ind.
  - intros k. unfold conversations, run. simpl. rewrite lookup_empty. simpl.
    split; [lia | apply NoDup_nil_2].
  - rewrite history_run_snoc. by apply tidy_step.
Qed.

(** X11: starting with an empty history, after any calls of [saveSession],
    [updateLastMessage], [updateClaudeSessionId] and [clearHistory], the
    history of every key has at most twenty entries and no two of them have
    the same conversation id. *)
Theorem history_is_bounded_and_distinct (calls : list Call) (k : string) :
  (length (default [] (run basename calls !! k)) ≤ 20)%nat
  ∧ NoDup (conversationId <$> default [] (run basename calls !! k)).
Proof.
  destruct (tidy_run calls k) as [Hlen Hnd]. unfold conversations in *.
  rewrite length_fmap in Hlen. done.
Qed.

(** X12: on a history built from an empty one, [saveSession] for a
    conversation that the key already lists leaves the order of the
    conversations of the key as it is (the conversation is not moved to the
    front); for a new conversation it puts the conversation first and keeps
    the first twenty; the conversations of every other key are unchanged.
    [getLastSession] answers with the first conversation of the list. *)
Theorem saveSession_adds_in_front_or_updates_in_place
    (calls : list Call) (k conv path preview : string) (cs : option string)
    (t1 t2 : string) (k' : string) :
  let before := run basename calls in
  let after := saveSession basename k conv path preview cs t1 t2 before in
  conversations k' after
  = (if decide (k' = k) then
       if decide (conv ∈ conversations k before) then conversations k before
       else take 20 (conv :: conversations k before)
     else conversations k' before)
  ∧ conversationId <$> getLastSession k' after = head (conversations k' after).
Proof.
  intros before after. split.
  - subst after. rewrite saveSession_conversations.
    destruct (decide (k' = k)) as [->|Hne]; [| done].
    destruct (decide (conv ∈ conversations k before)); [| done].
    destruct (tidy_run calls k) as [Hlen _]. fold before in Hlen.
    by rewrite bool_decide_eq_false_2 by lia.
  - unfold getLastSession, conversations.
    destruct (after !! k') as [[|e history]|]; done.
Qed.

Lemma findConversation_head conv history entry :
  conversationId entry = conv →
  findConversation conv (entry :: history) = Some (0%nat, entry).
Proof.
  intros Hentry. apply list_find_Some. split; [done |]. split; [done |].
  intros j e _ Hlt. lia.
Qed.

Lemma findConversation_insert conv history i old entry :
  findConversation conv history = Some (i, old) →
  conversationId entry = conv →
  findConversation conv (<[i := entry]> history) = Some (i, entry).
Proof.
  unfold findConversation. intros (Hi & Hold & Hfirst)%list_find_Some Hentry.
  apply list_find_Some. split; [| split; [done |]].
  - apply list_lookup_insert_eq. by eapply lookup_lt_Some.
  - intros j e Hj Hlt. rewrite list_lookup_insert_ne in Hj by lia.
    by apply (Hfirst j).
Qed.

(** The entry found after [saveSession], on a history within the limit. *)
Lemma saveSession_lookup sessions k conv path preview cs t1 t2 :
  (length (default [] (sessions !! k)) ≤ MAX_HISTORY_PER_CHAT)%nat →
  getSessionByConversationId k conv
    (saveSession basename k conv path preview cs t1 t2 sessions)
  = Some {| conversationId := conv;
            claudeSessionId :=
              match cs with
              | Some id => Some id
              | None => getSessionByConversationId k conv sessions ≫= claudeSessionId
              end;
            projectPath := path;
            projectName := basename path;
            lastMessagePreview := substring0 100 preview;
            createdAt :=
              default t1 (createdAt <$> getSessionByConversationId k conv sessions);
            lastActivity := t2 |}.
Proof.
  intros Hlen.
  unfold getSessionByConversationId, saveSession.
  rewrite lookup_insert_eq.
  set (history := default [] (sessions !! k)) in *.
  destruct (findConversation conv history) as [[i old]|] eqn:Hfind.
  - cbn [default from_option mbind option_bind fmap option_fmap option_map snd].
    unfold id.
    rewrite length_insert. rewrite bool_decide_eq_false_2 by lia.
    erewrite findConversation_insert; [| exact Hfind | done]. done.
  - cbn [default from_option mbind option_bind fmap option_fmap option_map snd].
    unfold id.
    match goal with |- context [bool_decide ?P] => destruct (bool_decide P) end.
    + change (take MAX_HISTORY_PER_CHAT (?e :: history)) with (e :: take 19 history).
      by rewrite findConversation_head.
    + by rewrite findConversation_head.
Qed.

Lemma saveSession_other_key sessions k conv path preview cs t1 t2 k' :
  k' ≠ k →
  saveSession basename k conv path preview cs t1 t2 sessions !! k' = sessions !! k'.
Proof. intros Hne. unfold saveSession. by rewrite lookup_insert_ne. Qed.

Lemma updateEntry_other_key f sessions k conv k' :
  k' ≠ k → updateEntry f k conv sessions !! k' = sessions !! k'.
Proof.
  intros Hne. unfold updateEntry.
  destruct (sessions !! k) as [history |]; [| done].
  destruct (findConversation conv history) as [[i e] |]; [| done].
  by rewrite lookup_insert_ne.
Qed.

(** An update that keeps the conversation id is seen by the lookup. *)
Lemma updateEntry_lookup f sessions k conv :
  (∀ e, conversationId (f e) = conversationId e) →
  getSessionByConversationId k conv (updateEntry f k conv sessions)
  = f <$> getSessionByConversationId k conv sessions.
Proof.
  intros Hf. unfold getSessionByConversationId, updateEntry.
  destruct (sessions !! k) as [history |] eqn:Hk; [| by rewrite Hk].
  simpl.
  destruct (findConversation conv history) as [[i e] |] eqn:Hfind.
  - rewrite lookup_insert_eq. simpl.
    erewrite findConversation_insert; [done | exact Hfind |].
    rewrite Hf. by apply findConversation_Some in Hfind as (_ & ? & _).
  - rewrite Hk. simpl. by rewrite Hfind.
Qed.

(** X13: on a history built from an empty one, after [saveSession] the
    conversation is found under its key, with the path, the base name of the
    path, the first hundred characters of the preview and the time of the
    call; it keeps the creation time of the entry it replaces, or takes the
    time of the call if there was none; and it has the Claude session id
    given, or, if none was given, the one of the entry it replaces. *)
Theorem saveSession_then_lookup
    (calls : list Call) (k conv path preview : string) (cs : option string)
    (t1 t2 : string) :
  let before := run basename calls in
  let old := getSessionByConversationId k conv before in
  getSessionByConversationId k conv
    (saveSession basename k conv path preview cs t1 t2 before)
  = Some {| conversationId := conv;
            claudeSessionId :=
              match cs with
              | Some id => Some id
              | None => old ≫= claudeSessionId
              end;
            projectPath := path;
            projectName := basename path;
            lastMessagePreview := substring0 100 preview;
            createdAt := default t1 (createdAt <$> old);
            lastActivity := t2 |}.
Proof.
  intros before old. subst old. apply saveSession_lookup.
  destruct (tidy_run calls k) as [Hlen _]. fold before in Hlen.
  unfold conversations in Hlen. by rewrite length_fmap in Hlen.
Qed.

End props.

End SessionHistoryProps.

(* ===================================================================== *)
(** * Properties of the user preferences and of the provider router *)
(* ===================================================================== *)

Module UserPreferencesProps.
Import UserPreferences.

Lemma getModel_setModel chatId other m now (data : gmap Z Preferences) :
  getModel other (setModel chatId m now data)
  = if bool_decide (chatId = other) then Some m else getModel other data.
Proof.
  unfold getModel, setModel. case_bool_decide as Heq.
  - subst. by rewrite lookup_insert_eq.
  - by rewrite lookup_insert_ne.
Qed.

Lemma getModel_clearModel chatId other now (data : gmap Z Preferences) :
  getModel other (clearModel chatId now data)
  = if bool_decide (chatId = other) then None else getModel other data.
Proof.
  unfold getModel, clearModel. case_bool_decide as Heq.
  - subst. destruct (data !! other) eqn:Hd; [by rewrite lookup_insert_eq | by rewrite Hd].
  - destruct (data !! chatId); [by rewrite lookup_insert_ne | done].
Qed.

Lemma getModel_setProvider chatId other name now (data : gmap Z Preferences) :
  getModel other (setProvider chatId name now data) = getModel other data.
Proof.
  unfold getModel, setProvider, ensure.
  destruct (decide (chatId = other)) as [-> | Hne].
  - rewrite lookup_insert_eq. by destruct (data !! other).
  - by rewrite lookup_insert_ne.
Qed.

(** The provider and the model of a chat are set and cleared
    independently: setting or clearing the model keeps the provider, setting
    the provider keeps the model, each setter is read back by its getter,
    [clearPreferences] removes both, and no call changes what is stored for
    another chat. *)
Lemma provider_and_model_are_independent
    (chatId other : Z) (name : ProviderName) (m now : string) (data : gmap Z Preferences) :
  (getModel chatId (setModel chatId m now data) = Some m
   ∧ getProvider chatId (setModel chatId m now data) = getProvider chatId data)
  ∧ (getProvider chatId (setProvider chatId name now data) = Some name
     ∧ getModel chatId (setProvider chatId name now data) = getModel chatId data)
  ∧ (getModel chatId (clearModel chatId now data) = None
     ∧ getProvider chatId (clearModel chatId now data) = getProvider chatId data)
  ∧ (getModel chatId (clearPreferences chatId data) = None
     ∧ getProvider chatId (clearPreferences chatId data) = None)
  ∧ (if decide (other = chatId) then True
     else setModel chatId m now data !! other = data !! other
          ∧ setProvider chatId name now data !! other = data !! other
          ∧ clearModel chatId now data !! other = data !! other
          ∧ clearPreferences chatId data !! other = data !! other).
Proof.
  unfold getModel, getProvider, setModel, setProvider, clearModel,
    clearPreferences, ensure.
  repeat split.
  - by rewrite lookup_insert_eq.
  - rewrite lookup_insert_eq. by destruct (data !! chatId).
  - by rewrite lookup_insert_eq.
  - rewrite lookup_insert_eq. by destruct (data !! chatId).
  - destruct (data !! chatId) eqn:Hd; [by rewrite lookup_insert_eq | by rewrite Hd].
  - destruct (data !! chatId) eqn:Hd; [by rewrite lookup_insert_eq | by rewrite Hd].
  - by rewrite lookup_delete_eq.
  - by rewrite lookup_delete_eq.
  - case_decide as Ho; [done |]. repeat split.
    + by rewrite lookup_insert_ne.
    + by rewrite lookup_insert_ne.
    + destruct (data !! chatId); [by rewrite lookup_insert_ne | done].
    + by rewrite lookup_delete_ne.
Qed.

End UserPreferencesProps.

Module ProviderRouterProps.
Import UserPreferences ProviderRouter.

(** X14: when OpenCode is not enabled the active provider of every chat is
    Claude, whatever was set or persisted.  When it is enabled, a provider
    set with [setActiveProvider] is the active provider afterwards and is
    persisted; the call is rejected exactly when it sets OpenCode while the
    OpenCode module is not loaded and cannot be loaded; and the
    provider that serves a chat is OpenCode only if the module is loaded. *)
Theorem active_provider_follows_the_setting
    (enabled imported : bool) (chatId : Z) (name : ProviderName) (now : string)
    (r : Router) :
  (getActiveProviderName false chatId r).1 = claude
  ∧ match setActiveProvider imported chatId name now r with
    | Some r' =>
        (name = claude ∨ opencodeLoaded r = true ∨ imported = true)
        ∧ (getActiveProviderName true chatId r').1 = name
        ∧ UserPreferences.getProvider chatId (preferences r') = Some name
        ∧ (getProvider true chatId r').1 = name
    | None => name = opencode ∧ opencodeLoaded r = false ∧ imported = false
    end
  ∧ ((getProvider enabled chatId r).1 = opencode →
     enabled = true ∧ opencodeLoaded (getProvider enabled chatId r).2 = true).
Proof.
  split; [done |]. split.
  - unfold setActiveProvider.
    destruct name, (opencodeLoaded r) eqn:Hl, imported; simpl;
      try (split; [auto | split; [| split]]);
      unfold ProviderRouter.getProvider, getActiveProviderName,
        UserPreferences.getProvider, setProvider; simpl;
      rewrite ?lookup_insert_eq; simpl; rewrite ?Hl; done.
  - unfold ProviderRouter.getProvider, getActiveProviderName.
    destruct enabled; simpl; [| done].
    destruct (chatProviders r !! chatId) as [[|]|]; simpl.
    + done.
    + destruct (opencodeLoaded r) eqn:Hl; simpl; rewrite ?Hl; done.
    + destruct (UserPreferences.getProvider chatId (preferences r)) as [[|]|]; simpl;
        [done | | done].
      destruct (opencodeLoaded r) eqn:Hl; simpl; rewrite ?Hl; done.
Qed.

Lemma active_provider_follows_the_setting_witness :
  (ProviderRouter.getProvider true 7 (mkRouter {[7 := opencode]} true ∅)).1 = opencode
  ∧ opencodeLoaded (ProviderRouter.getProvider true 7 (mkRouter {[7 := opencode]} true ∅)).2
    = true.
Proof.
  split; [reflexivity |].
  apply (active_provider_follows_the_setting true true 7 claude ""
           (mkRouter {[7 := opencode]} true ∅)).
  reflexivity.
Defined.

End ProviderRouterProps.

(* ===================================================================== *)
(** * Properties of the string methods *)
(* ===================================================================== *)

Module JsStringProps.
Import Stdlib.Strings.Ascii JsString.

Lemma indexOf_app (c : ascii) (s r : string) :
  indexOf c s = None →
  indexOf c (s +:+ String c r) = Some (String.length s).
Proof.
  induction s as [| a s IH]; simpl; intros Hs.
  - by rewrite decide_True.
  - case_decide; [done |]. destruct (indexOf c s); [done |]. by rewrite IH.
Qed.

Lemma substring_app_l (s r : string) :
  String.substring 0 (String.length s) (s +:+ r) = s.
Proof.
  induction s as [| a s IH]; simpl; [by destruct r | by rewrite IH].
Qed.

Lemma substring_all (s : string) : String.substring 0 (String.length s) s = s.
Proof. induction s as [| a s IH]; simpl; [done | by rewrite IH]. Qed.

Lemma substring_app_r (s r : string) (n : nat) :
  String.substring (String.length s) n (s +:+ r) = String.substring 0 n r.
Proof. induction s as [| a s IH]; simpl; [done | exact IH]. Qed.

Lemma length_app_string (s r : string) :
  String.length (s +:+ r) = (String.length s + String.length r)%nat.
Proof. induction s as [| a s IH]; simpl; [done | by rewrite IH]. Qed.

Lemma slice_app (s r : string) : slice (s +:+ r) (String.length s) None = r.
Proof.
  unfold slice. induction s as [| a s IH].
  - simpl. rewrite Nat.sub_0_r. apply substring_all.
  - exact IH.
Qed.

Lemma slice_app_next (c : ascii) (s r : string) :
  slice (s +:+ String c r) (String.length s + 1) None = r.
Proof.
  unfold slice. induction s as [| a s IH].
  - simpl. rewrite Nat.sub_0_r. apply substring_all.
  - exact IH.
Qed.

(** Splitting at the first occurrence of a character recovers the parts. *)
Lemma split_at (c : ascii) (s r : string) :
  free_of c s →
  indexOf c (s +:+ String c r) = Some (String.length s)
  ∧ slice (s +:+ String c r) 0 (Some (String.length s)) = s
  ∧ slice (s +:+ String c r) (String.length s + 1) None = r
  ∧ slice (s +:+ String c r) (String.length s) None = String c r.
Proof.
  intros Hs. split; [by apply indexOf_app |]. split; [| split].
  - unfold slice. rewrite Nat.sub_0_r. apply substring_app_l.
  - apply slice_app_next.
  - apply slice_app.
Qed.

Lemma startsWith_app (p s : string) : startsWith p (p +:+ s) = true.
Proof.
  unfold startsWith. induction p as [| a p IH]; simpl; [by destruct s |].
  destruct (ascii_dec a a); [exact IH | done].
Qed.

End JsStringProps.

(* ===================================================================== *)
(** * Properties of session keys *)
(* ===================================================================== *)

Module SessionKeyProps.
Import Stdlib.Strings.Ascii JsString JsStringProps SessionKey.

Lemma pretty_N_go_free_of (x : N) (s : string) :
  free_of ":" s → free_of ":" (pretty_N_go x s).
Proof.
  revert s. induction (N.lt_wf_0 x) as [x _ IH]; intros s Hs.
  assert (x = 0 ∨ 0 < x)%N as [-> | Hx] by lia.
  - by rewrite pretty_N_go_0.
  - rewrite pretty_N_go_step by done. apply IH.
    + apply N.div_lt; lia.
    + unfold free_of in *. simpl. rewrite Hs.
      unfold pretty_N_char. by repeat case_match.
Qed.

Lemma pretty_free_of (z : Z) : free_of ":" (pretty z).
Proof.
  assert (Hpos : ∀ p : positive, free_of ":" (pretty p)).
  { intros p. unfold pretty, pretty_positive, pretty, pretty_N.
    case_decide; [done |]. by apply pretty_N_go_free_of. }
  unfold pretty, pretty_Z. destruct z as [| p | p]; [done | apply Hpos |].
  specialize (Hpos p). unfold free_of in *.
  change (indexOf ":" (String "-" (pretty p)) = None).
  cbn [indexOf]. rewrite decide_False by done. by rewrite Hpos.
Qed.

Lemma parse_build {number} (Number : string → number) (c : Z) (t : option Z) :
  parseSessionKey Number (buildSessionKey c t)
  = (Number (pretty c), (λ t, Number (pretty t)) <$> t).
Proof.
  unfold parseSessionKey, buildSessionKey. destruct t as [t |].
  - destruct (split_at ":" (pretty c) (pretty t) (pretty_free_of c))
      as (Hi & Hl & Hr & _).
    change (":" +:+ pretty t) with (String ":" (pretty t)).
    by rewrite Hi, Hl, Hr.
  - by rewrite (pretty_free_of c).
Qed.

Lemma build_inj (c1 c2 : Z) (t1 t2 : option Z) :
  buildSessionKey c1 t1 = buildSessionKey c2 t2 → c1 = c2 ∧ t1 = t2.
Proof.
  intros Heq.
  pose proof (parse_build id c1 t1) as H1.
  pose proof (parse_build id c2 t2) as H2.
  rewrite Heq, H2 in H1. unfold id in H1.
  injection H1 as Hc Ht. apply (inj pretty) in Hc. split; [done |].
  destruct t1, t2; simplify_eq/=; done.
Qed.

(** X15: parsing a session key built from a chat identifier and an
    optional thread identifier converts exactly the decimal numeral of the
    chat identifier, and that of the thread identifier when there is one:
    the key is split at the right place and no thread appears or is lost. *)
Theorem parseSessionKey_inverts_buildSessionKey
    {number} (Number : string → number) (chatId : Z) (threadId : option Z) :
  parseSessionKey Number (buildSessionKey chatId threadId)
  = (Number (pretty chatId), (λ t, Number (pretty t)) <$> threadId).
Proof. apply parse_build. Qed.

(** X16: session keys are injective: two keys are equal only for the
    same chat and the same thread, so a chat and a forum topic, or two
    topics, never share a session. *)
Theorem session_keys_are_distinct
    (chat1 chat2 : Z) (thread1 thread2 : option Z) :
  buildSessionKey chat1 thread1 = buildSessionKey chat2 thread2 →
  chat1 = chat2 ∧ thread1 = thread2.
Proof. apply build_inj. Qed.

Lemma session_keys_are_distinct_witness :
  (12345 : Z) = 12345 ∧ Some (42 : Z) = Some 42.
Proof.
  apply (session_keys_are_distinct 12345 12345 (Some 42) (Some 42)).
  reflexivity.
Defined.

(** X17: a context without chat, or whose chat has identifier 0, has no
    session key.  Otherwise the key is that of the chat, with a thread only
    when the message (the context's own, else the callback query's) is
    marked as a topic message, and two contexts have the same key only for
    the same chat and thread. *)
Theorem context_session_key (ctx ctx' : Ctx) :
  match getSessionKeyFromCtx ctx with
  | None => chat ctx = None ∨ chat ctx = Some 0
  | Some info =>
      chat ctx = Some (chatId info) ∧ chatId info ≠ 0
      ∧ sessionKey info = buildSessionKey (chatId info) (threadId info)
      ∧ match threadId info with
        | Some t => ∃ m, ctx_message ctx = Some m
                         ∧ is_topic_message m = Some true
                         ∧ message_thread_id m = Some t
        | None => True
        end
      ∧ match getSessionKeyFromCtx ctx' with
        | Some info' =>
            if decide (sessionKey info = sessionKey info')
            then chatId info = chatId info' ∧ threadId info = threadId info'
            else True
        | None => True
        end
  end.
Proof.
  assert (Hkey : ∀ c i, getSessionKeyFromCtx c = Some i →
            sessionKey i = buildSessionKey (chatId i) (threadId i)).
  { intros c i. unfold getSessionKeyFromCtx.
    destruct (chat c); [| done]. case_bool_decide; [done |].
    by intros [= <-]. }
  destruct (getSessionKeyFromCtx ctx) as [info |] eqn:Hctx.
  - pose proof (Hkey _ _ Hctx) as Hk.
    unfold getSessionKeyFromCtx in Hctx.
    destruct (chat ctx) as [id |]; [| done].
    case_bool_decide as Hid; [done |]. injection Hctx as <-. simpl.
    repeat split; [done | |].
    + destruct (ctx_message ctx) as [m |]; [| done].
      destruct (is_topic_message m) as [[|] |] eqn:Htopic; try done.
      destruct (message_thread_id m) as [t |] eqn:Hthread; [| done].
      by exists m.
    + destruct (getSessionKeyFromCtx ctx') as [info' |] eqn:Hctx'; [| done].
      case_decide as Heq; [| done].
      apply Hkey in Hctx'. simpl in Hk. rewrite Hctx' in Heq. simpl in Heq.
      by apply build_inj in Heq.
  - unfold getSessionKeyFromCtx in Hctx.
    destruct (chat ctx) as [id |]; [| by left].
    case_bool_decide as Hid; [| done]. right. by subst.
Qed.

End SessionKeyProps.

(* ===================================================================== *)
(** * Properties of the session manager *)
(* ===================================================================== *)

Module SessionManagerProps.
Import Stdlib.Strings.Ascii JsString JsStringProps SessionManager.

Lemma try_prefixes_exists_or_home env prefixes storedPath :
  existsSync env (try_prefixes env prefixes storedPath) = true
  ∨ try_prefixes env prefixes storedPath = homedir env.
Proof.
  induction prefixes as [| prefix prefixes IH]; simpl; [by right |].
  destruct (startsWith prefix storedPath); simpl; [| exact IH].
  destruct (existsSync env (remapped (homedir env) prefix storedPath)) eqn:He;
    [by left | exact IH].
Qed.

Lemma remapped_user home prefix user rest :
  free_of "/" user →
  remapped home prefix (prefix +:+ user +:+ String "/" rest)
  = home +:+ String "/" rest.
Proof.
  intros Huser. unfold remapped. rewrite slice_app.
  destruct (split_at "/" user rest Huser) as (-> & _ & _ & ->). done.
Qed.

(** X18: a stored working directory that exists is used as it is; in
    every case the directory that is used exists or is the home
    directory. *)
Theorem resolveWorkingDirectory_exists_or_is_home (env : Env) (storedPath : string) :
  (existsSync env storedPath = false
   ∨ resolveWorkingDirectory env storedPath = storedPath)
  ∧ (existsSync env (resolveWorkingDirectory env storedPath) = true
     ∨ resolveWorkingDirectory env storedPath = homedir env).
Proof.
  unfold resolveWorkingDirectory.
  destruct (existsSync env storedPath) eqn:He.
  - split; [by right | by left].
  - split; [by left | apply try_prefixes_exists_or_home].
Qed.

(** X19: a stored path under [/Users/<user>/] or [/home/<user>/] that
    does not exist on this system is remapped to the same path under the
    current home directory, if that exists. *)
Theorem stored_home_is_remapped (env : Env) (prefix user rest : string) :
  prefix ∈ homePrefixes →
  free_of "/" user →
  existsSync env (prefix +:+ user +:+ "/" +:+ rest) = false →
  existsSync env (homedir env +:+ "/" +:+ rest) = true →
  resolveWorkingDirectory env (prefix +:+ user +:+ "/" +:+ rest)
  = homedir env +:+ "/" +:+ rest.
Proof.
  intros Hprefix Huser Hnot Hthere.
  change ("/" +:+ rest) with (String "/" rest) in *.
  unfold resolveWorkingDirectory. rewrite Hnot.
  unfold homePrefixes in *.
  apply elem_of_cons in Hprefix as [-> | Hprefix].
  - cbn [try_prefixes]. rewrite startsWith_app.
    rewrite (remapped_user _ "/Users/" user rest Huser). by rewrite Hthere.
  - apply list_elem_of_singleton in Hprefix as ->.
    cbn [try_prefixes].
    replace (startsWith "/Users/" ("/home/" +:+ user +:+ String "/" rest))
      with false by done.
    cbn [andb]. rewrite startsWith_app.
    rewrite (remapped_user _ "/home/" user rest Huser). by rewrite Hthere.
Qed.

Lemma stored_home_is_remapped_witness :
  resolveWorkingDirectory
    (mkEnv (λ p, bool_decide (p = "/home/bob/proj")) "/home/bob")
    "/Users/alice/proj"
  = "/home/bob/proj".
Proof.
  apply (stored_home_is_remapped
           (mkEnv (λ p, bool_decide (p = "/home/bob/proj")) "/home/bob")
           "/Users/" "alice" "proj").
  - apply elem_of_cons. by left.
  - reflexivity.
  - reflexivity.
  - reflexivity.
Defined.

Section props.
Variable basename : string → string.

Implicit Types (m : Manager) (k : string)
  (h : gmap string (list SessionHistory.SessionHistoryEntry)).

Lemma lookup_same_history k conv (h h' : gmap string (list SessionHistory.SessionHistoryEntry)) :
  h' !! k = h !! k →
  SessionHistory.getSessionByConversationId k conv h'
  = SessionHistory.getSessionByConversationId k conv h.
Proof. intros Heq. unfold SessionHistory.getSessionByConversationId. by rewrite Heq. Qed.

Lemma recorded_update m k session' h' :
  recorded m →
  (∀ k', k' ≠ k → h' !! k' = history m !! k') →
  (∃ entry,
     SessionHistory.getSessionByConversationId k (conversationId session') h'
     = Some entry
     ∧ SessionHistory.projectPath entry = workingDirectory session'
     ∧ (claudeSessionId session' = None
        ∨ SessionHistory.claudeSessionId entry = claudeSessionId session')) →
  recorded (mkManager (<[k := session']> (sessions m)) h').
Proof.
  intros Hrec Hother Hnew key session. simpl.
  destruct (decide (key = k)) as [-> | Hne].
  - rewrite lookup_insert_eq. by intros [= <-].
  - rewrite lookup_insert_ne by done. intros Hlook.
    destruct (Hrec key session Hlook) as (entry & Hget & Hpath & Hclaude).
    exists entry. split; [| done].
    by rewrite (lookup_same_history key _ (history m) h') by by apply Hother.
Qed.

Lemma tidy_length (h : gmap string (list SessionHistory.SessionHistoryEntry)) k :
  SessionHistory.tidy h →
  (length (default [] (h !! k)) ≤ SessionHistory.MAX_HISTORY_PER_CHAT)%nat.
Proof.
  intros Htidy. destruct (Htidy k) as [Hlen _].
  unfold SessionHistory.conversations in Hlen. by rewrite length_fmap in Hlen.
Qed.

Lemma tidy_saveSession h k conv path preview cs t1 t2 :
  SessionHistory.tidy h →
  SessionHistory.tidy (SessionHistory.saveSession basename k conv path preview cs t1 t2 h).
Proof.
  intros Htidy.
  exact (SessionHistoryProps.tidy_step basename h
           (SessionHistory.SaveSession k conv path preview cs t1 t2) Htidy).
Qed.

Lemma tidy_updateLastMessage h k conv preview now :
  SessionHistory.tidy h →
  SessionHistory.tidy (SessionHistory.updateLastMessage k conv preview now h).
Proof.
  intros Htidy.
  exact (SessionHistoryProps.tidy_step basename h
           (SessionHistory.UpdateLastMessage k conv preview now) Htidy).
Qed.

Lemma tidy_updateClaudeSessionId h k conv id now :
  SessionHistory.tidy h →
  SessionHistory.tidy (SessionHistory.updateClaudeSessionId k conv id now h).
Proof.
  intros Htidy.
  exact (SessionHistoryProps.tidy_step basename h
           (SessionHistory.UpdateClaudeSessionId k conv id now) Htidy).
Qed.

Lemma createSession_inv env k dir conv generated clock m :
  consistent m → consistent (createSession basename env k dir conv generated clock m).2.
Proof.
  intros [Hrec Htidy]. unfold createSession, saveSession_from. simpl. split.
  - apply recorded_update; [done | |].
    + intros k' Hne. by apply SessionHistoryProps.saveSession_other_key.
    + eexists. split; [| split].
      * simpl. apply SessionHistoryProps.saveSession_lookup. by apply tidy_length.
      * done.
      * by left.
  - by apply tidy_saveSession.
Qed.

Lemma resumeSession_inv env k conv clock m :
  consistent m → consistent (resumeSession basename env k conv clock m).2.
Proof.
  intros [Hrec Htidy]. unfold resumeSession.
  destruct (SessionHistory.getSessionByConversationId k conv (history m))
    as [e |] eqn:Hget; [| done].
  assert (SessionHistory.conversationId e = conv) as Hconv.
  { unfold SessionHistory.getSessionByConversationId in Hget.
    destruct (SessionHistory.findConversation conv (default [] (history m !! k)))
      as [[i e'] |] eqn:Hfind; [| done].
    simpl in Hget. injection Hget as ->.
    by apply SessionHistoryProps.findConversation_Some in Hfind as (_ & ? & _). }
  unfold saveSession_from. simpl. split.
  - apply recorded_update; [done | |].
    + intros k' Hne. by apply SessionHistoryProps.saveSession_other_key.
    + eexists. split; [| split].
      * simpl. rewrite Hconv.
        apply SessionHistoryProps.saveSession_lookup. by apply tidy_length.
      * done.
      * simpl. destruct (SessionHistory.claudeSessionId e); [by right | by left].
  - by apply tidy_saveSession.
Qed.

Lemma step_inv m c : consistent m → consistent (step basename m c).
Proof.
  intros Hinv. destruct c as [env k dir conv generated clock | k preview clock
    | env k dir generated clock | k | env k conv clock | env k clock | k id clock].
  - by apply createSession_inv.
  - destruct Hinv as [Hrec Htidy]. simpl. unfold updateActivity.
    destruct (sessions m !! k) as [session |] eqn:Hk; [| done].
    destruct (Hrec k session Hk) as (entry & Hget & Hpath & Hclaude).
    assert (preview = None ∨ preview = Some ""
            ∨ ∃ p, preview = Some p ∧ p ≠ "") as [-> | [-> | (p & -> & Hp)]].
    { destruct preview as [p |]; [| by left]. right.
      destruct (decide (p = "")) as [-> | ?]; [by left | right; by exists p]. }
    + split; [| done]. apply recorded_update; [done | done |]. by exists entry.
    + split; [| done]. apply recorded_update; [done | done |]. by exists entry.
    + rewrite bool_decide_eq_false_2 by done. split.
      * apply recorded_update; [done | |].
        -- intros k' Hne. by apply SessionHistoryProps.updateEntry_other_key.
        -- eexists. split; [| split].
           ++ simpl. unfold SessionHistory.updateLastMessage.
              rewrite SessionHistoryProps.updateEntry_lookup by done.
              rewrite Hget. done.
           ++ done.
           ++ done.
      * by apply tidy_updateLastMessage.
  - simpl. unfold setWorkingDirectory.
    destruct (sessions m !! k) as [existing |] eqn:Hk;
      [| by apply createSession_inv].
    destruct Hinv as [Hrec Htidy]. unfold saveSession_from. simpl. split.
    + apply recorded_update; [done | |].
      * intros k' Hne. by apply SessionHistoryProps.saveSession_other_key.
      * eexists. split; [| split].
        -- simpl. apply SessionHistoryProps.saveSession_lookup. by apply tidy_length.
        -- done.
        -- simpl. destruct (claudeSessionId existing); [by right | by left].
    + by apply tidy_saveSession.
  - destruct Hinv as [Hrec Htidy]. simpl. split; [| done].
    intros key session. simpl. intros Hlook.
    apply lookup_delete_Some in Hlook as [_ Hlook]. by apply Hrec.
  - by apply resumeSession_inv.
  - simpl. unfold resumeLastSession.
    destruct (SessionHistory.getLastSession k (history m)); [| done].
    by apply resumeSession_inv.
  - destruct Hinv as [Hrec Htidy]. simpl. unfold setClaudeSessionId.
    destruct (sessions m !! k) as [session |] eqn:Hk; [| done].
    destruct (Hrec k session Hk) as (entry & Hget & Hpath & Hclaude).
    split.
    + apply recorded_update; [done | |].
      * intros k' Hne. by apply SessionHistoryProps.updateEntry_other_key.
      * eexists. split; [| split].
        -- simpl. unfold SessionHistory.updateClaudeSessionId.
           rewrite SessionHistoryProps.updateEntry_lookup by done.
           rewrite Hget. done.
        -- done.
        -- by right.
    + by apply tidy_updateClaudeSessionId.
Qed.

Lemma run_inv calls : consistent (run basename calls).
Proof.
  induction calls as [| c calls IH] using rev_ind.
  - split; [by intros key session Hlook |].
    intros k. unfold SessionHistory.conversations, run. simpl.
    rewrite lookup_empty. simpl. split; [lia | constructor].
  - unfold run in *. rewrite foldl_app. simpl. by apply step_inv.
Qed.

(** X20: after any calls of the session manager, starting with no
    session and an empty history, every session is recorded in the history
    of its key: the entry found for its conversation has its working
    directory and, if the session has a Claude session id, that id. *)
Theorem sessions_are_recorded_in_the_history (calls : list Call) (key : string) :
  match getSession key (run basename calls) with
  | Some session =>
      ∃ entry,
        SessionHistory.getSessionByConversationId key (conversationId session)
          (history (run basename calls)) = Some entry
        ∧ SessionHistory.conversationId entry = conversationId session
        ∧ SessionHistory.projectPath entry = workingDirectory session
        ∧ (claudeSessionId session = None
           ∨ SessionHistory.claudeSessionId entry = claudeSessionId session)
  | None => True
  end.
Proof.
  destruct (run_inv calls) as [Hrec _]. unfold getSession.
  destruct (sessions (run basename calls) !! key) as [session |] eqn:Hk; [| done].
  destruct (Hrec key session Hk) as (entry & Hget & Hpath & Hclaude).
  exists entry. split; [done |]. split; [| done].
  unfold SessionHistory.getSessionByConversationId in Hget.
  destruct (SessionHistory.findConversation (conversationId session)
              (default [] (history (run basename calls) !! key)))
    as [[i e'] |] eqn:Hfind; [| done].
  simpl in Hget. injection Hget as ->.
  by apply SessionHistoryProps.findConversation_Some in Hfind as (_ & ? & _).
Qed.

(** X21: a session that is cleared can be resumed: after any calls of
    the session manager, clearing the session of a key and resuming its
    conversation gives a session with the same conversation, the working
    directory resolved again (the same directory if it still exists) and,
    if the cleared session had one, the same Claude session id; the resumed
    session is the session of the key. *)
Theorem cleared_session_can_be_resumed
    (calls : list Call) (key : string) (env : Env) (clock : nat → string) :
  match getSession key (run basename calls) with
  | Some session =>
      let cleared := clearSession key (run basename calls) in
      let resumed :=
        resumeSession basename env key (conversationId session) clock cleared in
      getSession key cleared = None
      ∧ ∃ session',
          resumed.1 = Some session'
          ∧ getSession key resumed.2 = Some session'
          ∧ conversationId session' = conversationId session
          ∧ workingDirectory session'
            = resolveWorkingDirectory env (workingDirectory session)
          ∧ (claudeSessionId session = None
             ∨ claudeSessionId session' = claudeSessionId session)
  | None => True
  end.
Proof.
  destruct (run_inv calls) as [Hrec _]. unfold getSession.
  destruct (sessions (run basename calls) !! key) as [session |] eqn:Hk; [| done].
  destruct (Hrec key session Hk) as (entry & Hget & Hpath & Hclaude).
  assert (SessionHistory.conversationId entry = conversationId session) as Hconv.
  { unfold SessionHistory.getSessionByConversationId in Hget.
    destruct (SessionHistory.findConversation (conversationId session)
                (default [] (history (run basename calls) !! key)))
      as [[i e'] |] eqn:Hfind; [| done].
    simpl in Hget. injection Hget as ->.
    by apply SessionHistoryProps.findConversation_Some in Hfind as (_ & ? & _). }
  cbn zeta. split; [unfold clearSession; simpl; apply lookup_delete_eq |].
  unfold resumeSession, clearSession. cbn [history]. rewrite Hget.
  eexists. split; [reflexivity |]. cbn [snd sessions].
  split; [apply lookup_insert_eq |]. cbn [conversationId workingDirectory claudeSessionId].
  split; [done |]. split; [by rewrite Hpath |]. done.
Qed.

End props.

End SessionManagerProps.

(* ===================================================================== *)
(** * Properties of resolving a binary *)
(* ===================================================================== *)

Module ResolveBinProps.
Import Stdlib.Strings.Ascii JsString ResolveBin.

Section props.
Variable env : Env.

Lemma isValidExecutable_executable p :
  isValidExecutable env p = true → executable env p.
Proof.
  unfold isValidExecutable, executable, isWin.
  destruct (realpathSync env p) as [target |]; [| done].
  destruct (statSync env target) as [stats |] eqn:Hstat; [| done].
  destruct (isFile stats) eqn:Hfile; simpl; [| done].
  intros Hmode. exists target, stats. repeat split; try done.
  case_bool_decide as Hwin; [by left |]. right. simpl in Hmode.
  by case_bool_decide.
Qed.

Lemma search_valid dirs name p :
  search env dirs name = Some p → isValidExecutable env p = true.
Proof.
  induction dirs as [| dir dirs IH]; simpl; [done |].
  destruct (isValidExecutable env (join env dir name)) eqn:Hvalid; [| exact IH].
  by intros [= <-].
Qed.

Lemma lookup_valid name p :
  lookup env name = Some p → p ≠ "" ∧ isValidExecutable env p = true.
Proof.
  unfold lookup. destruct (execFileSync env _ name) as [result |]; [| done].
  simpl. case_bool_decide as Hne; simpl; [done |].
  destruct (isValidExecutable env _) eqn:Hvalid; [| done]. by intros [= <-].
Qed.

(** The ways in which the part from the lookup on ends. *)
Lemma resolve_uncached_cases dirs name cache :
  (∃ p, isValidExecutable env p = true
        ∧ (isValidExecutable env "" = true ∨ p ≠ "")
        ∧ resolve_uncached env dirs name cache
          = mkOutcome (Some p) (<[name := p]> cache) true)
  ∨ (lookup env name = None ∧ search env dirs name = None
     ∧ resolve_uncached env dirs name cache = mkOutcome (Some name) cache true).
Proof.
  unfold resolve_uncached.
  destruct (lookup env name) as [resolved |] eqn:Hlook.
  - apply lookup_valid in Hlook as [Hne Hvalid]. left. exists resolved. eauto.
  - destruct (search env dirs name) as [fullPath |] eqn:Hsearch.
    + left. exists fullPath. pose proof (search_valid _ _ _ Hsearch) as Hvalid.
      split; [done |]. split; [| done].
      destruct (decide (fullPath = "")) as [-> | ?]; [by left | by right].
    + by right.
Qed.

(** The ways in which a call that is not rejected ends: with the valid
    cached path, or through the lookup on a cache without a usable entry
    for the name. *)
Lemma resolveBin_cases dirs name cache :
  rejected name = false →
  (∃ p, cache !! name = Some p ∧ p ≠ "" ∧ isValidExecutable env p = true
        ∧ resolveBin env dirs name cache = mkOutcome (Some p) cache false)
  ∨ (∃ cache1,
       (∀ other, other ≠ name → cache1 !! other = cache !! other)
       ∧ (cache1 !! name = None ∨ cache1 !! name = Some "")
       ∧ resolveBin env dirs name cache = resolve_uncached env dirs name cache1).
Proof.
  intros Hok. unfold resolveBin. rewrite Hok.
  destruct (cache !! name) as [cached |] eqn:Hcached.
  - case_bool_decide as Hempty.
    + right. exists cache. subst cached. split; [done |]. split; [by right | done].
    + destruct (isValidExecutable env cached) eqn:Hvalid.
      * left. by exists cached.
      * right. exists (base.delete name cache).
        split; [intros other Ho; by rewrite lookup_delete_ne |].
        split; [left; apply lookup_delete_eq | done].
  - right. exists cache. split; [done |]. split; [by left | done].
Qed.

Lemma resolveBin_uncached dirs name cache :
  rejected name = false →
  cache !! name = None ∨ cache !! name = Some "" →
  resolveBin env dirs name cache = resolve_uncached env dirs name cache.
Proof.
  intros Hok Hcache. unfold resolveBin. rewrite Hok.
  destruct Hcache as [-> | ->]; [done |]. by rewrite bool_decide_eq_true_2.
Qed.

Lemma resolveBin_cached dirs name cache p :
  rejected name = false →
  cache !! name = Some p → p ≠ "" → isValidExecutable env p = true →
  resolveBin env dirs name cache = mkOutcome (Some p) cache false.
Proof.
  intros Hok Hcache Hne Hvalid. unfold resolveBin.
  rewrite Hok, Hcache, bool_decide_eq_false_2, Hvalid by done. done.
Qed.

(** X22: [resolveBin] throws, without looking anything up and leaving
    the cache as it is, exactly for a name that contains a slash, a backslash
    or two dots in a row.  Otherwise it returns the bare name or a valid
    executable (a path that resolves to a regular file with, except on
    Windows, an execute bit), which is then cached for the name.  The cache
    entries of other names are never changed. *)
Theorem resolveBin_returns_an_executable_or_the_name
    (dirs : list string) (name other : string) (cache : gmap string string) :
  match returned (resolveBin env dirs name cache) with
  | None =>
      rejected name = true
      ∧ cache_after (resolveBin env dirs name cache) = cache
      ∧ spawned (resolveBin env dirs name cache) = false
  | Some p =>
      rejected name = false
      ∧ (p = name
         ∨ (executable env p
            ∧ cache_after (resolveBin env dirs name cache) !! name = Some p))
  end
  ∧ (other = name
     ∨ cache_after (resolveBin env dirs name cache) !! other = cache !! other).
Proof.
  destruct (rejected name) eqn:Hok.
  { unfold resolveBin. rewrite Hok. simpl. split; [done | by right]. }
  destruct (resolveBin_cases dirs name cache Hok)
    as [(p & Hcached & Hne & Hvalid & ->) | (cache1 & Hother & Hname & ->)].
  - simpl. split; [| by right]. split; [done |]. right.
    split; [by apply isValidExecutable_executable | done].
  - destruct (resolve_uncached_cases dirs name cache1)
      as [(p & Hvalid & _ & ->) | (_ & _ & ->)]; simpl.
    + split.
      * split; [done |]. right.
        split; [by apply isValidExecutable_executable | apply lookup_insert_eq].
      * destruct (decide (other = name)) as [-> | Hne]; [by left | right].
        rewrite lookup_insert_ne by done. by apply Hother.
    + split; [split; [done | by left] |].
      destruct (decide (other = name)) as [-> | Hne]; [by left | right].
      by apply Hother.
Qed.

(** X23: if the empty path is no valid executable, a second call for
    the same name in the same environment returns what the first call
    returned and leaves the cache as the first call left it; and unless the
    first call fell back to the bare name, the second call is answered from
    the cache, without running the lookup command. *)
Theorem resolveBin_again_is_answered_from_the_cache
    (dirs : list string) (name : string) (cache : gmap string string) :
  isValidExecutable env "" = false →
  let first := resolveBin env dirs name cache in
  let second := resolveBin env dirs name (cache_after first) in
  returned second = returned first
  ∧ cache_after second = cache_after first
  ∧ (returned first = Some name ∨ spawned second = false).
Proof.
  intros Hempty first second. subst second first.
  destruct (rejected name) eqn:Hok.
  { unfold resolveBin. rewrite Hok. simpl. rewrite ?Hok. simpl.
    split; [done |]. split; [done | by right]. }
  assert (Hfound : ∀ p c, isValidExecutable env p = true →
            resolveBin env dirs name (<[name := p]> c)
            = mkOutcome (Some p) (<[name := p]> c) false).
  { intros p c Hvalid. apply resolveBin_cached; [done | apply lookup_insert_eq | | done].
    intros ->. by rewrite Hempty in Hvalid. }
  destruct (resolveBin_cases dirs name cache Hok)
    as [(p & Hcached & Hne & Hvalid & ->) | (cache1 & Hother & Hname & ->)].
  - simpl. rewrite (resolveBin_cached dirs name cache p) by done. simpl.
    split; [done |]. split; [done | by right].
  - destruct (resolve_uncached_cases dirs name cache1)
      as [(p & Hvalid & _ & ->) | (Hlook & Hsearch & Heq)].
    + simpl. rewrite Hfound by done. simpl.
      split; [done |]. split; [done | by right].
    + rewrite Heq. simpl. rewrite resolveBin_uncached by done. rewrite Heq. simpl.
      split; [done |]. split; [done | by left].
Qed.

End props.

Lemma resolveBin_again_is_answered_from_the_cache_witness :
  returned (resolveBin example_env ["/usr/bin"] "ffmpeg"
              (cache_after (resolveBin example_env ["/usr/bin"] "ffmpeg" ∅)))
  = Some "/usr/bin/ffmpeg"
  ∧ spawned (resolveBin example_env ["/usr/bin"] "ffmpeg"
               (cache_after (resolveBin example_env ["/usr/bin"] "ffmpeg" ∅)))
    = false.
Proof.
  destruct (resolveBin_again_is_answered_from_the_cache example_env
              ["/usr/bin"] "ffmpeg" ∅) as (Hret & _ & Hspawn); [reflexivity |].
  split; [exact Hret |]. destruct Hspawn as [Hname | Hspawn]; [done | exact Hspawn].
Defined.

End ResolveBinProps.

(* ===================================================================== *)
(** * Properties of the OpenCode port and model *)
(* ===================================================================== *)

Module OpenCodeProps.
Import Stdlib.Strings.Ascii JsString JsStringProps OpenCode.

Lemma default_in_range :
  Qc_of_Z 1 ≤q Qc_of_Z 4096 ∧ Qc_of_Z 4096 ≤q Qc_of_Z 65535.
Proof. split; apply (proj1 (Z2Qc_inj_le _ _)); lia. Qed.

(** The check of the range, on a finite number. *)
Lemma validatePort_finite (q : Qcanon.Qc) :
  validatePort (VNumber (Finite q))
  = Finite (if bool_decide (Qc_of_Z 1 ≤q q ∧ q ≤q Qc_of_Z 65535)
            then q else Qc_of_Z 4096).
Proof.
  unfold validatePort, lt, gt. simpl.
  destruct (decide (Qcanon.Qclt q (Qc_of_Z 1))) as [Hlow | Hlow].
  - rewrite bool_decide_eq_true_2 by done. simpl.
    rewrite bool_decide_eq_false_2; [done |].
    intros [Hle _]. by apply Qcanon.Qcle_not_lt in Hle.
  - rewrite bool_decide_eq_false_2 by done. simpl.
    destruct (decide (Qcanon.Qclt (Qc_of_Z 65535) q)) as [Hhigh | Hhigh].
    + rewrite bool_decide_eq_true_2 by done.
      rewrite bool_decide_eq_false_2; [done |].
      intros [_ Hle]. by apply Qcanon.Qcle_not_lt in Hle.
    + rewrite bool_decide_eq_false_2 by done.
      rewrite bool_decide_eq_true_2; [done |].
      split; by apply Qcanon.Qcnot_lt_le.
Qed.

Lemma validatePort_string (s : string) :
  validatePort (VString s) = validatePort (VNumber (number_of (parseInt s))).
Proof. done. Qed.

Lemma validatePort_integer (z : Z) :
  validatePort (VNumber (Finite (Qc_of_Z z)))
  = Finite (Qc_of_Z (if bool_decide (1 ≤ z ≤ 65535) then z else 4096)).
Proof.
  rewrite validatePort_finite. f_equal.
  destruct (decide (1 ≤ z ≤ 65535)) as [Hin | Hout].
  - rewrite (bool_decide_eq_true_2 (1 ≤ z ≤ 65535)) by done.
    rewrite bool_decide_eq_true_2; [done |].
    split; apply (proj1 (Z2Qc_inj_le _ _)); lia.
  - rewrite (bool_decide_eq_false_2 (1 ≤ z ≤ 65535)) by done.
    rewrite bool_decide_eq_false_2; [done |].
    intros [Hlow Hhigh]. apply Hout.
    split; by apply (proj2 (Z2Qc_inj_le _ _)).
Qed.

(** X24: whatever the configured value is, [validatePort] returns a
    finite number from 1 to 65535, and which one is fixed in every case:
    4096 for [undefined], [null], a value that is neither a string nor a
    number, [NaN] and the infinities; for a string, the integer that
    [parseInt] reads if there is one and it is from 1 to 65535, and 4096
    otherwise; for a finite number, the number itself if it is from 1 to
    65535, an integer or not, and 4096 otherwise. *)
Theorem validatePort_returns_a_port
    (portValue : JsValue) (s : string) (q : Qcanon.Qc) (negative : bool) :
  (∃ port, validatePort portValue = Finite port
           ∧ Qc_of_Z 1 ≤q port ∧ port ≤q Qc_of_Z 65535)
  ∧ validatePort VUndefined = Finite (Qc_of_Z 4096)
  ∧ validatePort VNull = Finite (Qc_of_Z 4096)
  ∧ validatePort VOther = Finite (Qc_of_Z 4096)
  ∧ validatePort (VNumber NaN) = Finite (Qc_of_Z 4096)
  ∧ validatePort (VNumber (Infinity negative)) = Finite (Qc_of_Z 4096)
  ∧ validatePort (VString s)
    = Finite (Qc_of_Z match parseInt s with
                      | Some n => if bool_decide (1 ≤ n ≤ 65535) then n else 4096
                      | None => 4096
                      end)
  ∧ validatePort (VNumber (Finite q))
    = Finite (if bool_decide (Qc_of_Z 1 ≤q q ∧ q ≤q Qc_of_Z 65535)
              then q else Qc_of_Z 4096).
Proof.
  assert (Hstring : ∀ s',
            validatePort (VString s')
            = Finite (Qc_of_Z match parseInt s' with
                              | Some n =>
                                  if bool_decide (1 ≤ n ≤ 65535) then n else 4096
                              | None => 4096
                              end)).
  { intros s'. rewrite validatePort_string.
    destruct (parseInt s') as [z |]; cbn [number_of]; [| done].
    apply validatePort_integer. }
  split.
  - destruct portValue as [| | s' | [| neg | x] |].
    + exists (Qc_of_Z 4096). split; [done | apply default_in_range].
    + exists (Qc_of_Z 4096). split; [done | apply default_in_range].
    + rewrite Hstring. eexists. split; [done |].
      assert (1 ≤ match parseInt s' with
                  | Some n => if bool_decide (1 ≤ n ≤ 65535) then n else 4096
                  | None => 4096
                  end ≤ 65535) as Hn.
      { destruct (parseInt s') as [n |]; [| lia]. case_bool_decide; lia. }
      split; apply (proj1 (Z2Qc_inj_le _ _)); lia.
    + exists (Qc_of_Z 4096). split; [done | apply default_in_range].
    + exists (Qc_of_Z 4096). split; [by destruct neg | apply default_in_range].
    + rewrite validatePort_finite. case_bool_decide as Hin.
      * by exists x.
      * exists (Qc_of_Z 4096). split; [done | apply default_in_range].
    + exists (Qc_of_Z 4096). split; [done | apply default_in_range].
  - split; [done |]. split; [done |]. split; [done |]. split; [done |].
    split; [by destruct negative |].
    split; [apply Hstring | apply validatePort_finite].
Qed.

Lemma small_cases (d : N) :
  (d < 10)%N →
  d ∈ [0; 1; 2; 3; 4; 5; 6; 7; 8; 9]%N.
Proof.
  intros Hd.
  assert (d = 0 ∨ d = 1 ∨ d = 2 ∨ d = 3 ∨ d = 4 ∨ d = 5 ∨ d = 6 ∨ d = 7
          ∨ d = 8 ∨ d = 9)%N as Hcases by lia.
  destruct_or!; subst; set_solver.
Qed.

(** A decimal digit as written by [pretty]: it has its value, and is no
    white space and no sign. *)
Lemma digit_char (d : N) :
  (d < 10)%N →
  digit_of (pretty_N_char d) = Some d
  ∧ isWhiteSpace (pretty_N_char d) = false
  ∧ pretty_N_char d ≠ "-"%char ∧ pretty_N_char d ≠ "+"%char.
Proof.
  intros Hd%small_cases.
  repeat (apply elem_of_cons in Hd as [-> | Hd]; [by vm_compute |]).
  by apply elem_of_nil in Hd.
Qed.

(** Reading the digits that [pretty] wrote gives the number back. *)
Lemma digits_value_pretty (x : N) :
  (0 < x)%N →
  ∃ k : N, ∀ s acc seen,
    digits_value (pretty_N_go x s) acc seen
    = digits_value s (acc * 10 ^ k + x)%N true.
Proof.
  induction (N.lt_wf_0 x) as [x _ IH]. intros Hx.
  assert (Hmod : (x `mod` 10 < 10)%N) by (apply N.mod_lt; lia).
  destruct (digit_char _ Hmod) as (Hdigit & _).
  pose proof (N.div_mod x 10 ltac:(lia)) as Hsplit.
  destruct (decide (x `div` 10 = 0)%N) as [Hzero | Hpos].
  - exists 1%N. intros s acc seen. rewrite pretty_N_go_step by done.
    rewrite Hzero, pretty_N_go_0. cbn [digits_value]. rewrite Hdigit.
    f_equal. rewrite N.pow_1_r. lia.
  - destruct (IH (x `div` 10)%N) as [k Hk]; [apply N.div_lt; lia | lia |].
    exists (N.succ k). intros s acc seen. rewrite pretty_N_go_step by done.
    rewrite Hk. cbn [digits_value]. rewrite Hdigit.
    f_equal. rewrite N.pow_succ_r by lia. lia.
Qed.

Lemma pretty_N_go_first (x : N) (s : string) :
  (0 < x)%N →
  ∃ d rest, (d < 10)%N ∧ pretty_N_go x s = String (pretty_N_char d) rest.
Proof.
  revert s. induction (N.lt_wf_0 x) as [x _ IH]. intros s Hx.
  rewrite pretty_N_go_step by done.
  destruct (decide (x `div` 10 = 0)%N) as [Hzero | Hpos].
  - rewrite Hzero, pretty_N_go_0. exists (x `mod` 10)%N, s.
    split; [apply N.mod_lt; lia | done].
  - apply IH.
    + apply N.div_lt; lia.
    + by apply N.neq_0_lt_0.
Qed.

Lemma parseInt_pretty (z : Z) : parseInt (pretty z) = Some z.
Proof.
  assert (Hpos : ∀ p : positive,
            pretty (Z.pos p) = pretty_N_go (N.pos p) ""
            ∧ digits_value (pretty_N_go (N.pos p) "") 0 false = Some (N.pos p)).
  { intros p. split; [done |].
    destruct (digits_value_pretty (N.pos p)) as [k Hk]; [lia |].
    by rewrite Hk. }
  destruct z as [| p | p].
  - done.
  - destruct (Hpos p) as [-> Hvalue].
    destruct (pretty_N_go_first (N.pos p) "") as (d & rest & Hd & Hfirst); [lia |].
    destruct (digit_char d Hd) as (_ & Hspace & Hminus & Hplus).
    unfold parseInt. rewrite Hfirst. cbn [trimStart]. rewrite Hspace.
    rewrite !bool_decide_eq_false_2 by done.
    rewrite <- Hfirst, Hvalue. done.
  - destruct (Hpos p) as [Hpretty Hvalue].
    change (pretty (Z.neg p)) with (String "-" (pretty (Z.pos p))).
    rewrite Hpretty. unfold parseInt. cbn [trimStart].
    replace (isWhiteSpace "-") with false by done.
    rewrite bool_decide_eq_true_2 by done. rewrite Hvalue. done.
Qed.

(** X25: a port written as a decimal numeral is read back: the string
    form of an integer from 1 to 65535 is accepted as that port, and the
    string form of any other integer gives the default port 4096. *)
Theorem validatePort_reads_decimal_numerals (p : Z) :
  parseInt (pretty p) = Some p
  ∧ validatePort (VString (pretty p))
    = Finite (Qc_of_Z (if bool_decide (1 ≤ p ≤ 65535) then p else 4096)).
Proof.
  split; [apply parseInt_pretty |].
  rewrite validatePort_string, parseInt_pretty. apply validatePort_integer.
Qed.

Lemma falsy_false (model : option string) :
  falsy model = false → ∃ m, model = Some m ∧ m ≠ "".
Proof.
  destruct model as [m |]; simpl; [| done]. case_bool_decide; [done |].
  intros _. by exists m.
Qed.

(** What the common start finds: the cached model if it is not empty, else
    the persisted one; the preferences and the server's list are kept. *)
Lemma cached_or_persisted_spec chatId st :
  (cached_or_persisted chatId st).1
  = (if falsy (chatModels st !! chatId)
     then UserPreferences.getModel chatId (preferences st)
     else chatModels st !! chatId)
  ∧ preferences (cached_or_persisted chatId st).2 = preferences st
  ∧ cachedModels (cached_or_persisted chatId st).2 = cachedModels st
  ∧ (coherent st → coherent (cached_or_persisted chatId st).2).
Proof.
  unfold cached_or_persisted.
  destruct (falsy (chatModels st !! chatId)) eqn:Hcache; [| done].
  destruct (UserPreferences.getModel chatId (preferences st)) as [persisted |]
    eqn:Hpersisted; [| done].
  destruct (falsy (Some persisted)) eqn:Hfalsy; [done |].
  simpl. repeat split. intros Hco chat model. simpl.
  destruct (decide (chat = chatId)) as [-> | Hne].
  - rewrite lookup_insert_eq. by intros [= <-].
  - rewrite lookup_insert_ne by done. apply Hco.
Qed.

(** X26: [getModelSpec] and [getModel] agree: they leave the same
    state, and [getModelSpec] throws only when [getModel] answers "unknown",
    and otherwise returns the provider and the model that the answer of
    [getModel] splits into. *)
Theorem getModelSpec_agrees_with_getModel (chatId : Z) (st : Models) :
  (getModelSpec chatId st).2 = (getModel chatId st).2
  ∧ match (getModelSpec chatId st).1 with
    | None => (getModel chatId st).1 = "unknown"
    | Some spec => spec = split_model (getModel chatId st).1
    end.
Proof.
  unfold getModelSpec, getModel.
  destruct (cached_or_persisted chatId st) as [model st'].
  destruct model as [m |], (cachedModels st') as [[| first models] |]; simpl;
    repeat case_bool_decide; simpl; repeat case_bool_decide; simpl; try done.
Qed.

Lemma split_provider (provider model : string) :
  free_of "/" provider → provider ≠ "" →
  split_model (provider +:+ "/" +:+ model) = (provider, model).
Proof.
  intros Hfree Hne. unfold split_model.
  change ("/" +:+ model) with (String "/" model).
  destruct (split_at "/" provider model Hfree) as (-> & Hl & Hr & _).
  destruct provider as [| a provider]; [done |].
  cbn [String.length] in *. by rewrite Hl, Hr.
Qed.

(** A model written as provider, slash, model, with a provider
    that is not empty and has no slash, is split into that provider and that
    model, whatever slashes the model has; a model without slash is taken
    as a model of the provider "anthropic". *)
Lemma models_split_at_the_first_slash (provider model : string) :
  free_of "/" provider →
  (provider = "" ∨ split_model (provider +:+ "/" +:+ model) = (provider, model))
  ∧ split_model provider = ("anthropic", provider).
Proof.
  intros Hfree. split.
  - destruct (decide (provider = "")) as [? | Hne]; [by left | right].
    by apply split_provider.
  - unfold split_model, free_of in *. by rewrite Hfree.
Qed.

Section runs.
Variable loaded : gmap Z UserPreferences.Preferences.

Lemma models_run_snoc calls c : run loaded (calls ++ [c]) = step (run loaded calls) c.
Proof. unfold run. by rewrite foldl_app. Qed.

Lemma configured_snoc chatId calls c :
  configured chatId loaded (calls ++ [c])
  = chosen chatId (configured chatId loaded calls) c.
Proof. unfold configured. by rewrite foldl_app. Qed.

(** After any calls the cache holds only what is persisted, and what is
    persisted is the model last set and not cleared since. *)
Lemma run_coherent calls :
  coherent (run loaded calls)
  ∧ ∀ chatId,
      UserPreferences.getModel chatId (preferences (run loaded calls))
      = configured chatId loaded calls.
Proof.
  induction calls as [| c calls [Hco Hpref]] using rev_ind.
  - split; [by intros chatId model Hlook | done].
  - rewrite models_run_snoc. set (st := run loaded calls) in *.
    destruct c as [chatId model now | chatId | chatId | chatId now | models
                  | chatId name now]; simpl.
    + split.
      * intros chat m. simpl. rewrite UserPreferencesProps.getModel_setModel.
        case_bool_decide as Heq.
        -- subst. by rewrite lookup_insert_eq.
        -- rewrite lookup_insert_ne by done. apply Hco.
      * intros chat. rewrite configured_snoc. simpl.
        rewrite UserPreferencesProps.getModel_setModel. by rewrite Hpref.
    + destruct (cached_or_persisted_spec chatId st) as (_ & Hp & _ & Hc).
      unfold getModel. destruct (cached_or_persisted chatId st) as [model st'].
      simpl in *. split; [by apply Hc |].
      intros chat. rewrite configured_snoc. simpl. by rewrite Hp.
    + destruct (cached_or_persisted_spec chatId st) as (_ & Hp & _ & Hc).
      unfold getModelSpec. destruct (cached_or_persisted chatId st) as [model st'].
      simpl in *.
      assert (∀ (o : option string),
                (match o with
                 | Some m => if bool_decide (m = "") then (None, st')
                             else (Some (split_model m), st')
                 | None => (None, st')
                 end).2 = st') as Hsnd.
      { intros [m |]; [by case_bool_decide | done]. }
      rewrite Hsnd. split; [by apply Hc |].
      intros chat. rewrite configured_snoc. simpl. by rewrite Hp.
    + split.
      * intros chat m. simpl. rewrite UserPreferencesProps.getModel_clearModel.
        case_bool_decide as Heq.
        -- subst. by rewrite lookup_delete_eq.
        -- rewrite lookup_delete_ne by done. apply Hco.
      * intros chat. rewrite configured_snoc. simpl.
        rewrite UserPreferencesProps.getModel_clearModel. by rewrite Hpref.
    + split; [exact Hco |]. intros chat. rewrite configured_snoc. simpl. apply Hpref.
    + split.
      * intros chat m. simpl. rewrite UserPreferencesProps.getModel_setProvider.
        apply Hco.
      * intros chat. rewrite configured_snoc. simpl.
        rewrite UserPreferencesProps.getModel_setProvider. apply Hpref.
Qed.

(** X27: after any calls that set, read or clear models, refresh the
    server's list or persist a provider, [getModel] answers for a chat with
    the model last set for the chat and not cleared since (or, if none was
    set or cleared, the one loaded from the preferences); if there is none,
    or it is empty, it answers with the first model of the server's list,
    and with "unknown" if that is missing too.  The in-memory cache never
    shadows a model that was changed or cleared. *)
Theorem getModel_answers_with_the_model_last_set (calls : list Call) (chatId : Z) :
  (getModel chatId (run loaded calls)).1
  = or_unknown (configured chatId loaded calls) (served (run loaded calls)).
Proof.
  destruct (run_coherent calls) as [Hco Hpref].
  set (st := run loaded calls) in *. specialize (Hpref chatId).
  destruct (cached_or_persisted_spec chatId st) as (Hmodel & _ & Hlist & _).
  unfold getModel, served.
  destruct (cached_or_persisted chatId st) as [model st']. simpl in *.
  rewrite Hlist.
  assert (model = configured chatId loaded calls) as ->.
  { rewrite Hmodel. destruct (falsy (chatModels st !! chatId)) eqn:Hcache; [done |].
    apply falsy_false in Hcache as (m & Hm & _). rewrite Hm.
    rewrite <- Hpref. symmetry. by apply Hco. }
  unfold or_unknown.
  destruct (configured chatId loaded calls) as [m |]; simpl; [| done].
  by case_bool_decide.
Qed.

End runs.

End OpenCodeProps.

(* ===================================================================== *)
(** * Properties of the atomic write and of the terminal settings *)
(* ===================================================================== *)

Module AtomicWriteProps.
Import AtomicWrite.

Lemma tmp_differs (filePath : string) : filePath +:+ ".tmp" ≠ filePath.
Proof.
  intros Heq. apply (f_equal String.length) in Heq.
  rewrite JsStringProps.length_app_string in Heq. simpl in Heq. lia.
Qed.

(** X28: [atomicWriteFileSync] never leaves the file partly written:
    when it returns, the file has the new content and the temporary file is
    gone; when it throws, the file is what it was before the call, and the
    temporary file is gone unless removing it failed.  No file other than
    the file and its temporary file is touched. *)
Theorem atomic_write_is_all_or_nothing
    (fault : Fault) (unlinkFails : bool) (filePath data other : string)
    (files : gmap string string) :
  let tmpPath := filePath +:+ ".tmp" in
  let result := atomicWriteFileSync fault unlinkFails filePath data files in
  (if result.1
   then fault = NoFault
        ∧ result.2 !! filePath = Some data ∧ result.2 !! tmpPath = None
   else fault ≠ NoFault
        ∧ result.2 !! filePath = files !! filePath
        ∧ (unlinkFails = true ∨ result.2 !! tmpPath = None))
  ∧ (other = filePath ∨ other = tmpPath ∨ result.2 !! other = files !! other).
Proof.
  intros tmpPath result. subst result.
  pose proof (tmp_differs filePath) as Htmp. fold tmpPath in Htmp.
  assert (Hother : other = filePath ∨ other = tmpPath
                   ∨ (other ≠ filePath ∧ other ≠ tmpPath)).
  { destruct (decide (other = filePath)); [by left |].
    destruct (decide (other = tmpPath)); [right; by left | right; by right]. }
  unfold atomicWriteFileSync. fold tmpPath.
  destruct fault as [| partial |]; simpl.
  - unfold renameSync, writeFileSync. rewrite lookup_insert_eq. split.
    + split; [done |]. split.
      * rewrite lookup_delete_ne by done. apply lookup_insert_eq.
      * apply lookup_delete_eq.
    + destruct Hother as [? | [? | [Hf Ht]]]; [by left | right; by left |].
      right. right. by rewrite lookup_delete_ne, !lookup_insert_ne.
  - unfold unlinkSync. split.
    + split; [done |]. split.
      * destruct unlinkFails, partial;
          rewrite ?lookup_delete_ne, ?lookup_insert_ne, ?lookup_delete_ne by done;
          done.
      * destruct unlinkFails; [by left | right; apply lookup_delete_eq].
    + destruct Hother as [? | [? | [Hf Ht]]]; [by left | right; by left |].
      right. right.
      destruct unlinkFails, partial;
        rewrite ?lookup_delete_ne, ?lookup_insert_ne, ?lookup_delete_ne by done;
        done.
  - unfold unlinkSync, writeFileSync. split.
    + split; [done |]. split.
      * destruct unlinkFails;
          rewrite ?lookup_delete_ne, ?lookup_insert_ne by done; done.
      * destruct unlinkFails; [by left | right; apply lookup_delete_eq].
    + destruct Hother as [? | [? | [Hf Ht]]]; [by left | right; by left |].
      right. right.
      destruct unlinkFails;
        rewrite ?lookup_delete_ne, ?lookup_insert_ne by done; done.
Qed.

End AtomicWriteProps.

Module TerminalSettingsProps.
Import TerminalSettings.

Section props.
Variable TERMINAL_UI_DEFAULT : bool.

Lemma loadSettings_lookup file k :
  loadSettings TERMINAL_UI_DEFAULT file ∅ !! k
  = from_file TERMINAL_UI_DEFAULT k file.
Proof.
  unfold loadSettings, from_file. destruct file as [entries |]; [| done]. simpl.
  induction entries as [| entry entries IH] using rev_ind; [done |].
  rewrite !foldl_app. simpl. case_bool_decide as Heq.
  - subst. by rewrite lookup_insert_eq.
  - rewrite lookup_insert_ne by done. exact IH.
Qed.

(** What a call leaves for a key: the value set, or the value that was
    there, the default taking the place of a missing one for the key that
    is read. *)
Lemma step_enabled (st : gmap string bool) c k :
  default TERMINAL_UI_DEFAULT (step TERMINAL_UI_DEFAULT st c !! k)
  = match c with
    | SetEnabled k' enabled =>
        if bool_decide (k' = k) then enabled
        else default TERMINAL_UI_DEFAULT (st !! k)
    | _ => default TERMINAL_UI_DEFAULT (st !! k)
    end.
Proof.
  destruct c as [k' | k' enabled | k']; simpl;
    unfold setTerminalUIEnabled, isTerminalUIEnabled, getTerminalUISettings.
  - destruct (st !! k') eqn:Hk'; [done |]. simpl.
    destruct (decide (k' = k)) as [-> | Hne].
    + by rewrite lookup_insert_eq, Hk'.
    + by rewrite lookup_insert_ne.
  - case_bool_decide as Heq.
    + subst. destruct (st !! k); by rewrite lookup_insert_eq.
    + destruct (st !! k'); by rewrite !lookup_insert_ne.
  - destruct (st !! k') eqn:Hk'; [done |]. simpl.
    destruct (decide (k' = k)) as [-> | Hne].
    + by rewrite lookup_insert_eq, Hk'.
    + by rewrite lookup_insert_ne.
Qed.

(** X29: after any calls that read or set the terminal settings,
    [isTerminalUIEnabled] answers for a key with the value last set for the
    key; if none was set, with the value that the settings file gave for the
    key when it was loaded; and with the configured default otherwise.
    Reading the settings of a key, which stores the default for a key that
    has none, does not change any answer. *)
Theorem isTerminalUIEnabled_answers_with_the_value_last_set
    (file : option (list (string * option bool))) (calls : list Call) (k : string) :
  (isTerminalUIEnabled TERMINAL_UI_DEFAULT k (run TERMINAL_UI_DEFAULT file calls)).1
  = default
      (default TERMINAL_UI_DEFAULT (from_file TERMINAL_UI_DEFAULT k file))
      (last_set k calls).
Proof.
  assert (Hread : ∀ st : gmap string bool,
            (isTerminalUIEnabled TERMINAL_UI_DEFAULT k st).1
            = default TERMINAL_UI_DEFAULT (st !! k)).
  { intros st. unfold isTerminalUIEnabled, getTerminalUISettings.
    by destruct (st !! k). }
  rewrite Hread.
  induction calls as [| c calls IH] using rev_ind.
  - unfold run, last_set. simpl. by rewrite loadSettings_lookup.
  - unfold run, last_set in *. rewrite !foldl_app. simpl.
    rewrite step_enabled. destruct c as [k' | k' enabled | k']; try exact IH.
    case_bool_decide; [done | exact IH].
Qed.

End props.

End TerminalSettingsProps.

(* ===================================================================== *)
(** * Properties of transcripts *)
(* ===================================================================== *)

Module TranscribeProps.
Import Stdlib.Strings.Ascii JsString JsStringProps Transcribe.

Lemma prefix_nil (sub : string) : sub ≠ "" → String.prefix sub "" = false.
Proof. by destruct sub. Qed.

Lemma lastIndexOf_None (sub s : string) :
  includes sub s = false → lastIndexOf sub s = None.
Proof.
  induction s as [| a s IH]; simpl.
  - by intros ->.
  - intros [Hhere Hlater]%orb_false_iff. rewrite IH by done.
    cbn [String.prefix] in Hhere. by rewrite Hhere.
Qed.

Lemma lastIndexOf_app (sub pre s : string) (i : nat) :
  lastIndexOf sub s = Some i →
  lastIndexOf sub (pre +:+ s) = Some (String.length pre + i)%nat.
Proof.
  intros Hs. induction pre as [| a pre IH]; simpl; [done |]. by rewrite IH.
Qed.

Lemma lastIndexOf_skip (b : ascii) (sub pre s : string) :
  free_of b pre →
  lastIndexOf (String b sub) s = None →
  lastIndexOf (String b sub) (pre +:+ s) = None.
Proof.
  intros Hfree Hs. induction pre as [| a pre IH]; [done |].
  unfold free_of in Hfree. simpl in Hfree.
  case_decide as Ha; [done |].
  destruct (indexOf b pre) eqn:Hpre; [done |].
  change (String a pre +:+ s) with (String a (pre +:+ s)).
  cbn [lastIndexOf]. rewrite IH by done.
  cbn [String.prefix]. destruct (ascii_dec b a); [by subst | done].
Qed.

Lemma lastIndexOf_marker (text : string) :
  includes marker text = false →
  lastIndexOf marker (marker +:+ text) = Some 0%nat.
Proof.
  intros Hfree%lastIndexOf_None.
  pose proof (startsWith_app marker text) as Hstart. unfold startsWith in Hstart.
  set (rest := "ull text:" +:+ String "010" "").
  assert (lastIndexOf marker (rest +:+ text) = None) as Hrest.
  { apply (lastIndexOf_skip "F" rest rest text); [reflexivity | exact Hfree]. }
  change (marker +:+ text) with (String "F" (rest +:+ text)) in Hstart |- *.
  cbn [lastIndexOf]. by rewrite Hrest, Hstart.
Qed.

Lemma slice_app_plus (s r : string) (n : nat) :
  slice (s +:+ r) (String.length s + n) None = slice r n None.
Proof. unfold slice. induction s as [| a s IH]; [done | exact IH]. Qed.

Lemma last_filter {A} (P : A → Prop) `{∀ x, Decision (P x)} (l : list A) (x : A) :
  last (filter P l) = Some x →
  ∃ l1 l2, l = l1 ++ x :: l2 ∧ P x ∧ Forall (λ y, ¬ P y) l2.
Proof.
  induction l as [| y l IH] using rev_ind; [done |].
  rewrite filter_app. cbn [filter list_filter]. destruct (decide (P y)) as [Hy | Hy].
  - rewrite last_snoc. intros [= <-]. exists l, []. by repeat split.
  - rewrite app_nil_r. intros (l1 & l2 & -> & Hx & Hall)%IH.
    exists l1, (l2 ++ [y]). rewrite <- app_assoc. split; [done |]. split; [done |].
    apply Forall_app. split; [done | by apply Forall_singleton].
Qed.

(** X30: when the output of the script contains the line
    ["Full text:"], the transcript is what follows the last such line,
    without the white space around it.  When it does not, the transcript is
    the last line of the output that is not blank, the output being taken
    without the white space around it; it is empty if every line is
    blank. *)
Theorem parseTranscript_takes_the_text_after_the_marker (before text stdout : string) :
  includes marker text = false →
  includes marker stdout = false →
  parseTranscript (before +:+ marker +:+ text) = trim text
  ∧ ((∃ lines blank,
         split "010" (trim stdout) = lines ++ parseTranscript stdout :: blank
         ∧ trim (parseTranscript stdout) ≠ ""
         ∧ Forall (λ l, trim l = "") blank)
     ∨ parseTranscript stdout = ""
       ∧ Forall (λ l, trim l = "") (split "010" (trim stdout))).
Proof.
  intros Htext Hstdout. split.
  - unfold parseTranscript.
    rewrite (lastIndexOf_app marker before _ 0) by by apply lastIndexOf_marker.
    rewrite Nat.add_0_r, slice_app_plus. by rewrite slice_app.
  - unfold parseTranscript. rewrite lastIndexOf_None by done.
    set (lines := split "010" (trim stdout)).
    destruct (last (filter (λ l, trim l ≠ "") lines)) as [line |] eqn:Hlast.
    + left. apply last_filter in Hlast as (l1 & l2 & Hlines & Hline & Hblank).
      exists l1, l2. split; [done |]. split; [done |].
      eapply Forall_impl; [exact Hblank |]. intros l Hl. simpl in Hl.
      by destruct (decide (trim l = "")).
    + right. split; [done |]. apply last_None in Hlast.
      apply Forall_forall. intros l Hl.
      destruct (decide (trim l = "")) as [? | Hne]; [done |].
      assert (l ∈ filter (λ l, trim l ≠ "") lines) as Hin
        by by apply list_elem_of_filter.
      rewrite Hlast in Hin. by apply elem_of_nil in Hin.
Qed.

Lemma parseTranscript_takes_the_text_after_the_marker_witness :
  parseTranscript ("Transcribing" +:+ String "010" "" +:+ marker +:+ " hello ")
  = trim " hello ".
Proof.
  apply (parseTranscript_takes_the_text_after_the_marker
           ("Transcribing" +:+ String "010" "") " hello " "hello").
  - reflexivity.
  - reflexivity.
Defined.

End TranscribeProps.
